(** * parse_ifc: the extraction-and-normalisation engine of [backend/parse_ifc.py]

    A shallow embedding of the pure core of the IFC parser: the key matcher,
    the property collector, the storey mapper, the spatial-tree builder and
    the row assembler, followed by the properties of the specification that
    were checked against it.

    Modelling conventions.
    - A Python [str] made of ASCII characters is a [string], one character
      per code point, and on such a name [str.lower] is the fold of the
      letters [A]..[Z] ([PyStr.lower]).  [str.lower] on other names is not
      such a fold (a capital sigma depends on its neighbours, U+0130 gives
      two code points); what it does to the key matcher is shown on code
      points in [PyUnicode].
    - A Python [float] is an exact rational [Q]; [int] is [Z]; [float(i)]
      is [inject_Z i].  Overflow, infinities and NaN are outside the model.
    - A Python [dict] whose iteration order matters is an association list in
      insertion order; [d[k] = v] is [dict_set].  A dict that is only looked
      up ([storey_map]) is a [gmap].
    - A [try] block is modelled by the state reached when the exception is
      raised: what was written before the failing statement stays written.
    - The spatial entities live in a finite store keyed by id, and a
      reference to an entity is its id; the recursion of [process_spatial]
      is bounded by a fuel argument, and running out of fuel is [None]. *)

From Stdlib Require Import ZArith QArith Qround Lqa Strings.String Strings.Ascii Lia.
From Stdlib Require Import Numbers.DecimalString.
From stdpp Require Import base option list strings gmap.

Local Open Scope Z_scope.

(** ** Python strings *)

Module PyStr.

Definition lower_char (c : ascii) : ascii :=
  let n := nat_of_ascii c in
  if (Nat.leb 65 n && Nat.leb n 90)%bool then ascii_of_nat (n + 32) else c.

Definition upper_char (c : ascii) : ascii :=
  let n := nat_of_ascii c in
  if (Nat.leb 97 n && Nat.leb n 122)%bool then ascii_of_nat (n - 32) else c.

(** [s.lower()] for an [s] made of ASCII characters: [A]..[Z] are folded,
    every other character is left alone. *)
Fixpoint lower (s : string) : string :=
  match s with
  | EmptyString => EmptyString
  | String c s' => String (lower_char c) (lower s')
  end.

(** [s.upper()], used only to state case insensitivity. *)
Fixpoint upper (s : string) : string :=
  match s with
  | EmptyString => EmptyString
  | String c s' => String (upper_char c) (upper s')
  end.

(** [s.replace(c, "")] for a one-character [c]: every occurrence goes. *)
Fixpoint remove_char (c : ascii) (s : string) : string :=
  match s with
  | EmptyString => EmptyString
  | String d s' =>
      if Ascii.eqb d c then remove_char c s' else String d (remove_char c s')
  end.

(** [s.startswith(k)] *)
Fixpoint starts_with (k s : string) : bool :=
  match k, s with
  | EmptyString, _ => true
  | String a k', String b s' => Ascii.eqb a b && starts_with k' s'
  | String _ _, EmptyString => false
  end.

(** [k in s] *)
Fixpoint contains (k s : string) : bool :=
  starts_with k s ||
  match s with
  | EmptyString => false
  | String _ s' => contains k s'
  end.

(** [s[:n]] *)
Fixpoint take (n : nat) (s : string) : string :=
  match n, s with
  | O, _ => EmptyString
  | S _, EmptyString => EmptyString
  | S n', String c s' => String c (take n' s')
  end.

(** [sep.join(parts)] *)
Fixpoint join (sep : string) (parts : list string) : string :=
  match parts with
  | [] => EmptyString
  | [p] => p
  | p :: rest => p +:+ sep +:+ join sep rest
  end.

(** Truthiness of a string: [bool(s)]. *)
Definition truthy (s : string) : bool :=
  match s with EmptyString => false | String _ _ => true end.

(** [a or b] on strings. *)
Definition or_else (a b : string) : string := if truthy a then a else b.

(** [k] occurs in [s] as a contiguous block. *)
Definition is_substring (k s : string) : Prop :=
  ∃ pre post, s = pre +:+ k +:+ post.

End PyStr.

(** ** KeyMatcher *)

Definition SPATIAL_TYPES : list string :=
  ["IfcProject"; "IfcSite"; "IfcBuilding"; "IfcBuildingStorey"; "IfcSpace"].

Definition VOLUME_KEYS : list string := ["netvolume"; "grossvolume"; "volume"].
Definition AREA_KEYS : list string :=
  ["netarea"; "grossarea"; "netsidearea"; "grosssidearea"; "area";
   "crosssectionarea"; "outersurfacearea"; "totalsurfacearea"; "netsurfacearea"].
Definition HEIGHT_KEYS : list string := ["height"; "overallheight"; "nominalheight"].
Definition LENGTH_KEYS : list string :=
  ["length"; "overalllength"; "nominallength"; "span"].
Definition WIDTH_KEYS : list string := ["width"; "overallwidth"; "nominalwidth"].
Definition PERIMETER_KEYS : list string :=
  ["perimeter"; "grossperimeter"; "netperimeter"].
Definition WEIGHT_KEYS : list string := ["weight"; "grossweight"; "netweight"].
Definition CONCRETE_KEYS : list string :=
  ["concretestrength"; "concreteclass"; "concretegrade";
   "classofconcrete"; "strengthclass"].

(** [name.lower().replace(" ", "").replace("_", "").replace("-", "")] *)
Definition normalize_key (name : string) : string :=
  PyStr.remove_char "-" (PyStr.remove_char "_" (PyStr.remove_char " " (PyStr.lower name))).

(** [any(k in nk for k in key_set)]; the key set is iterated as a list, the
    order being irrelevant to [any]. *)
Definition match_keys (name : string) (key_set : list string) : bool :=
  let nk := normalize_key name in
  existsb (fun k => PyStr.contains k nk) key_set.

(** ** Values and dictionaries *)

(** The outcome of a call or attribute read that may raise. *)
Inductive res (A : Type) : Type :=
| Ok (a : A)
| Raise (msg : string).
Arguments Ok {A} a.
Arguments Raise {A} msg.

(** A property value as the model library hands it out.  [IEntity] is an
    entity instance (it has [is_a]), [IOther] any other object (a tuple, a
    list, ...); both carry what [str(val)] gives. *)
Inductive ifc_value : Type :=
| INone
| IBool (b : bool)
| IInt (i : Z)
| IFloat (x : Q)
| IStr (s : string)
| IEntity (repr : string)
| IOther (repr : string).

(** The JSON-safe values [safe_value] returns:
    [str | int | float | bool | None]. *)
Inductive json_value : Type :=
| JNone
| JBool (b : bool)
| JInt (i : Z)
| JFloat (x : Q)
| JStr (s : string).

Definition safe_value (val : ifc_value) : json_value :=
  match val with
  | INone => JNone
  | IBool b => JBool b
  | IInt i => JInt i
  | IFloat x => JFloat x
  | IStr s => JStr s
  | IEntity repr => JStr repr
  | IOther repr => JStr repr
  end.

(** A dict in insertion order.  [items()] is the list itself. *)
Definition dict (V : Type) : Type := list (string * V).

(** [d[k] = v]: an existing key keeps its place, a new key goes last. *)
Fixpoint dict_set {V : Type} (k : string) (v : V) (d : dict V) : dict V :=
  match d with
  | [] => [(k, v)]
  | (k', v') :: d' =>
      if String.eqb k' k then (k', v) :: d' else (k', v') :: dict_set k v d'
  end.

Fixpoint dict_get {V : Type} (k : string) (d : dict V) : option V :=
  match d with
  | [] => None
  | (k', v') :: d' => if String.eqb k' k then Some v' else dict_get k d'
  end.

Definition dict_keys {V : Type} (d : dict V) : list string := map fst d.

(** The inner loop of the two retrieval blocks: copy every entry but ["id"]
    through [safe_value]. *)
Definition clean_entries (props : dict ifc_value) : dict json_value :=
  fold_left
    (fun clean_props kv =>
       if String.eqb (fst kv) "id" then clean_props
       else dict_set (fst kv) (safe_value (snd kv)) clean_props)
    props [].

Definition clean_sets (all_psets : dict (dict ifc_value)) : dict (dict json_value) :=
  fold_left
    (fun psets entry => dict_set (fst entry) (clean_entries (snd entry)) psets)
    all_psets [].

(** [try: ... except Exception]: a retrieval that raises leaves [{}]. *)
Definition retrieve_sets (r : res (dict (dict ifc_value))) : dict (dict json_value) :=
  match r with
  | Ok all_psets => clean_sets all_psets
  | Raise _ => []
  end.

(** ** PropertyCollector *)

(** The eight local variables of the scan. *)
Module Acc.
Record t : Type := mk {
  volume : Q;
  area : Q;
  height : Q;
  length : Q;
  width : Q;
  perimeter : Q;
  weight : Q;
  concrete_class : string
}.

Definition init : t := mk 0 0 0 0 0 0 0 "".

Definition set_volume (fv : Q) (a : t) : t :=
  mk fv (area a) (height a) (length a) (width a) (perimeter a) (weight a) (concrete_class a).
Definition set_area (fv : Q) (a : t) : t :=
  mk (volume a) fv (height a) (length a) (width a) (perimeter a) (weight a) (concrete_class a).
Definition set_height (fv : Q) (a : t) : t :=
  mk (volume a) (area a) fv (length a) (width a) (perimeter a) (weight a) (concrete_class a).
Definition set_length (fv : Q) (a : t) : t :=
  mk (volume a) (area a) (height a) fv (width a) (perimeter a) (weight a) (concrete_class a).
Definition set_width (fv : Q) (a : t) : t :=
  mk (volume a) (area a) (height a) (length a) fv (perimeter a) (weight a) (concrete_class a).
Definition set_perimeter (fv : Q) (a : t) : t :=
  mk (volume a) (area a) (height a) (length a) (width a) fv (weight a) (concrete_class a).
Definition set_weight (fv : Q) (a : t) : t :=
  mk (volume a) (area a) (height a) (length a) (width a) (perimeter a) fv (concrete_class a).
Definition set_concrete_class (s : string) (a : t) : t :=
  mk (volume a) (area a) (height a) (length a) (width a) (perimeter a) (weight a) s.
End Acc.

(** Truthiness of a float: [bool(x)]. *)
Definition float_truthy (x : Q) : bool := negb (Qeq_bool x 0).

(** [fv > 0] *)
Definition float_pos (x : Q) : bool := (0 <? Qnum x)%Z.

(** [float(v) if isinstance(v, (int, float)) else None].  In Python [bool]
    is a subclass of [int], so the [isinstance] test lets [True] and [False]
    through and [float] turns them into [1.0] and [0.0]. *)
Definition numeric_value (v : json_value) : option Q :=
  match v with
  | JInt i => Some (inject_Z i)
  | JFloat x => Some x
  | JBool b => Some (if b then 1%Q else 0%Q)
  | JNone | JStr _ => None
  end.

(** The numeric [if]/[elif] chain of one entry. *)
Definition claim_numeric (k : string) (fv : Q) (a : Acc.t) : Acc.t :=
  if negb (float_truthy (Acc.volume a)) && match_keys k VOLUME_KEYS then Acc.set_volume fv a
  else if negb (float_truthy (Acc.area a)) && match_keys k AREA_KEYS then Acc.set_area fv a
  else if negb (float_truthy (Acc.height a)) && match_keys k HEIGHT_KEYS then Acc.set_height fv a
  else if negb (float_truthy (Acc.length a)) && match_keys k LENGTH_KEYS then Acc.set_length fv a
  else if negb (float_truthy (Acc.width a)) && match_keys k WIDTH_KEYS then Acc.set_width fv a
  else if negb (float_truthy (Acc.perimeter a)) && match_keys k PERIMETER_KEYS then Acc.set_perimeter fv a
  else if negb (float_truthy (Acc.weight a)) && match_keys k WEIGHT_KEYS then Acc.set_weight fv a
  else a.

(** The string test of one entry. *)
Definition claim_concrete (k : string) (v : json_value) (a : Acc.t) : Acc.t :=
  match v with
  | JStr s =>
      if negb (PyStr.truthy (Acc.concrete_class a)) && match_keys k CONCRETE_KEYS
      then Acc.set_concrete_class s a else a
  | _ => a
  end.

(** The body of the innermost loop. *)
Definition scan_entry (a : Acc.t) (kv : string * json_value) : Acc.t :=
  let (k, v) := kv in
  match v with
  | JNone => a
  | _ =>
      let a1 :=
        match numeric_value v with
        | Some fv => if float_pos fv then claim_numeric k fv a else a
        | None => a
        end in
      claim_concrete k v a1
  end.

(** The entries of a source in the order the two inner loops visit them. *)
Definition entries_of (source : dict (dict json_value)) : list (string * json_value) :=
  flat_map snd source.

Definition scan_props (a : Acc.t) (props : dict json_value) : Acc.t :=
  fold_left scan_entry props a.

Definition scan_source (a : Acc.t) (source : dict (dict json_value)) : Acc.t :=
  fold_left (fun a entry => scan_props a (snd entry)) source a.

(** [for source in [psets, qsets]: ...] *)
Definition collect (psets qsets : dict (dict json_value)) : Acc.t :=
  fold_left scan_source [psets; qsets] Acc.init.

(** [round(x, 6)] on exact rationals: nearest multiple of 10^-6, ties to
    the even one. *)
Definition round_half_even (x : Q) : Z :=
  let f := Qfloor x in
  match Qcompare (x - inject_Z f) (1 # 2) with
  | Lt => f
  | Gt => f + 1
  | Eq => if Z.even f then f else f + 1
  end.

Definition round6 (x : Q) : Q := Qred (round_half_even (x * 1000000) # 1000000).

(** ** MaterialResolver *)

Module Material.
Record IfcMaterial : Type := { Name : option string }.
Record IfcMaterialLayer : Type := { Material : option IfcMaterial }.
Record IfcMaterialLayerSet : Type := { MaterialLayers : list IfcMaterialLayer }.
Record IfcMaterialConstituent : Type := { ConstituentMaterial : option IfcMaterial }.

(** What [get_material] can return, by the [is_a] tests of the resolver. *)
Inductive t : Type :=
| Single (m : IfcMaterial)
| LayerSetUsage (ForLayerSet : option IfcMaterialLayerSet)
| LayerSet (s : IfcMaterialLayerSet)
| MaterialList (Materials : list IfcMaterial)
| ConstituentSet (MaterialConstituents : option (list IfcMaterialConstituent))
| Other.
End Material.

(** [x or ""] for an attribute that may be absent or [None]. *)
Definition str_or_empty (x : option string) : string := default EmptyString x.

Definition layer_names (layers : list Material.IfcMaterialLayer) : list string :=
  flat_map
    (fun layer =>
       match Material.Material layer with
       | Some m => [str_or_empty (Material.Name m)]
       | None => []
       end)
    layers.

(** The [materials] list as the resolver leaves it (empty names included). *)
Definition resolve_materials (r : res (option Material.t)) : list string :=
  match r with
  | Raise _ => []
  | Ok None => []
  | Ok (Some mat) =>
      match mat with
      | Material.Single m => [str_or_empty (Material.Name m)]
      | Material.LayerSetUsage None => []
      | Material.LayerSetUsage (Some layer_set) =>
          layer_names (Material.MaterialLayers layer_set)
      | Material.LayerSet layer_set =>
          layer_names (Material.MaterialLayers layer_set)
      | Material.MaterialList ms =>
          map (fun m => str_or_empty (Material.Name m)) ms
      | Material.ConstituentSet cs =>
          flat_map
            (fun c =>
               match Material.ConstituentMaterial c with
               | Some m => [str_or_empty (Material.Name m)]
               | None => []
               end)
            (default [] cs)
      | Material.Other => []
      end
  end.

(** ** ClassificationResolver *)

Module Classification.
Record Reference : Type := {
  ItemReference : option string;
  Identification : option string;
  Name : option string
}.

(** One entry of [HasAssociations]. *)
Inductive Rel : Type :=
| AssociatesClassification (RelatingClassification : option Reference)
| AssociatesOther.
End Classification.

Definition classification_string (ref : Classification.Reference) : string :=
  let code :=
    PyStr.or_else (str_or_empty (Classification.ItemReference ref))
      (PyStr.or_else (str_or_empty (Classification.Identification ref)) EmptyString) in
  let cname := str_or_empty (Classification.Name ref) in
  if PyStr.truthy code then code +:+ ": " +:+ cname else cname.

(** The loop over [HasAssociations]; a relation that raises ends the loop,
    what was appended before it stays. *)
Fixpoint resolve_classifications
    (rels : list (res Classification.Rel)) (classifications : list string) : list string :=
  match rels with
  | [] => classifications
  | Raise _ :: _ => classifications
  | Ok Classification.AssociatesOther :: rest =>
      resolve_classifications rest classifications
  | Ok (Classification.AssociatesClassification None) :: rest =>
      resolve_classifications rest classifications
  | Ok (Classification.AssociatesClassification (Some ref)) :: rest =>
      resolve_classifications rest (classifications ++ [classification_string ref])
  end.

(** ** RowAssembler *)

Module Element.
(** A physical element of the model graph, with what the library returns
    for it.  [get_psets] is the answer to [get_psets(element)], which lists
    every set the library finds for the element (its quantity sets too, as
    the call does not ask for property sets only); [get_qtos] is the answer
    to [get_psets(element, qtos_only=True)].  The two fields are not
    related to each other here, so what is proved holds whatever sets the
    two answers share. *)
Record t : Type := {
  id : Z;
  GlobalId : option string;
  Name : option string;
  Description : option string;
  is_a : string;
  get_psets : res (dict (dict ifc_value));
  get_qtos : res (dict (dict ifc_value));
  get_material : res (option Material.t);
  HasAssociations : option (list (res Classification.Rel))
}.
End Element.

Module Row.
(** The dict [extract_element_data] returns. *)
Record t : Type := {
  express_id : Z;
  global_id : string;
  ifc_type : string;
  name : string;
  description : string;
  volume : Q;
  area : Q;
  height : Q;
  length : Q;
  width : Q;
  perimeter : Q;
  weight : Q;
  floor_name : string;
  materials : list string;
  classifications : list string;
  concrete_class : string;
  property_sets : dict (dict json_value);
  quantity_sets : dict (dict json_value);
  search_text : string
}.
End Row.

(** [str(i)] for an [int]. *)
Definition str_of_int (i : Z) : string := NilZero.string_of_int (Z.to_int i).

Section Assembly.

(** [str(x)] for a [float] is left to the Python runtime. *)
Variable str_of_float : Q → string.

(** [str(v)] as [f"{k}={v}"] formats a cleaned value. *)
Definition py_str (v : json_value) : string :=
  match v with
  | JNone => "None"
  | JBool true => "True"
  | JBool false => "False"
  | JInt i => str_of_int i
  | JFloat x => str_of_float x
  | JStr s => s
  end.

(** The loop that appends the property sets to [search_parts]. *)
Definition extend_with_psets
    (search_parts : list string) (psets : dict (dict json_value)) : list string :=
  fold_left
    (fun parts entry =>
       fold_left
         (fun parts kv => parts ++ [fst kv +:+ "=" +:+ py_str (snd kv)])
         (snd entry) (parts ++ [fst entry]))
    psets search_parts.

(** [extract_element_data(element, model, storey_map)]; [model] is not
    read by the function. *)
Definition extract_element_data (element : Element.t) (storey_map : gmap Z string) : Row.t :=
  let express_id := Element.id element in
  let global_id := str_or_empty (Element.GlobalId element) in
  let name := str_or_empty (Element.Name element) in
  let description := str_or_empty (Element.Description element) in
  let ifc_type := Element.is_a element in
  let psets := retrieve_sets (Element.get_psets element) in
  let qsets := retrieve_sets (Element.get_qtos element) in
  let a := collect psets qsets in
  let materials := resolve_materials (Element.get_material element) in
  let classifications :=
    resolve_classifications (default [] (Element.HasAssociations element)) [] in
  let floor_name := default EmptyString (storey_map !! express_id) in
  let search_parts := [ifc_type; name; description; floor_name; Acc.concrete_class a] in
  let search_parts := search_parts ++ materials in
  let search_parts := search_parts ++ classifications in
  let search_parts := extend_with_psets search_parts psets in
  let search_text := PyStr.join " " (List.filter PyStr.truthy search_parts) in
  {| Row.express_id := express_id;
     Row.global_id := global_id;
     Row.ifc_type := ifc_type;
     Row.name := name;
     Row.description := description;
     Row.volume := round6 (Acc.volume a);
     Row.area := round6 (Acc.area a);
     Row.height := round6 (Acc.height a);
     Row.length := round6 (Acc.length a);
     Row.width := round6 (Acc.width a);
     Row.perimeter := round6 (Acc.perimeter a);
     Row.weight := round6 (Acc.weight a);
     Row.floor_name := floor_name;
     Row.materials := List.filter PyStr.truthy materials;
     Row.classifications := List.filter PyStr.truthy classifications;
     Row.concrete_class := Acc.concrete_class a;
     Row.property_sets := psets;
     Row.quantity_sets := qsets;
     Row.search_text := PyStr.take (Z.to_nat 10000) search_text |}.

End Assembly.

(** ** StoreyMapper *)

Module Structure.
(** The spatial structure a containment relation points to. *)
Record t : Type := {
  Name : option string;
  LongName : option string
}.
End Structure.

Module RelContained.
(** An [IfcRelContainedInSpatialStructure].  Reading either attribute may
    raise; a related element is given by what its [id()] call returns. *)
Record t : Type := {
  RelatingStructure : res (option Structure.t);
  RelatedElements : res (option (list (res Z)))
}.
End RelContained.

(** [getattr(structure, "Name", "") or getattr(structure, "LongName", "") or ""] *)
Definition display_name (structure : Structure.t) : string :=
  PyStr.or_else (str_or_empty (Structure.Name structure))
    (PyStr.or_else (str_or_empty (Structure.LongName structure)) EmptyString).

(** [for element in ...: storey_map[element.id()] = storey_name].  The second
    component tells whether the loop raised. *)
Fixpoint assign_elements
    (storey_name : string) (elements : list (res Z)) (storey_map : gmap Z string)
    : gmap Z string * bool :=
  match elements with
  | [] => (storey_map, false)
  | Raise _ :: _ => (storey_map, true)
  | Ok eid :: rest => assign_elements storey_name rest (<[eid := storey_name]> storey_map)
  end.

(** The loop over the relations, inside the one [try] of the function. *)
Fixpoint storey_loop
    (rels : list RelContained.t) (storey_map : gmap Z string) : gmap Z string * bool :=
  match rels with
  | [] => (storey_map, false)
  | rel :: rest =>
      match RelContained.RelatingStructure rel with
      | Raise _ => (storey_map, true)
      | Ok None => storey_loop rest storey_map
      | Ok (Some structure) =>
          let storey_name := display_name structure in
          match RelContained.RelatedElements rel with
          | Raise _ => (storey_map, true)
          | Ok elements =>
              let (storey_map', raised) :=
                assign_elements storey_name (default [] elements) storey_map in
              if raised then (storey_map', true) else storey_loop rest storey_map'
          end
      end
  end.

(** [build_storey_map(model)], given [model.by_type("IfcRelContainedInSpatialStructure")].
    Whether or not the loop raised, the map reached so far is returned. *)
Definition build_storey_map (rels : list RelContained.t) : gmap Z string :=
  fst (storey_loop rels ∅).

(** ** SpatialTreeBuilder *)

Module RelAggregates.
(** An [IfcRelAggregates]; the related objects are references into the
    entity store. *)
Record t : Type := { RelatedObjects : res (option (list Z)) }.
End RelAggregates.

Module Entity.
(** An entity as [process_spatial] reads it. *)
Record t : Type := {
  is_a : string;
  Name : option string;
  LongName : option string;
  Elevation : ifc_value;
  ContainsElements : option (list RelContained.t);
  IsDecomposedBy : option (list RelAggregates.t)
}.
End Entity.

Module Node.
(** One dict appended to [nodes]. *)
Record t : Type := {
  express_id : Z;
  ifc_type : string;
  name : string;
  long_name : string;
  parent_express_id : option Z;
  elevation : option Q;
  element_count : nat
}.
End Node.

(** The model graph as [build_spatial_tree] sees it: the entities by id, and
    [model.by_type("IfcProject")]. *)
Record Model : Type := {
  entities : gmap Z Entity.t;
  projects : list Z
}.

(** The counting loop; a relation whose [RelatedElements] raises ends it and
    the count reached so far stays. *)
Fixpoint count_elements (rels : list RelContained.t) (element_count : nat) : nat :=
  match rels with
  | [] => element_count
  | rel :: rest =>
      match RelContained.RelatedElements rel with
      | Raise _ => element_count
      | Ok elements =>
          count_elements rest (element_count + List.length (default [] elements))%nat
      end
  end.

Definition is_spatial_type (ifc_type : string) : bool :=
  existsb (String.eqb ifc_type) SPATIAL_TYPES.

Section Traversal.

(** [float(s)] for a [str] is left to the Python runtime; [None] stands for
    [ValueError]. *)
Variable float_of_str : string → option Q.

(** [float(elevation)] under [except (ValueError, TypeError)]. *)
Definition parse_elevation (elevation : ifc_value) : option Q :=
  match elevation with
  | INone => None
  | IBool b => Some (if b then 1%Q else 0%Q)
  | IInt i => Some (inject_Z i)
  | IFloat x => Some x
  | IStr s => float_of_str s
  | IEntity _ | IOther _ => None
  end.

Definition make_node (eid : Z) (entity : Entity.t) (parent_id : option Z) : Node.t :=
  let ifc_type := Entity.is_a entity in
  {| Node.express_id := eid;
     Node.ifc_type := ifc_type;
     Node.name := str_or_empty (Entity.Name entity);
     Node.long_name := str_or_empty (Entity.LongName entity);
     Node.parent_express_id := parent_id;
     Node.elevation :=
       if String.eqb ifc_type "IfcBuildingStorey"
       then parse_elevation (Entity.Elevation entity) else None;
     Node.element_count :=
       count_elements (default [] (Entity.ContainsElements entity)) 0 |}.

(** [for child in rel.RelatedObjects or []: process_spatial(child, entity.id())],
    with the recursive call as [visit]. *)
Fixpoint children_loop
    (visit : Z → list Node.t → option (list Node.t))
    (children : list Z) (nodes : list Node.t) : option (list Node.t) :=
  match children with
  | [] => Some nodes
  | child :: rest =>
      match visit child nodes with
      | None => None
      | Some nodes' => children_loop visit rest nodes'
      end
  end.

(** [for rel in getattr(entity, "IsDecomposedBy", []) or []: ...] inside
    its [try]: a relation whose [RelatedObjects] raises ends the loop. *)
Fixpoint rels_loop
    (visit : Z → list Node.t → option (list Node.t))
    (rels : list RelAggregates.t) (nodes : list Node.t) : option (list Node.t) :=
  match rels with
  | [] => Some nodes
  | rel :: rest =>
      match RelAggregates.RelatedObjects rel with
      | Raise _ => Some nodes
      | Ok objs =>
          match children_loop visit (default [] objs) nodes with
          | None => None
          | Some nodes' => rels_loop visit rest nodes'
          end
      end
  end.

Variable store : gmap Z Entity.t.

(** [process_spatial(entity, parent_id)], threading the [nodes] list.  A
    reference that is not in the store is an absent entity.  [fuel] bounds
    the recursion depth; [None] means it ran out. *)
Fixpoint process_spatial
    (fuel : nat) (ref : Z) (parent_id : option Z) (nodes : list Node.t)
    : option (list Node.t) :=
  match fuel with
  | O => None
  | S fuel' =>
      match store !! ref with
      | None => Some nodes
      | Some entity =>
          if negb (is_spatial_type (Entity.is_a entity)) then Some nodes
          else
            rels_loop
              (fun child nodes => process_spatial fuel' child (Some ref) nodes)
              (default [] (Entity.IsDecomposedBy entity))
              (nodes ++ [make_node ref entity parent_id])
      end
  end.

(** [for project in model.by_type("IfcProject"): process_spatial(project)] *)
Fixpoint process_projects
    (fuel : nat) (ps : list Z) (nodes : list Node.t) : option (list Node.t) :=
  match ps with
  | [] => Some nodes
  | project :: ps' =>
      match process_spatial fuel project None nodes with
      | None => None
      | Some nodes' => process_projects fuel ps' nodes'
      end
  end.

End Traversal.

Definition build_spatial_tree
    (float_of_str : string → option Q) (fuel : nat) (model : Model) : option (list Node.t) :=
  process_projects float_of_str (entities model) fuel (projects model) [].

(** [child] is listed in a decomposition relation of [parent]. *)
Definition child_of (store : gmap Z Entity.t) (child parent : Z) : Prop :=
  ∃ entity rels rel objs,
    store !! parent = Some entity ∧
    Entity.IsDecomposedBy entity = Some rels ∧
    rel ∈ rels ∧
    RelAggregates.RelatedObjects rel = Ok (Some objs) ∧
    child ∈ objs.

(** The decomposition relations are acyclic: no entity is reached from
    itself. *)
Definition acyclic (store : gmap Z Entity.t) : Prop :=
  ∀ x, ¬ tc (child_of store) x x.

(** ** Vocabulary for the properties *)

(** The seven numeric categories, in the order of the [if]/[elif] chain. *)
Inductive category : Type :=
| Volume | Area | Height | Length | Width | Perimeter | Weight.

#[global] Instance category_eq_dec : EqDecision category.
Proof. solve_decision. Defined.

Definition precedence : list category :=
  [Volume; Area; Height; Length; Width; Perimeter; Weight].

Definition category_keys (c : category) : list string :=
  match c with
  | Volume => VOLUME_KEYS
  | Area => AREA_KEYS
  | Height => HEIGHT_KEYS
  | Length => LENGTH_KEYS
  | Width => WIDTH_KEYS
  | Perimeter => PERIMETER_KEYS
  | Weight => WEIGHT_KEYS
  end.

Definition acc_field (c : category) (a : Acc.t) : Q :=
  match c with
  | Volume => Acc.volume a
  | Area => Acc.area a
  | Height => Acc.height a
  | Length => Acc.length a
  | Width => Acc.width a
  | Perimeter => Acc.perimeter a
  | Weight => Acc.weight a
  end.

Definition set_field (c : category) (fv : Q) (a : Acc.t) : Acc.t :=
  match c with
  | Volume => Acc.set_volume fv a
  | Area => Acc.set_area fv a
  | Height => Acc.set_height fv a
  | Length => Acc.set_length fv a
  | Width => Acc.set_width fv a
  | Perimeter => Acc.set_perimeter fv a
  | Weight => Acc.set_weight fv a
  end.

Definition row_field (c : category) (r : Row.t) : Q :=
  match c with
  | Volume => Row.volume r
  | Area => Row.area r
  | Height => Row.height r
  | Length => Row.length r
  | Width => Row.width r
  | Perimeter => Row.perimeter r
  | Weight => Row.weight r
  end.

Definition category_eqb (c d : category) : bool :=
  match c, d with
  | Volume, Volume | Area, Area | Height, Height | Length, Length
  | Width, Width | Perimeter, Perimeter | Weight, Weight => true
  | _, _ => false
  end.

(** The categories tested before [c] in the chain. *)
Fixpoint before_in (c : category) (l : list category) : list category :=
  match l with
  | [] => []
  | d :: l' => if category_eqb d c then [] else d :: before_in c l'
  end.

Definition earlier (c : category) : list category := before_in c precedence.

(** The scan order of the collector: every entry of every property set, then
    every entry of every quantity set. *)
Definition scan_order (psets qsets : dict (dict json_value)) : list (string * json_value) :=
  entries_of psets ++ entries_of qsets.

Definition scan (entries : list (string * json_value)) (a : Acc.t) : Acc.t :=
  fold_left scan_entry entries a.

(** A number in the sense of the specification: an [int] or a [float], not
    a boolean. *)
Definition number_of (v : json_value) : option Q :=
  match v with
  | JInt i => Some (inject_Z i)
  | JFloat x => Some x
  | _ => None
  end.

(** The entry has a strictly positive number and its name matches [c]. *)
Definition qualifies (c : category) (kv : string * json_value) : bool :=
  match number_of (snd kv) with
  | Some fv => float_pos fv && match_keys (fst kv) (category_keys c)
  | None => false
  end.

(** The same with the collector's own coercion. *)
Definition coerced_qualifies (c : category) (kv : string * json_value) : bool :=
  match numeric_value (snd kv) with
  | Some fv => float_pos fv && match_keys (fst kv) (category_keys c)
  | None => false
  end.

(** No entry pairs the value [True] with a name of a numeric category. *)
Definition no_true_under_numeric_name (entries : list (string * json_value)) : Prop :=
  ∀ k c, (k, JBool true) ∈ entries → match_keys k (category_keys c) = false.

(** The same, as a check that runs. *)
Definition true_free (entries : list (string * json_value)) : bool :=
  forallb
    (fun kv =>
       match snd kv with
       | JBool true =>
           forallb (fun c => negb (match_keys (fst kv) (category_keys c))) precedence
       | _ => true
       end)
    entries.

(** The field of [c] as the specification words it: 0.0, or the value of the
    first entry in scan order that qualifies for [c]. *)
Definition first_match_claim (c : category) (r : Row.t) : Prop :=
  row_field c r = 0%Q ∨
  ∃ kv,
    find (qualifies c) (scan_order (Row.property_sets r) (Row.quantity_sets r)) = Some kv ∧
    number_of (snd kv) = Some (row_field c r).

(** An entry that can claim concrete-class: a non-empty string under a
    matching name. *)
Definition concrete_candidate (kv : string * json_value) : bool :=
  match snd kv with
  | JStr s => PyStr.truthy s && match_keys (fst kv) CONCRETE_KEYS
  | _ => false
  end.

Definition string_of (v : json_value) : string :=
  match v with JStr s => s | _ => EmptyString end.

(** The entries as retrieved, in the same order, before [safe_value]. *)
Definition retrieved_entries (r : res (dict (dict ifc_value))) : list (string * ifc_value) :=
  match r with
  | Ok all_psets => flat_map snd all_psets
  | Raise _ => []
  end.

Definition retrieved_scan_order (element : Element.t) : list (string * ifc_value) :=
  retrieved_entries (Element.get_psets element) ++
  retrieved_entries (Element.get_qtos element).

(** A retrieved entry whose raw value is a non-empty string under a
    concrete-class name. *)
Definition raw_concrete_candidate (kv : string * ifc_value) : bool :=
  match snd kv with
  | IStr s => PyStr.truthy s && match_keys (fst kv) CONCRETE_KEYS
  | _ => false
  end.

Definition raw_string_of (v : ifc_value) : string :=
  match v with IStr s => s | _ => EmptyString end.

(** A cleaned value seen as a retrieved one. *)
Definition as_retrieved (v : json_value) : ifc_value :=
  match v with
  | JNone => INone
  | JBool b => IBool b
  | JInt i => IInt i
  | JFloat x => IFloat x
  | JStr s => IStr s
  end.

(** The keys of a dict are pairwise distinct, as they are in any Python
    dict. *)
Fixpoint distinct_keys {V : Type} (d : dict V) : bool :=
  match d with
  | [] => true
  | (k, _) :: d' => negb (existsb (String.eqb k) (dict_keys d')) && distinct_keys d'
  end.

Definition well_formed_sets (all_psets : dict (dict ifc_value)) : bool :=
  distinct_keys all_psets && forallb (fun entry => distinct_keys (snd entry)) all_psets.

(** What the two retrieval loops keep of one retrieved set. *)
Definition kept_entries (props : dict ifc_value) : dict json_value :=
  map (fun kv => (fst kv, safe_value (snd kv)))
      (List.filter (fun kv => negb (String.eqb (fst kv) "id")) props).

(** The name a material contributes, empty when it has none. *)
Definition material_name (m : Material.IfcMaterial) : string :=
  str_or_empty (Material.Name m).

(** The names an association stands for: one per material, in order; a
    layer or a constituent without material gives none. *)
Definition names_of_material (mat : Material.t) : list string :=
  match mat with
  | Material.Single m => [material_name m]
  | Material.LayerSetUsage None => []
  | Material.LayerSetUsage (Some layer_set) | Material.LayerSet layer_set =>
      omap (fun layer => material_name <$> Material.Material layer)
        (Material.MaterialLayers layer_set)
  | Material.MaterialList ms => material_name <$> ms
  | Material.ConstituentSet cs =>
      omap (fun c => material_name <$> Material.ConstituentMaterial c) (default [] cs)
  | Material.Other => []
  end.

(** What was read before the first read that raises. *)
Fixpoint read_before_failure {A : Type} (l : list (res A)) : list A :=
  match l with
  | Ok a :: rest => a :: read_before_failure rest
  | _ => []
  end.

(** The string a relation stands for, if it is a classification relation
    with a reference. *)
Definition classification_of (rel : Classification.Rel) : option string :=
  match rel with
  | Classification.AssociatesClassification (Some ref) => Some (classification_string ref)
  | _ => None
  end.

(** The segments of the search text in the order the specification lists
    them, from the fields of the assembled record. *)
Definition search_segments (str_of_float : Q → string) (r : Row.t) : list string :=
  [Row.ifc_type r; Row.name r; Row.description r; Row.floor_name r; Row.concrete_class r]
  ++ Row.materials r
  ++ Row.classifications r
  ++ flat_map
       (fun entry =>
          fst entry ::
          map (fun kv => fst kv +:+ "=" +:+ py_str str_of_float (snd kv)) (snd entry))
       (Row.property_sets r).




(** The relation assigns a floor name to [eid]: it has a structure and lists
    the element. *)
Definition assigning (rel : RelContained.t) (eid : Z) : Prop :=
  ∃ structure elements,
    RelContained.RelatingStructure rel = Ok (Some structure) ∧
    RelContained.RelatedElements rel = Ok (Some elements) ∧
    Ok eid ∈ elements.

(** The relation lists [eid] among its related elements. *)
Definition listing (rel : RelContained.t) (eid : Z) : Prop :=
  ∃ elements,
    RelContained.RelatedElements rel = Ok (Some elements) ∧ Ok eid ∈ elements.

(** The ids of the related elements read before the first one that
    raises. *)
Fixpoint ids_before_failure (elements : list (res Z)) : list Z :=
  match elements with
  | Ok eid :: rest => eid :: ids_before_failure rest
  | _ => []
  end.

(** The scan of [rels] ended in the [except] branch. *)
Definition raised (rels : list RelContained.t) : bool := snd (storey_loop rels ∅).

(** [c] has parent [p] in the emitted list. *)
Definition parent_link (nodes : list Node.t) (c p : Z) : Prop :=
  ∃ n, n ∈ nodes ∧ Node.express_id n = c ∧ Node.parent_express_id n = Some p.

(** The retrieved property sets as the specification words them: every set
    and every entry of it is found unchanged in the record. *)
Definition carried_unchanged (element : Element.t) (r : Row.t) : Prop :=
  ∀ all_psets set_name props k v,
    Element.get_psets element = Ok all_psets →
    dict_get set_name all_psets = Some props →
    dict_get k props = Some v →
    ∃ props',
      dict_get set_name (Row.property_sets r) = Some props' ∧
      as_retrieved <$> dict_get k props' = Some v.

(** The concrete-class field as the specification words it: the first
    retrieved entry whose raw value is a non-empty string under a matching
    name, else the empty string. *)
Definition first_raw_string_claim (element : Element.t) (r : Row.t) : Prop :=
  Row.concrete_class r =
  match find raw_concrete_candidate (retrieved_scan_order element) with
  | Some kv => raw_string_of (snd kv)
  | None => EmptyString
  end.

(** A failing relation drops only its own contribution, as the specification
    words it: what the relations after it assign is in the map. *)
Definition later_relations_still_applied (rels : list RelContained.t) : Prop :=
  ∀ pre rel post eid floor,
    rels = pre ++ rel :: post →
    raised [rel] = true →
    build_storey_map post !! eid = Some floor →
    build_storey_map rels !! eid = Some floor.

(** [rank] goes down along every decomposition edge of the store: a
    check, that runs, from which acyclicity follows. *)
Definition ranked (rank : Z → nat) (store : gmap Z Entity.t) : bool :=
  forallb
    (fun pe =>
       forallb
         (fun rel =>
            match RelAggregates.RelatedObjects rel with
            | Ok (Some objs) => forallb (fun c => Nat.ltb (rank c) (rank (fst pe))) objs
            | _ => true
            end)
         (default [] (Entity.IsDecomposedBy (snd pe))))
    (map_to_list store).

(** Every parent id in the list is the id of a node at or before it. *)
Definition parents_precede (nodes : list Node.t) : Prop :=
  ∀ i n p,
    nodes !! i = Some n → Node.parent_express_id n = Some p →
    ∃ j m, (j ≤ i)%nat ∧ nodes !! j = Some m ∧ Node.express_id m = p.

(** No node is its own ancestor along the parent ids. *)
Definition no_self_ancestor (nodes : list Node.t) : Prop :=
  ∀ n, n ∈ nodes → ¬ tc (parent_link nodes) (Node.express_id n) (Node.express_id n).

(** What [normalize_key] makes of one character. *)
Definition norm_char (c : ascii) : string := normalize_key (String c EmptyString).

(** The category [c] is still unclaimed in state [a] and matched by the
    name [k]: the test of its branch of the [if]/[elif] chain. *)
Definition open_for (k : string) (a : Acc.t) (c : category) : bool :=
  negb (float_truthy (acc_field c a)) && match_keys k (category_keys c).

(** The entry reaches the branch of [c] in state [a]: it qualifies for [c],
    and every category before [c] in the chain is not matched by its name
    or is already claimed. *)
Definition reaches (c : category) (a : Acc.t) (kv : string * json_value) : bool :=
  qualifies c kv &&
  forallb
    (fun d => negb (match_keys (fst kv) (category_keys d)) || float_truthy (acc_field d a))
    (earlier c).

(** A retrieval that failed, or whose dicts have distinct keys. *)
Definition well_formed_retrieval (r : res (dict (dict ifc_value))) : bool :=
  match r with
  | Ok all_psets => well_formed_sets all_psets
  | Raise _ => true
  end.

(** What the retrieval loops make of the retrieved entries: the one keyed
    ["id"] goes, the values pass through [safe_value]. *)
Definition cleaned (entries : list (string * ifc_value)) : list (string * json_value) :=
  map (fun kv => (fst kv, safe_value (snd kv)))
      (List.filter (fun kv => negb (String.eqb (fst kv) "id")) entries).

(** An unclaimed accumulator still holds the initial [0.0]. *)
Definition unclaimed_zero (a : Acc.t) : Prop :=
  ∀ c, float_truthy (acc_field c a) = false → acc_field c a = 0%Q.

(** Every parent id names a node emitted strictly before, and every
    parent link is a decomposition edge of the store. *)
Definition linked (store : gmap Z Entity.t) (nodes : list Node.t) : Prop :=
  ∀ i n p,
    nodes !! i = Some n → Node.parent_express_id n = Some p →
    (∃ j m, (j < i)%nat ∧ nodes !! j = Some m ∧ Node.express_id m = p) ∧
    child_of store (Node.express_id n) p.

(** A node with id [p] is in the list. *)
Definition emitted (nodes : list Node.t) (p : Z) : Prop :=
  ∃ j m, nodes !! j = Some m ∧ Node.express_id m = p.

(** A node of a recognised type, with an elevation only if a storey. *)
Definition well_typed (n : Node.t) : Prop :=
  is_spatial_type (Node.ifc_type n) = true ∧
  (is_Some (Node.elevation n) → Node.ifc_type n = "IfcBuildingStorey").

(** ** Sample inputs *)

Module Sample.

(** Stand-ins for the two runtime conversions. *)
Definition str_of_float (x : Q) : string := "<float>".
Definition float_of_str (s : string) : option Q :=
  if String.eqb s "3.5" then Some (7 # 2)%Q else None.

Definition element
    (eid : Z) (psets qtos : res (dict (dict ifc_value))) : Element.t :=
  {| Element.id := eid;
     Element.GlobalId := Some "2O2Fr$t4X7Zf8NOew3FLOH";
     Element.Name := Some "Wall-01";
     Element.Description := None;
     Element.is_a := "IfcWall";
     Element.get_psets := psets;
     Element.get_qtos := qtos;
     Element.get_material := Ok None;
     Element.HasAssociations := None |}.

(** A wall with one property set in the first retrieval and one quantity
    set in the second (each set carries its own ["id"]). *)
Definition wall : Element.t :=
  element 101
    (Ok [("Pset_WallCommon",
          [("id", IInt 70); ("IsExternal", IBool true); ("Reference", IStr "W-01")])])
    (Ok [("Qto_WallBaseQuantities",
          [("id", IInt 77); ("Net Volume", IFloat (21 # 4))])]).

(** A name that matches two categories, followed by a plain area. *)
Definition slab : Element.t :=
  element 102
    (Ok [("Pset_Custom",
          [("Volume per Area", IFloat (5 # 2)); ("Area", IFloat (7 # 1))])])
    (Ok []).

(** A boolean under a name that matches a numeric category. *)
Definition door : Element.t :=
  element 103
    (Ok [("Pset_Custom", [("Has Height Limit", IBool true)])])
    (Ok []).

(** An entity reference under a concrete-class name, before a string. *)
Definition beam : Element.t :=
  element 104
    (Ok [("Pset_ConcreteElementGeneral",
          [("ConcreteGrade", IEntity "#57=IfcMaterial('C25/30')");
           ("StrengthClass", IStr "C30/37")])])
    (Ok []).

Definition level (name : string) : Structure.t :=
  {| Structure.Name := Some name; Structure.LongName := None |}.

Definition contains (name : string) (eids : list Z) : RelContained.t :=
  {| RelContained.RelatingStructure := Ok (Some (level name));
     RelContained.RelatedElements := Ok (Some (map Ok eids)) |}.

(** A relation whose structure cannot be read. *)
Definition broken : RelContained.t :=
  {| RelContained.RelatingStructure := Raise "attribute error";
     RelContained.RelatedElements := Ok None |}.

Definition spatial
    (type : string) (elevation : ifc_value) (children : list Z) : Entity.t :=
  {| Entity.is_a := type;
     Entity.Name := Some type;
     Entity.LongName := None;
     Entity.Elevation := elevation;
     Entity.ContainsElements := None;
     Entity.IsDecomposedBy :=
       Some [ {| RelAggregates.RelatedObjects := Ok (Some children) |} ] |}.

(** Project 1 > site 2 > building 3 > storey 4 (elevation ["3.5"]) and
    storey 5 (elevation ["n/a"]); storey 5 holds space 6; the building also
    aggregates an annotation 7 that holds space 8. *)
Definition building : Model :=
  {| entities :=
       list_to_map
         [(1, spatial "IfcProject" INone [2]);
          (2, spatial "IfcSite" INone [3]);
          (3, spatial "IfcBuilding" INone [4; 5; 7]);
          (4, spatial "IfcBuildingStorey" (IStr "3.5") []);
          (5, spatial "IfcBuildingStorey" (IStr "n/a") [6]);
          (6, spatial "IfcSpace" (IFloat (1 # 1)) []);
          (7, spatial "IfcAnnotation" INone [8]);
          (8, spatial "IfcSpace" INone [])];
     projects := [1] |}.

(** The depth of each entity of [building] below the leaves. *)
Definition rank (x : Z) : nat :=
  if bool_decide (x = 1) then 4%nat
  else if bool_decide (x = 2) then 3%nat
  else if bool_decide (x = 3) then 2%nat
  else if bool_decide (x = 5) then 1%nat
  else if bool_decide (x = 7) then 1%nat
  else 0%nat.

End Sample.

(** ** parse_ifc_file: selection, batching and status *)

Module ModelEntity.
(** An entity as the loop [for entity in model] sees it: its type, which of
    the three attributes it has, and what [extract_element_data] reads of it
    ([Raise] when a read outside the [try] blocks of that function fails). *)
Record t : Type := {
  is_a : string;
  has_GlobalId : bool;
  has_Representation : bool;
  has_ObjectPlacement : bool;
  view : res Element.t
}.
End ModelEntity.

Definition skip_types : list string :=
  ["IfcProject"; "IfcSite"; "IfcBuilding"; "IfcBuildingStorey";
   "IfcSpace"; "IfcOwnerHistory"; "IfcGeometricRepresentationContext";
   "IfcRelDefinesByProperties"; "IfcRelAssociatesMaterial";
   "IfcRelContainedInSpatialStructure"; "IfcRelAggregates";
   "IfcPropertySet"; "IfcPropertySingleValue"; "IfcMaterial";
   "IfcMaterialLayerSet"; "IfcMaterialLayer"; "IfcCartesianPoint";
   "IfcDirection"; "IfcAxis2Placement3D"; "IfcLocalPlacement";
   "IfcShapeRepresentation"; "IfcProductDefinitionShape"].

(** The two nested [if]s that decide whether an entity is appended to
    [all_elements]. *)
Definition is_product (entity : ModelEntity.t) : bool :=
  (ModelEntity.has_GlobalId entity
   && negb (existsb (String.eqb (ModelEntity.is_a entity)) skip_types))
  && (ModelEntity.has_Representation entity || ModelEntity.has_ObjectPlacement entity).

Definition select_elements (entities : list ModelEntity.t) : list ModelEntity.t :=
  List.filter is_product entities.

(** The rows an extraction yields, failures left out. *)
Definition successes {E R : Type} (extract : E → res R) (elements : list E) : list R :=
  flat_map (fun e => match extract e with Ok data => [data] | Raise _ => [] end) elements.

(** The element loop: [rows] is the buffer, [inserted] the batches handed to
    the store so far; a failing extraction is skipped, and the buffer is
    flushed as soon as it holds 1000 rows. *)
Fixpoint element_loop {E R : Type} (extract : E → res R)
    (elements : list E) (rows : list R) (inserted : list (list R))
    : list R * list (list R) :=
  match elements with
  | [] => (rows, inserted)
  | element :: rest =>
      let rows1 :=
        match extract element with
        | Ok data => rows ++ [data]
        | Raise _ => rows
        end in
      if (1000 <=? Z.of_nat (List.length rows1))%Z
      then element_loop extract rest [] (inserted ++ [rows1])
      else element_loop extract rest rows1 inserted
  end.

(** The loop followed by [if rows: insert(rows)]. *)
Definition insert_elements {E R : Type} (extract : E → res R) (elements : list E)
    : list (list R) :=
  let (rows, inserted) := element_loop extract elements [] [] in
  match rows with
  | [] => inserted
  | _ :: _ => inserted ++ [rows]
  end.

(** [for i in range(i, len(l), 500): batch = l[i:i+500]]; the fuel bounds
    the number of rounds. *)
Fixpoint chunks_from {A : Type} (fuel i : nat) (l : list A) : list (list A) :=
  match fuel with
  | O => []
  | S fuel' =>
      if Nat.ltb i (List.length l)
      then take 500 (drop i l) :: chunks_from fuel' (i + 500) l
      else []
  end.

(** The batches of the spatial insert; [len(l)] rounds are always enough. *)
Definition chunks {A : Type} (l : list A) : list (list A) :=
  chunks_from (List.length l) 0 l.

Module ModelRow.
(** The dict inserted into [ifc_models]. *)
Record t : Type := {
  id : string;
  name : string;
  file_name : string;
  file_size : Z;
  schema_version : string;
  parse_status : string
}.
End ModelRow.

(** One call to the store. *)
Inductive db_op : Type :=
| InsertModel (row : ModelRow.t)
| InsertSpatial (batch : list (Node.t * string))
| InsertElements (batch : list (Row.t * string))
| UpdateModel (id : string) (parse_status : string) (element_count : nat).

Module IfcFile.
(** An opened file: its name and size, the schema, and the three views of
    the model graph the parser reads. *)
Record t : Type := {
  file_name : string;
  stem : string;
  file_size : Z;
  schema : string;
  containment : list RelContained.t;
  spatial : Model;
  all_entities : list ModelEntity.t
}.
End IfcFile.

(** [extract_element_data] under the [try] of the element loop, with
    [data["model_id"] = model_id]. *)
Definition extract_row
    (str_of_float : Q → string) (storey_map : gmap Z string) (model_id : string)
    (entity : ModelEntity.t) : res (Row.t * string) :=
  match ModelEntity.view entity with
  | Ok element => Ok (extract_element_data str_of_float element storey_map, model_id)
  | Raise msg => Raise msg
  end.

(** [parse_ifc_file] from the opened model on, as the list of calls it makes
    to the store (every call is taken to succeed); [model_id] is the fresh
    uuid.  [None] when the spatial traversal runs out of fuel. *)
Definition parse_ifc_file
    (str_of_float : Q → string) (float_of_str : string → option Q) (fuel : nat)
    (model_id : string) (file : IfcFile.t) (model_name : option string)
    : option (list db_op) :=
  let model_name :=
    match model_name with
    | Some n => if PyStr.truthy n then n else IfcFile.stem file
    | None => IfcFile.stem file
    end in
  let model_row :=
    {| ModelRow.id := model_id;
       ModelRow.name := model_name;
       ModelRow.file_name := IfcFile.file_name file;
       ModelRow.file_size := IfcFile.file_size file;
       ModelRow.schema_version := IfcFile.schema file;
       ModelRow.parse_status := "parsing" |} in
  let storey_map := build_storey_map (IfcFile.containment file) in
  match build_spatial_tree float_of_str fuel (IfcFile.spatial file) with
  | None => None
  | Some spatial_nodes =>
      let tagged := map (fun node => (node, model_id)) spatial_nodes in
      let all_elements := select_elements (IfcFile.all_entities file) in
      let total := List.length all_elements in
      Some ([InsertModel model_row]
            ++ map InsertSpatial (chunks tagged)
            ++ map InsertElements
                 (insert_elements (extract_row str_of_float storey_map model_id) all_elements)
            ++ [UpdateModel model_id "done" total])
  end.

(** The rows of all element batches of a log, in order. *)
Definition element_rows (log : list db_op) : list (Row.t * string) :=
  flat_map (fun op => match op with InsertElements batch => batch | _ => [] end) log.

(** The nodes of all spatial batches of a log, in order. *)
Definition spatial_rows (log : list db_op) : list (Node.t * string) :=
  flat_map (fun op => match op with InsertSpatial batch => batch | _ => [] end) log.

(** ** Command line *)

(** [l.index(x)] when [x in l]. *)
Fixpoint index_of (x : string) (l : list string) : option nat :=
  match l with
  | [] => None
  | y :: l' => if String.eqb y x then Some O else option_map S (index_of x l')
  end.

(** The [__main__] block: the path and the model name handed to
    [parse_ifc_file], or the usage exit. *)
Definition parse_args (argv : list string) : res (string * option string) :=
  match argv with
  | _ :: ifc_path :: _ =>
      let model_name :=
        match index_of "--model-name" argv with
        | Some idx => argv !! (idx + 1)%nat
        | None => None
        end in
      Ok (ifc_path, model_name)
  | _ => Raise "Usage: python parse_ifc.py <path_to_ifc_file> [--model-name <name>]"
  end.

(** ** Vocabulary for the further properties *)

(** An ASCII capital letter. *)
Definition is_upper (c : ascii) : bool :=
  (Nat.leb 65 (nat_of_ascii c) && Nat.leb (nat_of_ascii c) 90)%bool.

(** One of the three separators [normalize_key] removes. *)
Definition is_separator (c : ascii) : bool :=
  (Ascii.eqb c " " || Ascii.eqb c "_" || Ascii.eqb c "-")%bool.

Fixpoint string_forall (p : ascii → bool) (s : string) : bool :=
  match s with
  | EmptyString => true
  | String c s' => p c && string_forall p s'
  end.

(** ** Names beyond ASCII *)

(** [str.lower()] is not a map over the characters: a capital sigma turns
    into the final sigma at the end of a word, so what [lower] makes of one
    character can depend on its neighbours.  This module takes a [str] as
    the list of its code points and gives [str.lower()] on the code points
    of ASCII and of the Greek alphabet (U+0391 to U+03A9, U+03B1 to U+03C9),
    after [do_lower], [lower_ucs4] and [handle_capital_sigma] of CPython's
    [unicodeobject.c]; other code points are left as they are and are not
    covered. *)
Module PyUnicode.

(** The capital letters among the code points covered: [A] to [Z], and
    U+0391 to U+03A9 but the unassigned U+03A2. *)
Definition is_upper (c : N) : bool :=
  ((65 <=? c) && (c <=? 90) || (913 <=? c) && (c <=? 937) && negb (c =? 930))%N.

(** The small letters: [a] to [z], and U+03B1 to U+03C9. *)
Definition is_lower (c : N) : bool :=
  ((97 <=? c) && (c <=? 122) || (945 <=? c) && (c <=? 969))%N.

Definition is_cased (c : N) : bool := is_upper c || is_lower c.

(** The code points this module covers. *)
Definition covered (c : N) : bool := (c <? 128)%N || is_cased c.

(** The case-ignorable ASCII characters: ['], [.], [:], [^] and the
    backquote. *)
Definition is_case_ignorable (c : N) : bool :=
  existsb (N.eqb c) [39; 46; 58; 94; 96]%N.

Definition to_lower (c : N) : N := if is_upper c then (c + 32)%N else c.

Fixpoint skip_case_ignorable (s : list N) : list N :=
  match s with
  | c :: s' => if is_case_ignorable c then skip_case_ignorable s' else s
  | [] => []
  end.

(** The first code point of [s] that is not case-ignorable is cased. *)
Definition cased_next (s : list N) : bool :=
  match skip_case_ignorable s with
  | c :: _ => is_cased c
  | [] => false
  end.

(** [handle_capital_sigma]: U+03C2 after a cased letter and not before one,
    U+03C3 otherwise; [before] holds the preceding code points, the nearest
    first. *)
Definition handle_capital_sigma (before after : list N) : N :=
  if cased_next before && negb (cased_next after) then 962%N else 963%N.

Fixpoint lower_from (before s : list N) : list N :=
  match s with
  | [] => []
  | c :: s' =>
      (if (c =? 931)%N then handle_capital_sigma before s' else to_lower c)
      :: lower_from (c :: before) s'
  end.

(** [s.lower()] *)
Definition lower (s : list N) : list N := lower_from [] s.

(** [s.replace(c, "")] for a one-character [c]. *)
Definition remove_char (c : N) (s : list N) : list N :=
  List.filter (fun d => negb (d =? c)%N) s.

(** [normalize_key] on code points. *)
Definition normalize_key (name : list N) : list N :=
  remove_char 45 (remove_char 95 (remove_char 32 (lower name))).

End PyUnicode.

(** The code points of a [string] whose characters are read as code points
    below 256. *)
Definition code_points (s : string) : list N :=
  map N_of_ascii (list_ascii_of_string s).

(** Every character of the name is an ASCII character. *)
Definition is_ascii (s : string) : bool :=
  string_forall (fun c => (N_of_ascii c <? 128)%N) s.

(** Insensitivity to separators as the specification words it, for every
    name: a space, underscore or hyphen put anywhere in it is not seen. *)
Definition separator_insensitive (normalize : list N → list N) : Prop :=
  ∀ a b sep, sep ∈ [32; 95; 45]%N → normalize (a ++ sep :: b) = normalize (a ++ b).

(** A dict of dicts with distinct set names and distinct keys in each set. *)
Definition well_formed_record_sets (sets : dict (dict json_value)) : bool :=
  distinct_keys sets && forallb (fun entry => distinct_keys (snd entry)) sets.

(** The number of related elements of the relations, all read without a
    failure. *)
Definition related_total (rels : list RelContained.t) : nat :=
  sum_list
    (map (fun rel =>
            match RelContained.RelatedElements rel with
            | Ok elements => List.length (default [] elements)
            | Raise _ => 0%nat
            end) rels).

(** An entry that cannot claim a numeric category: [None], a string,
    [False], or a number that is not strictly positive. *)
Definition inert (kv : string * json_value) : bool :=
  match snd kv with
  | JNone | JStr _ | JBool false => true
  | JBool true => false
  | JInt i => negb (float_pos (inject_Z i))
  | JFloat x => negb (float_pos x)
  end.

(** Two states of the scan with the same seven numeric accumulators. *)
Definition same_numeric (a a' : Acc.t) : Prop :=
  ∀ c, acc_field c a = acc_field c a'.

(** The node is the image of the store entity with its id; a node without
    parent is one of the projects. *)
Definition mirrors
    (float_of_str : string → option Q) (store : gmap Z Entity.t) (roots : list Z)
    (n : Node.t) : Prop :=
  ∃ entity,
    store !! Node.express_id n = Some entity ∧
    n = make_node float_of_str (Node.express_id n) entity (Node.parent_express_id n) ∧
    (Node.parent_express_id n = None → Node.express_id n ∈ roots).

(** What the cleaning loop guarantees of one set. *)
Definition clean_set (props : dict json_value) : Prop :=
  NoDup (dict_keys props) ∧ ("id" ∉ dict_keys props).

Definition reads_fine (rel : RelContained.t) : bool :=
  match RelContained.RelatedElements rel with Ok _ => true | Raise _ => false end.

(** ** A sample file *)

Module Demo.

(** A relation to ["Level 2"] whose second related element cannot be
    read. *)
Definition half_read : RelContained.t :=
  {| RelContained.RelatingStructure := Ok (Some (Sample.level "Level 2"));
     RelContained.RelatedElements := Ok (Some [Ok 9; Raise "id() failed"; Ok 10]) |}.


(** A wall with a layer-set usage of two layers, ["Concrete"] and [""]. *)
Definition layered_wall : Element.t :=
  {| Element.id := 105;
     Element.GlobalId := None;
     Element.Name := Some "Wall-05";
     Element.Description := None;
     Element.is_a := "IfcWall";
     Element.get_psets := Ok [];
     Element.get_qtos := Ok [];
     Element.get_material :=
       Ok (Some (Material.LayerSetUsage
                   (Some {| Material.MaterialLayers :=
                              [ {| Material.Material :=
                                     Some {| Material.Name := Some "Concrete" |} |};
                                {| Material.Material :=
                                     Some {| Material.Name := Some "" |} |} ] |})));
     Element.HasAssociations := Some [] |}.

Definition product (type : string) (view : res Element.t) : ModelEntity.t :=
  {| ModelEntity.is_a := type;
     ModelEntity.has_GlobalId := true;
     ModelEntity.has_Representation := true;
     ModelEntity.has_ObjectPlacement := true;
     ModelEntity.view := view |}.

(** The sample building with a wall, a storey seen by the entity loop, and
    a door whose extraction fails. *)
Definition file : IfcFile.t :=
  {| IfcFile.file_name := "tower.ifc";
     IfcFile.stem := "tower";
     IfcFile.file_size := 2048;
     IfcFile.schema := "IFC4";
     IfcFile.containment := [Sample.contains "Level 1" [101]];
     IfcFile.spatial := Sample.building;
     IfcFile.all_entities :=
       [product "IfcWall" (Ok Sample.wall);
        product "IfcBuildingStorey" (Ok Sample.door);
        product "IfcDoor" (Raise "id() failed")] |}.

End Demo.

(** * Properties *)

(** ** KeyMatcher *)

Section KeyMatcherFacts.

Local Ltac by_cases_on_char c :=
  destruct c as [[] [] [] [] [] [] [] []]; vm_compute; reflexivity.

Lemma string_app_cons x (a b : string) : String x a +:+ b = String x (a +:+ b).
Proof. reflexivity. Qed.

Lemma string_app_nil_l (b : string) : "" +:+ b = b.
Proof. reflexivity. Qed.

Lemma string_app_assoc (a b c : string) : (a +:+ b) +:+ c = a +:+ b +:+ c.
Proof.
  induction a as [|x a IH]; [reflexivity |].
  rewrite !string_app_cons. by rewrite IH.
Qed.

Lemma string_app_nil_r (a : string) : a +:+ "" = a.
Proof.
  induction a as [|x a IH]; [reflexivity |].
  rewrite string_app_cons. by rewrite IH.
Qed.

Lemma remove_char_app c a b :
  PyStr.remove_char c (a +:+ b) = PyStr.remove_char c a +:+ PyStr.remove_char c b.
Proof.
  induction a as [|x a IH]; [reflexivity |].
  rewrite string_app_cons; simpl.
  destruct (Ascii.eqb x c); rewrite ?string_app_cons; by rewrite IH.
Qed.

Lemma lower_app a b : PyStr.lower (a +:+ b) = PyStr.lower a +:+ PyStr.lower b.
Proof.
  induction a as [|x a IH]; [reflexivity |].
  rewrite string_app_cons; simpl. rewrite string_app_cons. by rewrite IH.
Qed.

Lemma normalize_key_app a b :
  normalize_key (a +:+ b) = normalize_key a +:+ normalize_key b.
Proof. unfold normalize_key. by rewrite lower_app, !remove_char_app. Qed.

Lemma normalize_key_cons c s :
  normalize_key (String c s) = norm_char c +:+ normalize_key s.
Proof. exact (normalize_key_app (String c EmptyString) s). Qed.

Lemma norm_char_idem c : normalize_key (norm_char c) = norm_char c.
Proof. by_cases_on_char c. Qed.

Lemma norm_char_upper c : norm_char (PyStr.upper_char c) = norm_char c.
Proof. by_cases_on_char c. Qed.

Lemma norm_char_lower c : norm_char (PyStr.lower_char c) = norm_char c.
Proof. by_cases_on_char c. Qed.

Lemma normalize_key_idem x : normalize_key (normalize_key x) = normalize_key x.
Proof.
  induction x as [|c x IH]; [reflexivity |].
  rewrite normalize_key_cons, normalize_key_app, norm_char_idem.
  by rewrite IH.
Qed.

Lemma normalize_key_upper x : normalize_key (PyStr.upper x) = normalize_key x.
Proof.
  induction x as [|c x IH]; [reflexivity |]; simpl.
  by rewrite !normalize_key_cons, norm_char_upper, IH.
Qed.

Lemma normalize_key_lower x : normalize_key (PyStr.lower x) = normalize_key x.
Proof.
  induction x as [|c x IH]; [reflexivity |]; simpl.
  by rewrite !normalize_key_cons, norm_char_lower, IH.
Qed.

Lemma starts_with_spec k s :
  PyStr.starts_with k s = true ↔ ∃ post, s = k +:+ post.
Proof.
  revert s; induction k as [|a k IH]; intros s; simpl.
  - split; [intros _; by exists s | done].
  - destruct s as [|b s].
    + split; [done | intros [post H]; discriminate].
    + rewrite andb_true_iff, Ascii.eqb_eq, IH. split.
      * intros [-> [post ->]]. by exists post.
      * intros [post H]. rewrite string_app_cons in H.
        injection H as -> ->. split; [done | by exists post].
Qed.

Lemma contains_spec k s :
  PyStr.contains k s = true ↔ PyStr.is_substring k s.
Proof.
  unfold PyStr.is_substring.
  induction s as [|c s IH]; simpl.
  - rewrite orb_false_r, starts_with_spec. split.
    + intros [post H]. by exists EmptyString, post.
    + intros [pre [post H]]. destruct pre; [by exists post | discriminate].
  - rewrite orb_true_iff, starts_with_spec, IH. split.
    + intros [[post H] | [pre [post H]]].
      * by exists EmptyString, post.
      * exists (String c pre), post. rewrite string_app_cons. by rewrite H.
    + intros [pre [post H]]. destruct pre as [|d pre].
      * left. by exists post.
      * right. rewrite string_app_cons in H. injection H as _ H.
        by exists pre, post.
Qed.

Lemma match_keys_spec name key_set :
  match_keys name key_set = true ↔
  ∃ k, k ∈ key_set ∧ PyStr.is_substring k (normalize_key name).
Proof.
  unfold match_keys. rewrite existsb_exists. split.
  - intros [k [Hin Hk]]. exists k. split; [by apply list_elem_of_In |].
    by apply contains_spec.
  - intros [k [Hin Hk]]. exists k. split; [by apply list_elem_of_In |].
    by apply contains_spec.
Qed.

End KeyMatcherFacts.

(** ** Names beyond ASCII *)

Section UnicodeFacts.

Lemma to_lower_not_upper c : PyUnicode.is_upper (PyUnicode.to_lower c) = false.
Proof.
  unfold PyUnicode.to_lower. destruct (PyUnicode.is_upper c) eqn:E; [| done].
  unfold PyUnicode.is_upper in *.
  apply orb_true_iff in E as [E | E].
  - apply andb_true_iff in E as [E1 E2]. apply N.leb_le in E1, E2.
    apply orb_false_iff. split; apply andb_false_iff.
    + right. apply N.leb_gt. lia.
    + left. apply andb_false_iff. left. apply N.leb_gt. lia.
  - apply andb_true_iff in E as [E _]. apply andb_true_iff in E as [E1 E2].
    apply N.leb_le in E1, E2.
    apply orb_false_iff. split; apply andb_false_iff.
    + right. apply N.leb_gt. lia.
    + left. apply andb_false_iff. right. apply N.leb_gt. lia.
Qed.

Lemma lower_from_not_upper before s :
  forallb (fun c => negb (PyUnicode.is_upper c)) (PyUnicode.lower_from before s) = true.
Proof.
  revert before. induction s as [|c s IH]; intros before; [done |]. simpl.
  rewrite IH, andb_true_r.
  destruct (c =? 931)%N.
  - unfold PyUnicode.handle_capital_sigma. by destruct (_ && _).
  - by rewrite to_lower_not_upper.
Qed.

Lemma lower_from_fixed before s :
  forallb (fun c => negb (PyUnicode.is_upper c)) s = true →
  PyUnicode.lower_from before s = s.
Proof.
  revert before. induction s as [|c s IH]; intros before H; [done |]. simpl in *.
  apply andb_true_iff in H as [Hc Hs]. apply negb_true_iff in Hc.
  rewrite IH by done. f_equal.
  destruct (N.eqb_spec c 931) as [-> | _]; [done |].
  unfold PyUnicode.to_lower. by rewrite Hc.
Qed.

Lemma remove_char_keeps (p : N → bool) d s :
  forallb p s = true → forallb p (PyUnicode.remove_char d s) = true.
Proof.
  induction s as [|c s IH]; [done |]. simpl. intros H.
  apply andb_true_iff in H as [Hc Hs].
  destruct (negb (c =? d)%N); simpl; rewrite ?Hc; by apply IH.
Qed.

Lemma remove_char_removes d s :
  forallb (fun c => negb (c =? d)%N) (PyUnicode.remove_char d s) = true.
Proof.
  induction s as [|c s IH]; [done |]. simpl.
  destruct (negb (c =? d)%N) eqn:E; simpl; rewrite ?E; exact IH.
Qed.

Lemma remove_char_fixed d s :
  forallb (fun c => negb (c =? d)%N) s = true → PyUnicode.remove_char d s = s.
Proof.
  induction s as [|c s IH]; [done |]. simpl. intros H.
  apply andb_true_iff in H as [Hc Hs]. rewrite Hc. f_equal. by apply IH.
Qed.

Lemma unicode_normalize_key_idem x :
  PyUnicode.normalize_key (PyUnicode.normalize_key x) = PyUnicode.normalize_key x.
Proof.
  unfold PyUnicode.normalize_key at 1.
  set (y := PyUnicode.normalize_key x).
  assert (Hlow : PyUnicode.lower y = y).
  { apply lower_from_fixed. unfold y, PyUnicode.normalize_key.
    do 3 apply remove_char_keeps. apply lower_from_not_upper. }
  rewrite Hlow.
  rewrite (remove_char_fixed 32 y).
  2:{ unfold y, PyUnicode.normalize_key. do 2 apply remove_char_keeps.
      apply remove_char_removes. }
  rewrite (remove_char_fixed 95 y).
  2:{ unfold y, PyUnicode.normalize_key. apply remove_char_keeps.
      apply remove_char_removes. }
  apply remove_char_fixed. apply remove_char_removes.
Qed.

Lemma to_lower_code_point c :
  PyUnicode.to_lower (N_of_ascii c) = N_of_ascii (PyStr.lower_char c).
Proof. destruct c as [[] [] [] [] [] [] [] []]; vm_compute; reflexivity. Qed.

Lemma code_point_not_sigma c : (N_of_ascii c =? 931)%N = false.
Proof. destruct c as [[] [] [] [] [] [] [] []]; vm_compute; reflexivity. Qed.

Lemma code_points_cons c s : code_points (String c s) = N_of_ascii c :: code_points s.
Proof. reflexivity. Qed.

Lemma lower_code_points before s :
  PyUnicode.lower_from before (code_points s) = code_points (PyStr.lower s).
Proof.
  revert before. induction s as [|c s IH]; intros before; [done |].
  simpl PyStr.lower. rewrite !code_points_cons. simpl.
  by rewrite code_point_not_sigma, to_lower_code_point, IH.
Qed.

Lemma code_point_eqb c d : (N_of_ascii c =? N_of_ascii d)%N = Ascii.eqb c d.
Proof.
  destruct (Ascii.eqb_spec c d) as [-> | Hne]; [apply N.eqb_refl |].
  apply N.eqb_neq. intros H. apply Hne.
  rewrite <- (ascii_N_embedding c), <- (ascii_N_embedding d). by rewrite H.
Qed.

Lemma remove_char_code_points d s :
  PyUnicode.remove_char (N_of_ascii d) (code_points s) = code_points (PyStr.remove_char d s).
Proof.
  induction s as [|c s IH]; [done |].
  rewrite code_points_cons. simpl. rewrite code_point_eqb.
  destruct (Ascii.eqb c d); simpl; [exact IH |].
  rewrite code_points_cons. f_equal. exact IH.
Qed.

Lemma normalize_key_code_points s :
  PyUnicode.normalize_key (code_points s) = code_points (normalize_key s).
Proof.
  unfold PyUnicode.normalize_key, normalize_key, PyUnicode.lower.
  rewrite lower_code_points.
  change 32%N with (N_of_ascii " "). change 95%N with (N_of_ascii "_").
  change 45%N with (N_of_ascii "-").
  by rewrite !remove_char_code_points.
Qed.

End UnicodeFacts.

(** C8, as the code has it.  [normalize_key] is idempotent, on ASCII names
    and on names with Greek letters alike.  On a name made of ASCII
    characters, where [str.lower()] is the character-wise fold of [A]..[Z],
    it does not see the case of any character nor a space, underscore or
    hyphen put anywhere in the name, so that ["Net Volume"], ["net_volume"]
    and ["NETVOLUME"] normalise alike.  [match_keys name key_set] is true
    exactly when some key of the set is a substring of
    [normalize_key name]. *)
Theorem normalize_key_idempotent_insensitive_and_match_keys_iff :
  (∀ x, normalize_key (normalize_key x) = normalize_key x) ∧
  (∀ x, forallb PyUnicode.covered x = true →
        PyUnicode.normalize_key (PyUnicode.normalize_key x) = PyUnicode.normalize_key x) ∧
  (∀ x, is_ascii x = true →
        PyUnicode.normalize_key (code_points x) = code_points (normalize_key x)) ∧
  (∀ x, is_ascii x = true →
        normalize_key (PyStr.upper x) = normalize_key x ∧
        normalize_key (PyStr.lower x) = normalize_key x) ∧
  (∀ a c b,
     is_ascii (a +:+ String c b) = true →
     normalize_key (a +:+ String (PyStr.upper_char c) b) = normalize_key (a +:+ String c b) ∧
     normalize_key (a +:+ String (PyStr.lower_char c) b) = normalize_key (a +:+ String c b)) ∧
  (∀ a b,
     is_ascii a = true → is_ascii b = true →
     normalize_key (a +:+ " " +:+ b) = normalize_key (a +:+ b) ∧
     normalize_key (a +:+ "_" +:+ b) = normalize_key (a +:+ b) ∧
     normalize_key (a +:+ "-" +:+ b) = normalize_key (a +:+ b)) ∧
  (normalize_key "Net Volume" = normalize_key "net_volume" ∧
   normalize_key "net_volume" = normalize_key "NETVOLUME") ∧
  (∀ name key_set,
     match_keys name key_set = true ↔
     ∃ k, k ∈ key_set ∧ PyStr.is_substring k (normalize_key name)).
Proof.
  split; [exact normalize_key_idem |].
  split; [intros x _; apply unicode_normalize_key_idem |].
  split; [intros x _; apply normalize_key_code_points |].
  split; [intros x _; split; [apply normalize_key_upper | apply normalize_key_lower] |].
  split.
  { intros a c b _.
    rewrite !normalize_key_app, !normalize_key_cons, norm_char_upper, norm_char_lower.
    done. }
  split.
  { intros a b _ _. rewrite !normalize_key_app. done. }
  split; [split; reflexivity |].
  exact match_keys_spec.
Qed.

(** The theorem at ["Net"] and ["Volume"], and at U+0391 U+03A3, a space,
    U+0392, whose normal form U+03B1 U+03C2 U+03B2 is its own. *)
Lemma normalize_key_idempotent_insensitive_and_match_keys_iff_witness :
  is_ascii "Net" = true ∧ is_ascii "Volume" = true ∧
  normalize_key ("Net" +:+ " " +:+ "Volume") = normalize_key ("Net" +:+ "Volume") ∧
  PyUnicode.normalize_key (code_points "Net Volume") = code_points "netvolume" ∧
  forallb PyUnicode.covered [913; 931; 32; 914]%N = true ∧
  PyUnicode.normalize_key [913; 931; 32; 914]%N = [945; 962; 946]%N ∧
  PyUnicode.normalize_key [945; 962; 946]%N = [945; 962; 946]%N.
Proof.
  destruct normalize_key_idempotent_insensitive_and_match_keys_iff
    as (_ & Hidem & Hagree & _ & _ & Hsep & _).
  split; [reflexivity |]. split; [reflexivity |].
  split; [exact (proj1 (Hsep "Net" "Volume" eq_refl eq_refl)) |].
  split; [exact (Hagree "Net Volume" eq_refl) |].
  split; [reflexivity |]. split; [reflexivity |].
  exact (Hidem [913; 931; 32; 914]%N eq_refl).
Defined.

(** C8 as the specification words it fails beyond ASCII: [normalize_key]
    gives U+03B1 U+03C2 U+03B2 for U+0391 U+03A3, a space, U+0392 (the
    sigma ends a word) and U+03B1 U+03C3 U+03B2 without the space. *)
Lemma separator_insensitive_fails_on_final_sigma :
  ¬ separator_insensitive PyUnicode.normalize_key.
Proof.
  intros H. specialize (H [913; 931]%N [914]%N 32%N).
  assert (Hsep : 32%N ∈ [32; 95; 45]%N) by (by left).
  specialize (H Hsep). vm_compute in H. discriminate H.
Qed.

(** ** Dicts *)

Section DictFacts.

Context {A B : Type}.

Lemma dict_set_fresh (k : string) (v : B) (d : dict B) :
  k ∉ dict_keys d → dict_set k v d = d ++ [(k, v)].
Proof.
  induction d as [|[k' v'] d IH]; intros Hk; [reflexivity |]. simpl.
  destruct (String.eqb_spec k' k) as [-> | Hne].
  - exfalso. apply Hk. simpl. by left.
  - rewrite IH; [done |]. intros Hin. apply Hk. simpl. by right.
Qed.

Lemma distinct_keys_spec (d : dict A) :
  distinct_keys d = true →
  match d with
  | [] => True
  | (k, _) :: d' => (k ∉ dict_keys d') ∧ distinct_keys d' = true
  end.
Proof.
  destruct d as [|[k v] d']; [done |]. simpl.
  intros H. apply andb_true_iff in H as [H1 H2]. split; [| done].
  intros Hin. apply negb_true_iff in H1.
  assert (existsb (String.eqb k) (dict_keys d') = true); [| congruence].
  apply existsb_exists. exists k. split; [by apply list_elem_of_In |].
  apply String.eqb_refl.
Qed.

(** A loop of [dict_set]s over distinct fresh keys appends, in order. *)
Lemma fold_dict_set (skip : string → bool) (g : A → B) (l : dict A) (acc : dict B) :
  distinct_keys l = true →
  (∀ k, k ∈ dict_keys l → k ∉ dict_keys acc) →
  fold_left
    (fun acc kv => if skip (fst kv) then acc else dict_set (fst kv) (g (snd kv)) acc)
    l acc =
  acc ++ map (fun kv => (fst kv, g (snd kv)))
             (List.filter (fun kv => negb (skip (fst kv))) l).
Proof.
  revert acc. induction l as [|[k v] l IH]; intros acc Hd Hfresh.
  - simpl. by rewrite app_nil_r.
  - apply distinct_keys_spec in Hd as [Hk Hd]. simpl.
    destruct (skip k) eqn:Hs; simpl.
    + apply IH; [done |]. intros k' Hk'. apply Hfresh. simpl. by right.
    + rewrite dict_set_fresh by (apply Hfresh; simpl; by left).
      rewrite IH; [by rewrite <- app_assoc | done |].
      intros k' Hk'. unfold dict_keys. rewrite map_app. simpl.
      intros Hin. apply elem_of_app in Hin as [Hin | Hin].
      * revert Hin. apply Hfresh. simpl. by right.
      * apply list_elem_of_singleton in Hin as ->. done.
Qed.

End DictFacts.

Lemma clean_entries_kept props :
  distinct_keys props = true → clean_entries props = kept_entries props.
Proof.
  intros Hd. unfold clean_entries, kept_entries.
  rewrite (fold_dict_set (fun k => String.eqb k "id") safe_value props [] Hd); [done |].
  intros k _ Hin. by apply not_elem_of_nil in Hin.
Qed.

Lemma clean_sets_kept all_psets :
  well_formed_sets all_psets = true →
  clean_sets all_psets = map (fun entry => (fst entry, kept_entries (snd entry))) all_psets.
Proof.
  unfold well_formed_sets, clean_sets. intros H.
  apply andb_true_iff in H as [Hd Hin].
  rewrite (fold_dict_set (fun _ => false) clean_entries all_psets [] Hd).
  - simpl. rewrite forallb_forall in Hin. clear Hd.
    induction all_psets as [|entry l IH]; [reflexivity |]. simpl.
    rewrite clean_entries_kept by (apply Hin; by left).
    f_equal. apply IH. intros x Hx. apply Hin. by right.
  - intros k _ Hk. by apply not_elem_of_nil in Hk.
Qed.

Lemma entries_of_map {A B : Type} (g : dict A → dict B) (sets : dict (dict A)) :
  flat_map snd (map (fun entry => (fst entry, g (snd entry))) sets) =
  flat_map (fun entry => g (snd entry)) sets.
Proof.
  induction sets as [|entry sets IH]; [done |]. simpl. by rewrite IH.
Qed.

(** With distinct keys, the cleaned sets hold the retrieved entries in
    order, less the ones keyed ["id"], each through [safe_value]. *)
Lemma entries_of_retrieve_sets r :
  well_formed_retrieval r = true →
  entries_of (retrieve_sets r) = cleaned (retrieved_entries r).
Proof.
  destruct r as [all_psets | msg]; [| done]. simpl. intros Hw.
  rewrite clean_sets_kept by done. unfold entries_of, cleaned.
  rewrite (entries_of_map kept_entries). unfold kept_entries.
  induction all_psets as [|[name props] sets IH]; [done |]. simpl.
  rewrite List.filter_app, map_app. f_equal. apply IH.
  unfold well_formed_sets in *. apply andb_true_iff in Hw as [Hd Hall].
  simpl in Hd, Hall. apply andb_true_iff in Hd as [_ Hd].
  apply andb_true_iff in Hall as [_ Hall]. by rewrite Hd, Hall.
Qed.

(** ** PropertyCollector *)

Section CollectorFacts.

Implicit Types (a : Acc.t) (c d : category) (kv : string * json_value).

Lemma category_eqb_eq c d : category_eqb c d = true ↔ c = d.
Proof. destruct c, d; simpl; split; congruence. Qed.

Lemma acc_set_same c fv a : acc_field c (set_field c fv a) = fv.
Proof. by destruct c. Qed.

Lemma acc_set_other c d fv a : c ≠ d → acc_field c (set_field d fv a) = acc_field c a.
Proof. by destruct c, d. Qed.

Lemma acc_set_concrete c s a : acc_field c (Acc.set_concrete_class s a) = acc_field c a.
Proof. by destruct c. Qed.

Lemma concrete_set_field c fv a :
  Acc.concrete_class (set_field c fv a) = Acc.concrete_class a.
Proof. by destruct c. Qed.

(** The [if]/[elif] chain picks the first category, in [precedence], that is
    still unclaimed and that the name matches. *)
Lemma claim_numeric_find k fv a :
  claim_numeric k fv a =
  match find (open_for k a) precedence with
  | Some c => set_field c fv a
  | None => a
  end.
Proof.
  unfold claim_numeric, precedence, open_for.
  cbn [find acc_field category_keys set_field].
  repeat match goal with
         | |- (if ?b then _ else _) = _ => destruct b; [reflexivity |]
         end.
  reflexivity.
Qed.

Lemma find_before (f : category → bool) c (l : list category) :
  c ∈ l → f c = true → (∀ d, d ∈ before_in c l → f d = false) →
  find f l = Some c.
Proof.
  induction l as [|x l IH]; intros Hin Hc Hb; [by apply not_elem_of_nil in Hin |].
  simpl in *. destruct (category_eqb x c) eqn:E.
  - apply category_eqb_eq in E as ->. by rewrite Hc.
  - rewrite (Hb x) by (by left). apply IH; [| done |].
    + apply elem_of_cons in Hin as [-> | Hin]; [| done].
      assert (category_eqb x x = true) by (by apply category_eqb_eq). congruence.
    + intros d Hd. apply Hb. by right.
Qed.

Lemma in_precedence c : c ∈ precedence.
Proof. unfold precedence. destruct c; set_solver. Qed.

Lemma claim_numeric_cases c k fv a :
  acc_field c (claim_numeric k fv a) = acc_field c a ∨
  (float_truthy (acc_field c a) = false ∧
   match_keys k (category_keys c) = true ∧
   acc_field c (claim_numeric k fv a) = fv).
Proof.
  rewrite claim_numeric_find.
  destruct (find (open_for k a) precedence) as [d|] eqn:F; [| by left].
  apply find_some in F as [_ F]. unfold open_for in F.
  apply andb_true_iff in F as [F1 F2]. apply negb_true_iff in F1.
  destruct (decide (c = d)) as [-> | Hne].
  - right. by rewrite acc_set_same.
  - left. by apply acc_set_other.
Qed.

Lemma find_in_before (f : category → bool) c d (l : list category) :
  d ∈ before_in c l → f d = true → ∃ d', find f l = Some d' ∧ d' ≠ c.
Proof.
  induction l as [|x l IH]; intros Hin Hd; [by apply not_elem_of_nil in Hin |].
  simpl in *. destruct (category_eqb x c) eqn:E; [by apply not_elem_of_nil in Hin |].
  assert (Hne : x ≠ c).
  { intros ->. assert (category_eqb c c = true) by (by apply category_eqb_eq). congruence. }
  destruct (f x) eqn:Hx; [by exists x |].
  apply elem_of_cons in Hin as [-> | Hin]; [congruence | by apply IH].
Qed.

(** The entry takes [c] when [c] is unclaimed and matched and no category
    before [c] is open for it. *)
Lemma claim_numeric_take c k fv a :
  float_truthy (acc_field c a) = false →
  match_keys k (category_keys c) = true →
  (∀ d, d ∈ earlier c → open_for k a d = false) →
  acc_field c (claim_numeric k fv a) = fv.
Proof.
  intros Hf Hm He. rewrite claim_numeric_find.
  rewrite (find_before (open_for k a) c precedence).
  - apply acc_set_same.
  - apply in_precedence.
  - unfold open_for. by rewrite Hf, Hm.
  - exact He.
Qed.

(** The entry goes to a category before [c] when one is open for it. *)
Lemma claim_numeric_consumed c d k fv a :
  d ∈ earlier c → open_for k a d = true →
  acc_field c (claim_numeric k fv a) = acc_field c a.
Proof.
  intros Hd Ho. rewrite claim_numeric_find.
  destruct (find_in_before (open_for k a) c d precedence Hd Ho) as (d' & -> & Hne).
  by apply acc_set_other.
Qed.

Lemma float_pos_truthy x : float_pos x = true → float_truthy x = true.
Proof.
  unfold float_pos, float_truthy. intros Hp.
  apply negb_true_iff. destruct (Qeq_bool x 0) eqn:E; [| done].
  apply Qeq_bool_iff in E. unfold Qeq in E. simpl in E.
  apply Z.ltb_lt in Hp. lia.
Qed.

(** What one entry does to the field of [c]. *)
Lemma scan_entry_field c a kv :
  acc_field c (scan_entry a kv) =
  match numeric_value (snd kv) with
  | Some fv => if float_pos fv then acc_field c (claim_numeric (fst kv) fv a)
               else acc_field c a
  | None => acc_field c a
  end.
Proof.
  destruct kv as [k v]. unfold scan_entry.
  destruct v as [| b | i | x | s]; simpl; try reflexivity;
    try (destruct (float_pos _); reflexivity).
  destruct (negb _ && _); [apply acc_set_concrete | reflexivity].
Qed.

Lemma scan_entry_cases c a kv :
  acc_field c (scan_entry a kv) = acc_field c a ∨
  (float_truthy (acc_field c a) = false ∧
   coerced_qualifies c kv = true ∧
   numeric_value (snd kv) = Some (acc_field c (scan_entry a kv))).
Proof.
  rewrite scan_entry_field. unfold coerced_qualifies.
  destruct (numeric_value (snd kv)) as [fv|]; [| by left].
  destruct (float_pos fv) eqn:Hp; [| by left].
  destruct (claim_numeric_cases c (fst kv) fv a) as [H | (H1 & H2 & H3)]; [by left |].
  right. rewrite H2, H3. done.
Qed.

Lemma scan_entry_keep c a kv :
  float_truthy (acc_field c a) = true → acc_field c (scan_entry a kv) = acc_field c a.
Proof.
  intros Ht. destruct (scan_entry_cases c a kv) as [H | (H & _)]; [done | congruence].
Qed.

Lemma scan_entry_skip c a kv :
  coerced_qualifies c kv = false → acc_field c (scan_entry a kv) = acc_field c a.
Proof.
  intros Hq. destruct (scan_entry_cases c a kv) as [H | (_ & H & _)]; [done | congruence].
Qed.

Lemma scan_entry_take c a kv fv :
  float_truthy (acc_field c a) = false →
  numeric_value (snd kv) = Some fv →
  coerced_qualifies c kv = true →
  (∀ d, d ∈ earlier c → open_for (fst kv) a d = false) →
  acc_field c (scan_entry a kv) = fv.
Proof.
  intros Hf Hn Hq He. rewrite scan_entry_field, Hn.
  unfold coerced_qualifies in Hq. rewrite Hn in Hq.
  apply andb_true_iff in Hq as [Hp Hm]. rewrite Hp.
  by apply claim_numeric_take.
Qed.

Lemma scan_cons kv entries a : scan (kv :: entries) a = scan entries (scan_entry a kv).
Proof. reflexivity. Qed.

Lemma scan_app pre post a : scan (pre ++ post) a = scan post (scan pre a).
Proof. apply fold_left_app. Qed.

Lemma scan_source_entries source a : scan_source a source = scan (entries_of source) a.
Proof.
  unfold scan_source, entries_of. revert a.
  induction source as [|entry source IH]; intros a; [reflexivity |].
  simpl. rewrite scan_app. apply IH.
Qed.

Lemma collect_scan psets qsets :
  collect psets qsets = scan (scan_order psets qsets) Acc.init.
Proof.
  unfold collect, scan_order. simpl.
  by rewrite scan_app, !scan_source_entries.
Qed.

(** Once claimed, never changed. *)
Lemma scan_keep c entries a :
  float_truthy (acc_field c a) = true → acc_field c (scan entries a) = acc_field c a.
Proof.
  revert a. induction entries as [|kv entries IH]; intros a Ht; [reflexivity |].
  rewrite scan_cons, IH; rewrite scan_entry_keep; done.
Qed.

Lemma scan_skip c entries a :
  (∀ kv, kv ∈ entries → coerced_qualifies c kv = false) →
  acc_field c (scan entries a) = acc_field c a.
Proof.
  revert a. induction entries as [|kv entries IH]; intros a Hq; [reflexivity |].
  rewrite scan_cons, IH by (intros x Hx; apply Hq; by right).
  apply scan_entry_skip, Hq. by left.
Qed.

Lemma scan_origin c entries a :
  acc_field c (scan entries a) = acc_field c a ∨
  ∃ kv, kv ∈ entries ∧ coerced_qualifies c kv = true ∧
        numeric_value (snd kv) = Some (acc_field c (scan entries a)).
Proof.
  revert a. induction entries as [|kv entries IH]; intros a; [by left |].
  rewrite scan_cons.
  destruct (IH (scan_entry a kv)) as [H | (x & Hx & Hq & Hv)].
  - rewrite H. destruct (scan_entry_cases c a kv) as [H' | (_ & Hq & Hv)]; [by left |].
    right. exists kv. split; [by left | done].
  - right. exists x. split; [by right | done].
Qed.

Lemma scan_first c pre kv post a fv :
  (∀ x, x ∈ pre → coerced_qualifies c x = false) →
  coerced_qualifies c kv = true →
  numeric_value (snd kv) = Some fv →
  (∀ d, d ∈ earlier c → open_for (fst kv) (scan pre a) d = false) →
  float_truthy (acc_field c a) = false →
  acc_field c (scan (pre ++ kv :: post) a) = fv.
Proof.
  intros Hpre Hq Hn He Hf.
  rewrite scan_app, scan_cons.
  assert (Hs : acc_field c (scan pre a) = acc_field c a) by by apply scan_skip.
  assert (Ht : acc_field c (scan_entry (scan pre a) kv) = fv).
  { apply scan_entry_take; [by rewrite Hs | done..]. }
  rewrite scan_keep; [done |].
  rewrite Ht. apply float_pos_truthy.
  unfold coerced_qualifies in Hq. rewrite Hn in Hq.
  by apply andb_true_iff in Hq as [Hq _].
Qed.

Lemma unclaimed_zero_init : unclaimed_zero Acc.init.
Proof. intros c _. by destruct c. Qed.

Lemma unclaimed_zero_step a kv : unclaimed_zero a → unclaimed_zero (scan_entry a kv).
Proof.
  intros Ha c Hf.
  destruct (scan_entry_cases c a kv) as [H | (H1 & H2 & H3)].
  - rewrite H in *. by apply Ha.
  - exfalso. unfold coerced_qualifies in H2. rewrite H3 in H2.
    apply andb_true_iff in H2 as [H2 _]. apply float_pos_truthy in H2. congruence.
Qed.

Lemma unclaimed_zero_scan entries a : unclaimed_zero a → unclaimed_zero (scan entries a).
Proof.
  revert a. induction entries as [|kv entries IH]; intros a Ha; [done |].
  rewrite scan_cons. by apply IH, unclaimed_zero_step.
Qed.

(** Where no [True] sits under a numeric name, the collector's coercion
    and the specification's notion of a number pick the same entries. *)
Lemma qualifies_agree entries kv c :
  no_true_under_numeric_name entries → kv ∈ entries →
  coerced_qualifies c kv = qualifies c kv ∧
  (qualifies c kv = true → numeric_value (snd kv) = number_of (snd kv)).
Proof.
  intros Hnb Hin. destruct kv as [k v]. unfold coerced_qualifies, qualifies.
  destruct v as [| [] | i | x | s]; simpl; try done.
  by rewrite (Hnb k c Hin).
Qed.

Lemma find_agree (f g : string * json_value → bool) entries :
  (∀ kv, kv ∈ entries → f kv = g kv) → find f entries = find g entries.
Proof.
  induction entries as [|kv entries IH]; intros H; [reflexivity |].
  simpl. rewrite <- (H kv) by (by left).
  destruct (f kv); [done |]. apply IH. intros x Hx. apply H. by right.
Qed.

Lemma find_split (f : string * json_value → bool) entries kv :
  find f entries = Some kv →
  ∃ pre post, entries = pre ++ kv :: post ∧ f kv = true ∧ ∀ x, x ∈ pre → f x = false.
Proof.
  induction entries as [|y entries IH]; [done |]. simpl.
  destruct (f y) eqn:E.
  - intros [= ->]. exists [], entries. split; [done |]. split; [done |].
    intros x Hx. by apply not_elem_of_nil in Hx.
  - intros H. destruct (IH H) as (pre & post & -> & Hk & Hpre).
    exists (y :: pre), post. split; [done |]. split; [done |].
    intros x Hx. apply elem_of_cons in Hx as [-> | Hx]; [done | by apply Hpre].
Qed.

Lemma find_none (f : string * json_value → bool) entries :
  find f entries = None → ∀ x, x ∈ entries → f x = false.
Proof.
  intros H x Hx. apply list_elem_of_In in Hx.
  by apply (find_none f entries H).
Qed.

End CollectorFacts.

Lemma true_free_spec entries :
  true_free entries = true → no_true_under_numeric_name entries.
Proof.
  unfold true_free. intros H k c Hin.
  rewrite forallb_forall in H. apply list_elem_of_In in Hin.
  specialize (H _ Hin). cbn [fst snd] in H. rewrite forallb_forall in H.
  apply negb_true_iff, H, list_elem_of_In, in_precedence.
Qed.

Lemma row_field_round (f : Q → string) element storey_map c :
  let r := extract_element_data f element storey_map in
  row_field c r =
  round6 (acc_field c (scan (scan_order (Row.property_sets r) (Row.quantity_sets r)) Acc.init)).
Proof.
  intros r. rewrite <- collect_scan. by destruct c.
Qed.

Lemma forallb_false {A : Type} (p : A → bool) (l : list A) :
  forallb p l = false → ∃ x, x ∈ l ∧ p x = false.
Proof.
  induction l as [|x l IH]; [done |]. simpl.
  destruct (p x) eqn:E.
  - intros H. destruct (IH H) as (y & Hy & Hp). exists y. split; [by right | done].
  - intros _. exists x. split; [by left | done].
Qed.

Lemma reaches_true c a kv :
  reaches c a kv = true →
  qualifies c kv = true ∧ ∀ d, d ∈ earlier c → open_for (fst kv) a d = false.
Proof.
  unfold reaches. intros H. apply andb_true_iff in H as [Hq Hall].
  split; [done |]. intros d Hd. rewrite forallb_forall in Hall.
  apply list_elem_of_In in Hd. specialize (Hall d Hd). unfold open_for.
  destruct (match_keys (fst kv) (category_keys d)); [| by rewrite andb_false_r].
  simpl in Hall. by rewrite Hall.
Qed.

Lemma reaches_false c a kv :
  reaches c a kv = false →
  qualifies c kv = false ∨ ∃ d, d ∈ earlier c ∧ open_for (fst kv) a d = true.
Proof.
  unfold reaches. intros H. apply andb_false_iff in H as [Hq | Hall]; [by left |].
  right. apply forallb_false in Hall as (d & Hd & Hp). exists d. split; [done |].
  apply orb_false_iff in Hp as [Hm Ht]. apply negb_false_iff in Hm.
  unfold open_for. by rewrite Hm, Ht.
Qed.

(** An entry that does not reach the branch of [c] leaves [c] alone. *)
Lemma scan_entry_unreached c a kv :
  coerced_qualifies c kv = qualifies c kv →
  reaches c a kv = false →
  acc_field c (scan_entry a kv) = acc_field c a.
Proof.
  intros Hagree Hr. apply reaches_false in Hr as [Hq | (d & Hd & Ho)].
  - apply scan_entry_skip. by rewrite Hagree.
  - rewrite scan_entry_field.
    destruct (numeric_value (snd kv)) as [fv|]; [| done].
    destruct (float_pos fv); [| done].
    by apply (claim_numeric_consumed c d).
Qed.

(** As long as no entry reaches the branch of [c], [c] is unclaimed. *)
Lemma scan_unreached c (l : list (string * json_value)) :
  (∀ kv, kv ∈ l → coerced_qualifies c kv = qualifies c kv) →
  (∀ pre x post, l = pre ++ x :: post → reaches c (scan pre Acc.init) x = false) →
  acc_field c (scan l Acc.init) = 0%Q.
Proof.
  induction l as [|x l IH] using rev_ind; intros Hagree Hnone; [by destruct c |].
  rewrite scan_app, scan_cons. simpl scan.
  rewrite scan_entry_unreached.
  - apply IH.
    + intros kv Hin. apply Hagree, elem_of_app. by left.
    + intros pre y post ->. apply (Hnone pre y (post ++ [x])).
      by rewrite <- app_assoc.
  - apply Hagree, elem_of_app. right. by left.
  - apply (Hnone l x []). done.
Qed.

(** The first entry that reaches the branch of [c] gives it its value, for
    good. *)
Lemma scan_first_reached c (pre post : list (string * json_value)) kv :
  (∀ x, x ∈ pre ++ [kv] → coerced_qualifies c x = qualifies c x ∧
        (qualifies c x = true → numeric_value (snd x) = number_of (snd x))) →
  reaches c (scan pre Acc.init) kv = true →
  (∀ pre1 x post1, pre = pre1 ++ x :: post1 → reaches c (scan pre1 Acc.init) x = false) →
  number_of (snd kv) = Some (acc_field c (scan (pre ++ kv :: post) Acc.init)).
Proof.
  intros Hagree Hr Hnone. apply reaches_true in Hr as [Hq He].
  assert (Hkv : kv ∈ pre ++ [kv]) by (apply elem_of_app; right; by left).
  destruct (Hagree kv Hkv) as [E1 E2]. specialize (E2 Hq).
  assert (Hzero : acc_field c (scan pre Acc.init) = 0%Q).
  { apply scan_unreached; [| done].
    intros x Hx. apply Hagree, elem_of_app. by left. }
  unfold qualifies in Hq.
  destruct (number_of (snd kv)) as [fv|] eqn:Hn; [| done].
  apply andb_true_iff in Hq as [Hp Hm].
  assert (Ht : acc_field c (scan_entry (scan pre Acc.init) kv) = fv).
  { apply scan_entry_take; [by rewrite Hzero | done | | done].
    unfold coerced_qualifies. by rewrite E2, Hp, Hm. }
  rewrite scan_app, scan_cons, scan_keep; [by rewrite Ht |].
  rewrite Ht. by apply float_pos_truthy.
Qed.

(** C1, as the code has it.  The entries are scanned in a fixed order: those
    of the sets of the first retrieval ([get_psets(element)], whatever sets
    the library returns for it), then those of the second
    ([qtos_only=True]), each set in order and each entry in order, without
    the entries keyed ["id"].  For an element that carries no [True] under a
    name of a numeric category, each of the seven numeric fields is the
    6-decimal rounding of an accumulator that is 0.0 or the positive number
    of an entry whose name matches the category, and 0.0 when no entry
    qualifies.  At every point of the scan the accumulator is the number of
    the first entry that reached the branch of the category (it qualifies,
    and every category before this one in the precedence order is not
    matched by its name or is already claimed when the entry is met), and
    0.0 when no entry has reached it: an entry that a category before this
    one takes is passed over, and a later entry can still claim this one.
    Once the accumulator is claimed by a prefix of the scan, the rest of the
    scan leaves it as it is. *)
Theorem numeric_field_first_unconsumed_match
    (f : Q → string) element storey_map c :
  let r := extract_element_data f element storey_map in
  let entries := scan_order (Row.property_sets r) (Row.quantity_sets r) in
  true_free entries = true →
  ∃ acc,
    row_field c r = round6 acc ∧
    (acc = 0%Q ∨
     ∃ kv, kv ∈ entries ∧ qualifies c kv = true ∧ number_of (snd kv) = Some acc) ∧
    (find (qualifies c) entries = None → acc = 0%Q) ∧
    (∀ pre kv post,
       entries = pre ++ kv :: post →
       find (qualifies c) entries = Some kv →
       (∀ x, x ∈ pre → qualifies c x = false) →
       ((∀ d, d ∈ earlier c →
              match_keys (fst kv) (category_keys d) = false ∨
              acc_field d (scan pre Acc.init) ≠ 0%Q) →
        number_of (snd kv) = Some acc) ∧
       ((∃ d, d ∈ earlier c ∧
              match_keys (fst kv) (category_keys d) = true ∧
              acc_field d (scan pre Acc.init) = 0%Q) →
        acc_field c (scan (pre ++ [kv]) Acc.init) = 0%Q)) ∧
    (∀ pre post, entries = pre ++ post →
       acc_field c (scan pre Acc.init) ≠ 0%Q →
       acc = acc_field c (scan pre Acc.init)) ∧
    acc = acc_field c (scan entries Acc.init) ∧
    (∀ met rest, entries = met ++ rest →
       (∀ pre kv post,
          met = pre ++ kv :: post →
          reaches c (scan pre Acc.init) kv = true →
          (∀ pre1 x post1,
             pre = pre1 ++ x :: post1 → reaches c (scan pre1 Acc.init) x = false) →
          number_of (snd kv) = Some (acc_field c (scan met Acc.init))) ∧
       ((∀ pre x post,
           met = pre ++ x :: post → reaches c (scan pre Acc.init) x = false) →
        acc_field c (scan met Acc.init) = 0%Q)) ∧
    entries =
      entries_of (retrieve_sets (Element.get_psets element)) ++
      entries_of (retrieve_sets (Element.get_qtos element)) ∧
    (well_formed_retrieval (Element.get_psets element) = true →
     well_formed_retrieval (Element.get_qtos element) = true →
     entries =
       cleaned (retrieved_entries (Element.get_psets element)) ++
       cleaned (retrieved_entries (Element.get_qtos element))).
Proof.
  intros r entries Hfree. apply true_free_spec in Hfree.
  exists (acc_field c (scan entries Acc.init)).
  assert (Hinit : acc_field c Acc.init = 0%Q) by (by destruct c).
  assert (Hagree : ∀ kv, kv ∈ entries → coerced_qualifies c kv = qualifies c kv).
  { intros kv Hin. by apply (qualifies_agree entries). }
  assert (Hzero : ∀ pre, unclaimed_zero (scan pre Acc.init)).
  { intros pre. apply unclaimed_zero_scan, unclaimed_zero_init. }
  split; [apply row_field_round |].
  split; [| split; [| split; [| split; [| split; [done |]]]]].
  - destruct (scan_origin c entries Acc.init) as [H | (kv & Hin & Hq & Hv)].
    + left. congruence.
    + right. exists kv. destruct (qualifies_agree entries kv c Hfree Hin) as [E1 E2].
      rewrite E1 in Hq. split; [done |]. split; [done |]. by rewrite <- E2.
  - intros Hnone. rewrite scan_skip; [done |].
    intros kv Hin. rewrite Hagree by done. by apply (find_none _ entries).
  - intros pre kv post Hsplit Hfind Hpre.
    assert (Hq : qualifies c kv = true).
    { apply find_some in Hfind. by destruct Hfind. }
    assert (Hin : kv ∈ entries).
    { rewrite Hsplit. apply elem_of_app. right. by left. }
    destruct (qualifies_agree entries kv c Hfree Hin) as [E1 E2].
    assert (Hn : ∃ fv, numeric_value (snd kv) = Some fv).
    { rewrite (E2 Hq). unfold qualifies in Hq.
      destruct (number_of (snd kv)) as [fv|]; [by exists fv | done]. }
    destruct Hn as [fv Hn].
    assert (Hpre' : ∀ x, x ∈ pre → coerced_qualifies c x = false).
    { intros x Hx. rewrite Hagree; [by apply Hpre |].
      rewrite Hsplit. apply elem_of_app. by left. }
    assert (Hskip : acc_field c (scan pre Acc.init) = 0%Q).
    { by rewrite scan_skip. }
    split.
    + intros Hearlier.
      rewrite <- (E2 Hq), Hn. f_equal. symmetry. rewrite Hsplit.
      apply scan_first; try done.
      * by rewrite E1.
      * intros d Hd. unfold open_for.
        destruct (Hearlier d Hd) as [Hm | Hne]; [by rewrite Hm, andb_false_r |].
        destruct (float_truthy (acc_field d (scan pre Acc.init))) eqn:E; [done |].
        exfalso. apply Hne. by apply Hzero.
      * by rewrite Hinit.
    + intros (d & Hd & Hm & Hz).
      rewrite scan_app, scan_cons. simpl scan.
      rewrite scan_entry_field, Hn.
      destruct (float_pos fv); [| done].
      rewrite (claim_numeric_consumed c d); [done.. |].
      unfold open_for. by rewrite Hz, Hm.
  - intros pre post Hsplit Hne. rewrite Hsplit, scan_app.
    apply scan_keep.
    destruct (float_truthy (acc_field c (scan pre Acc.init))) eqn:E; [done |].
    exfalso. apply Hne. by apply Hzero.
  - split; [| split; [done |]].
    + intros met rest Hsplit.
      assert (Hmet : ∀ x, x ∈ met → x ∈ entries).
      { intros x Hx. rewrite Hsplit. apply elem_of_app. by left. }
      split.
      * intros pre kv post -> Hr Hnone. apply scan_first_reached; [| done..].
        intros x Hx. apply (qualifies_agree entries); [done |].
        apply Hmet. apply elem_of_app in Hx as [Hx | Hx].
        -- apply elem_of_app. by left.
        -- apply list_elem_of_singleton in Hx as ->. apply elem_of_app. right. by left.
      * intros Hnone. apply scan_unreached; [| done].
        intros kv Hin. by apply Hagree, Hmet.
    + intros Hp Hq. unfold entries, r.
      cbn [extract_element_data Row.property_sets Row.quantity_sets]. unfold scan_order.
      by rewrite !entries_of_retrieve_sets.
Qed.

(** The theorem at the sample slab: ["Volume per Area" = 2.5] is taken by
    the volume branch, so the first entry to reach the area branch is
    ["Area" = 7.0], and the area field is 7.0. *)
Lemma numeric_field_first_unconsumed_match_witness :
  true_free
    (scan_order
       (Row.property_sets (extract_element_data Sample.str_of_float Sample.slab ∅))
       (Row.quantity_sets (extract_element_data Sample.str_of_float Sample.slab ∅))) = true ∧
  Row.area (extract_element_data Sample.str_of_float Sample.slab ∅) = round6 (7 # 1).
Proof.
  split; [reflexivity |].
  destruct (numeric_field_first_unconsumed_match
              Sample.str_of_float Sample.slab ∅ Area eq_refl)
    as (acc & Hrow & _ & _ & _ & _ & Hacc & Hscan & _).
  destruct (Hscan [("Volume per Area", JFloat (5 # 2)); ("Area", JFloat (7 # 1))] []
              eq_refl) as [Hfirst _].
  specialize (Hfirst [("Volume per Area", JFloat (5 # 2))] ("Area", JFloat (7 # 1)) []
                eq_refl eq_refl).
  transitivity (round6 acc); [exact Hrow |]. rewrite Hacc.
  apply (f_equal round6). symmetry.
  assert (Hv : Some (7 # 1)%Q = Some (acc_field Area
                 (scan [("Volume per Area", JFloat (5 # 2)); ("Area", JFloat (7 # 1))]
                    Acc.init))).
  { apply Hfirst. intros pre1 x post1 H.
    destruct pre1 as [|y [|z pre1]]; [| discriminate H..].
    injection H as <- _. reflexivity. }
  exact (inj Some _ _ Hv).
Defined.

(** C1 as the specification words it fails on the sample slab: the first
    positive entry matching the area keys is ["Volume per Area" = 2.5], which
    the volume branch takes, and the area field is the later [7.0]. *)
Lemma first_match_claim_fails_on_slab :
  ¬ first_match_claim Area (extract_element_data Sample.str_of_float Sample.slab ∅).
Proof.
  intros [H | (kv & Hfind & Hv)].
  - vm_compute in H. discriminate H.
  - vm_compute in Hfind. injection Hfind as <-. vm_compute in Hv. discriminate Hv.
Qed.

(** Strings, and the entity references and other objects that [safe_value]
    turns into strings, leave every numeric accumulator alone. *)
Lemma string_or_reference_never_claims a k v c :
  (∃ s, v = IStr s ∨ v = IEntity s ∨ v = IOther s) →
  acc_field c (scan_entry a (k, safe_value v)) = acc_field c a.
Proof.
  intros (s & [-> | [-> | ->]]); by rewrite scan_entry_field.
Qed.

(** C3 at the sample door: the entry ["Has Height Limit" = True] passes the
    [isinstance(v, (int, float))] test and claims height with [1.0]. *)
Theorem true_claims_numeric_category (f : Q → string) (storey_map : gmap Z string) :
  retrieved_scan_order Sample.door = [("Has Height Limit", IBool true)] ∧
  match_keys "Has Height Limit" HEIGHT_KEYS = true ∧
  Row.height (extract_element_data f Sample.door storey_map) = 1%Q.
Proof. split; [reflexivity |]. split; reflexivity. Qed.

(** ** Concrete class *)

Section ConcreteFacts.

Lemma truthy_false s : PyStr.truthy s = false → s = EmptyString.
Proof. by destruct s. Qed.

Lemma claim_numeric_concrete k fv a :
  Acc.concrete_class (claim_numeric k fv a) = Acc.concrete_class a.
Proof.
  rewrite claim_numeric_find.
  destruct (find _ _); [apply concrete_set_field | reflexivity].
Qed.

(** What one entry does to [concrete_class]: nothing once it is non-empty;
    otherwise a candidate gives its string. *)
Lemma scan_entry_concrete a kv :
  Acc.concrete_class (scan_entry a kv) =
  if PyStr.truthy (Acc.concrete_class a) then Acc.concrete_class a
  else if concrete_candidate kv then string_of (snd kv)
  else Acc.concrete_class a.
Proof.
  destruct kv as [k v]. unfold scan_entry, concrete_candidate.
  destruct v as [| b | i | x | s]; cbn [snd fst numeric_value claim_concrete string_of].
  - by destruct (PyStr.truthy _).
  - destruct (float_pos _); rewrite ?claim_numeric_concrete; by destruct (PyStr.truthy _).
  - destruct (float_pos _); rewrite ?claim_numeric_concrete; by destruct (PyStr.truthy _).
  - destruct (float_pos _); rewrite ?claim_numeric_concrete; by destruct (PyStr.truthy _).
  - destruct (PyStr.truthy (Acc.concrete_class a)) eqn:Ht; [reflexivity |].
    cbn [negb andb].
    destruct (match_keys k CONCRETE_KEYS); cbn [andb].
    + destruct (PyStr.truthy s) eqn:Hs; [reflexivity |].
      apply truthy_false in Hs, Ht. simpl. congruence.
    + by rewrite andb_false_r.
Qed.

Lemma scan_concrete entries a :
  Acc.concrete_class (scan entries a) =
  if PyStr.truthy (Acc.concrete_class a) then Acc.concrete_class a
  else match find concrete_candidate entries with
       | Some kv => string_of (snd kv)
       | None => Acc.concrete_class a
       end.
Proof.
  revert a. induction entries as [|kv entries IH]; intros a.
  - simpl. by destruct (PyStr.truthy _).
  - rewrite scan_cons, IH, scan_entry_concrete. simpl.
    destruct (PyStr.truthy (Acc.concrete_class a)) eqn:Ht; [by rewrite Ht |].
    destruct (concrete_candidate kv) eqn:Hc.
    + unfold concrete_candidate in Hc. destruct (snd kv); try done.
      apply andb_true_iff in Hc as [Hc _]. simpl. by rewrite Hc.
    + by rewrite Ht.
Qed.

End ConcreteFacts.

(** C10, as the code has it.  The concrete-class field is the string of the
    first entry, in the scan order of the record's property sets and then
    quantity sets, whose cleaned value is a non-empty string and whose name
    matches the concrete-class keys, and the empty string when there is
    none; an empty string under a matching name leaves the field empty and
    claimable; and what an entry does to the field depends on the field
    alone, not on the numeric accumulators. *)
Theorem concrete_class_first_nonempty_string (f : Q → string) element storey_map :
  let r := extract_element_data f element storey_map in
  Row.concrete_class r =
    match find concrete_candidate
            (scan_order (Row.property_sets r) (Row.quantity_sets r)) with
    | Some kv => string_of (snd kv)
    | None => EmptyString
    end ∧
  (∀ a k, Acc.concrete_class a = EmptyString →
          Acc.concrete_class (scan_entry a (k, JStr EmptyString)) = EmptyString) ∧
  (∀ a a' kv, Acc.concrete_class a = Acc.concrete_class a' →
              Acc.concrete_class (scan_entry a kv) = Acc.concrete_class (scan_entry a' kv)).
Proof.
  intros r. split; [| split].
  - change (Row.concrete_class r)
      with (Acc.concrete_class (collect (Row.property_sets r) (Row.quantity_sets r))).
    rewrite collect_scan, scan_concrete. reflexivity.
  - intros a k Ha. rewrite scan_entry_concrete, Ha. reflexivity.
  - intros a a' kv Ha. rewrite !scan_entry_concrete, Ha. reflexivity.
Qed.

(** C10 as the specification words it fails on the sample beam: the first
    retrieved entry whose raw value is a non-empty string is
    ["StrengthClass" = "C30/37"], but the entity reference under
    ["ConcreteGrade"] has been turned into a string by [safe_value] and
    claims the field first. *)
Lemma first_raw_string_claim_fails_on_beam :
  ¬ first_raw_string_claim Sample.beam
      (extract_element_data Sample.str_of_float Sample.beam ∅).
Proof. unfold first_raw_string_claim. vm_compute. discriminate. Qed.

(** ** Retrieved sets *)

(** C9, as the code has it.  When both retrievals succeed (on dicts, whose
    keys are distinct), the record carries every retrieved set, under its
    name and in retrieval order, with every entry of the set but the one
    keyed ["id"], in order, and with each value passed through [safe_value]:
    [None], booleans, numbers and strings are unchanged, entity references
    and other objects are replaced by their string form. *)
Theorem retrieved_sets_kept_without_id
    (f : Q → string) element storey_map all_psets all_qtos :
  Element.get_psets element = Ok all_psets →
  Element.get_qtos element = Ok all_qtos →
  well_formed_sets all_psets = true →
  well_formed_sets all_qtos = true →
  let r := extract_element_data f element storey_map in
  Row.property_sets r =
    map (fun entry => (fst entry, kept_entries (snd entry))) all_psets ∧
  Row.quantity_sets r =
    map (fun entry => (fst entry, kept_entries (snd entry))) all_qtos ∧
  (∀ props, dict_get "id" (kept_entries props) = None) ∧
  (∀ v, as_retrieved (safe_value v) = v ∨
        ∃ repr, (v = IEntity repr ∨ v = IOther repr) ∧ safe_value v = JStr repr).
Proof.
  intros Hp Hq Wp Wq r. split; [| split; [| split]].
  - unfold r. simpl. rewrite Hp. simpl. by apply clean_sets_kept.
  - unfold r. simpl. rewrite Hq. simpl. by apply clean_sets_kept.
  - intros props. unfold kept_entries.
    induction props as [|[k v] props IH]; [reflexivity |]. simpl.
    destruct (String.eqb_spec k "id") as [-> | Hne]; simpl; [done |].
    destruct (String.eqb_spec k "id"); [done | exact IH].
  - intros v. destruct v; simpl; try (by left); right; eexists; eauto.
Qed.

(** The theorem at the sample wall. *)
Lemma retrieved_sets_kept_without_id_witness :
  Row.property_sets (extract_element_data Sample.str_of_float Sample.wall ∅) =
    [("Pset_WallCommon", [("IsExternal", JBool true); ("Reference", JStr "W-01")])] ∧
  Row.quantity_sets (extract_element_data Sample.str_of_float Sample.wall ∅) =
    [("Qto_WallBaseQuantities", [("Net Volume", JFloat (21 # 4))])].
Proof.
  destruct (retrieved_sets_kept_without_id Sample.str_of_float Sample.wall ∅
              _ _ eq_refl eq_refl eq_refl eq_refl) as (H1 & H2 & _).
  split; [exact H1 | exact H2].
Defined.

(** C9 as the specification words it fails on the sample wall: the entry
    ["id" = 70] of the retrieved ["Pset_WallCommon"] is not in the record. *)
Lemma carried_unchanged_fails_on_wall :
  ¬ carried_unchanged Sample.wall
      (extract_element_data Sample.str_of_float Sample.wall ∅).
Proof.
  intros H.
  destruct (H _ "Pset_WallCommon" _ "id" (IInt 70) eq_refl eq_refl eq_refl)
    as (props' & Hset & Hid).
  vm_compute in Hset. injection Hset as <-. vm_compute in Hid. discriminate Hid.
Qed.

(** ** Search text *)

Section SearchTextFacts.

Variable f : Q → string.

Lemma extend_with_psets_flat parts psets :
  extend_with_psets f parts psets =
  parts ++ flat_map
             (fun entry =>
                fst entry ::
                map (fun kv => fst kv +:+ "=" +:+ py_str f (snd kv)) (snd entry))
             psets.
Proof.
  unfold extend_with_psets. revert parts.
  induction psets as [|entry psets IH]; intros parts.
  - simpl. by rewrite app_nil_r.
  - simpl. rewrite IH. clear IH.
    assert (Hin : ∀ (props : dict json_value) acc,
               fold_left (fun parts kv => parts ++ [fst kv +:+ "=" +:+ py_str f (snd kv)])
                 props acc =
               acc ++ map (fun kv => fst kv +:+ "=" +:+ py_str f (snd kv)) props).
    { induction props as [|kv props IHp]; intros acc; simpl.
      - by rewrite app_nil_r.
      - rewrite IHp. by rewrite <- app_assoc. }
    rewrite Hin. rewrite <- !app_assoc. reflexivity.
Qed.

Lemma filter_truthy_idem (l : list string) :
  List.filter PyStr.truthy (List.filter PyStr.truthy l) = List.filter PyStr.truthy l.
Proof.
  induction l as [|s l IH]; [reflexivity |]. simpl.
  destruct (PyStr.truthy s) eqn:E; simpl; rewrite ?E, IH; reflexivity.
Qed.


(** A segment that survives the filter is never empty, and a
    ["key=value"] segment always survives. *)
Lemma key_value_truthy k (v : json_value) :
  PyStr.truthy (k +:+ "=" +:+ py_str f v) = true.
Proof. by destruct k. Qed.

End SearchTextFacts.

(** ** Materials and classifications *)

Lemma resolve_materials_names r :
  resolve_materials r =
  match r with
  | Ok (Some mat) => names_of_material mat
  | _ => []
  end.
Proof.
  destruct r as [[mat|]|]; [| done..].
  assert (Hl : ∀ layers, layer_names layers
                 = omap (fun layer => material_name <$> Material.Material layer) layers).
  { induction layers as [|layer layers IH]; [done |]. unfold layer_names in *. simpl.
    rewrite IH. by destruct (Material.Material layer). }
  destruct mat as [m | [ls|] | ls | ms | cs |]; simpl; try done.
  induction (default [] cs) as [|c l IH]; [done |]. simpl. rewrite IH.
  by destruct (Material.ConstituentMaterial c).
Qed.

Lemma resolve_classifications_read rels acc :
  resolve_classifications rels acc =
  acc ++ omap classification_of (read_before_failure rels).
Proof.
  revert acc. induction rels as [|[[[ref|]|]|msg] rels IH]; intros acc; simpl.
  - by rewrite app_nil_r.
  - rewrite IH. by rewrite <- app_assoc.
  - apply IH.
  - apply IH.
  - by rewrite app_nil_r.
Qed.




(** ** StoreyMapper *)

Section StoreyFacts.

Implicit Types (m : gmap Z string) (rels : list RelContained.t).

Lemma assign_elements_raised nm (els : list (res Z)) m m' :
  snd (assign_elements nm els m) = snd (assign_elements nm els m').
Proof.
  revert m m'. induction els as [|[eid | msg] els IH]; intros m m'; simpl; [done | | done].
  apply IH.
Qed.

Lemma assign_elements_other nm (els : list (res Z)) m eid :
  Ok eid ∉ els → fst (assign_elements nm els m) !! eid = m !! eid.
Proof.
  revert m. induction els as [|[x | msg] els IH]; intros m Hn; simpl; [done | | done].
  rewrite IH by (intros H; apply Hn; by right).
  apply lookup_insert_ne. intros ->. apply Hn. by left.
Qed.

Lemma assign_elements_stays nm (els : list (res Z)) m eid :
  m !! eid = Some nm → fst (assign_elements nm els m) !! eid = Some nm.
Proof.
  revert m. induction els as [|[x | msg] els IH]; intros m Hm; simpl; [done | | done].
  apply IH. destruct (decide (x = eid)) as [-> | Hne].
  - apply lookup_insert_eq.
  - by rewrite lookup_insert_ne.
Qed.

Lemma assign_elements_hit nm (before : list Z) (after : list (res Z)) m eid :
  fst (assign_elements nm (map Ok before ++ Ok eid :: after) m) !! eid = Some nm.
Proof.
  revert m. induction before as [|x before IH]; intros m; simpl.
  - apply assign_elements_stays, lookup_insert_eq.
  - apply IH.
Qed.

Lemma assign_elements_grows nm (els : list (res Z)) m eid :
  is_Some (m !! eid) → is_Some (fst (assign_elements nm els m) !! eid).
Proof.
  revert m. induction els as [|[x | msg] els IH]; intros m Hm; simpl; [done | | done].
  apply IH. destruct (decide (x = eid)) as [-> | Hne].
  - rewrite lookup_insert_eq. by eexists.
  - by rewrite lookup_insert_ne.
Qed.

(** One step of the loop, with the pair taken apart. *)
Lemma storey_loop_cons rel rels m :
  storey_loop (rel :: rels) m =
  match RelContained.RelatingStructure rel with
  | Raise _ => (m, true)
  | Ok None => storey_loop rels m
  | Ok (Some structure) =>
      match RelContained.RelatedElements rel with
      | Raise _ => (m, true)
      | Ok elements =>
          let step := assign_elements (display_name structure) (default [] elements) m in
          if snd step then (fst step, true) else storey_loop rels (fst step)
      end
  end.
Proof.
  simpl. destruct (RelContained.RelatingStructure rel) as [[s|]|]; try reflexivity.
  destruct (RelContained.RelatedElements rel) as [els|]; try reflexivity.
  by destruct (assign_elements _ _ _).
Qed.

Lemma storey_loop_raised rels m m' :
  snd (storey_loop rels m) = snd (storey_loop rels m').
Proof.
  revert m m'. induction rels as [|rel rels IH]; intros m m'; [done |].
  rewrite !storey_loop_cons.
  destruct (RelContained.RelatingStructure rel) as [[s|]|]; [| apply IH | done].
  destruct (RelContained.RelatedElements rel) as [els|]; [| done]. cbn zeta.
  rewrite (assign_elements_raised _ _ m m').
  destruct (snd (assign_elements _ _ m')); [done | apply IH].
Qed.

Lemma storey_loop_app pre post m :
  storey_loop (pre ++ post) m =
  if snd (storey_loop pre m) then storey_loop pre m
  else storey_loop post (fst (storey_loop pre m)).
Proof.
  revert m. induction pre as [|rel pre IH]; intros m; [done |].
  rewrite <- app_comm_cons, !storey_loop_cons.
  destruct (RelContained.RelatingStructure rel) as [[s|]|]; [| apply IH | done].
  destruct (RelContained.RelatedElements rel) as [els|]; [| done]. cbn zeta.
  destruct (snd (assign_elements _ _ m)); [done | apply IH].
Qed.

(** Relations that do not assign to [eid] leave its entry alone. *)
Lemma storey_loop_other rels m eid :
  (∀ rel, rel ∈ rels → ¬ assigning rel eid) →
  fst (storey_loop rels m) !! eid = m !! eid.
Proof.
  revert m. induction rels as [|rel rels IH]; intros m Hn; [done |].
  assert (Hrest : ∀ r, r ∈ rels → ¬ assigning r eid) by (intros r Hr; apply Hn; by right).
  rewrite storey_loop_cons.
  destruct (RelContained.RelatingStructure rel) as [[s|]|] eqn:Es; [| by apply IH | done].
  destruct (RelContained.RelatedElements rel) as [els|] eqn:Ee; [| done]. cbn zeta.
  assert (Hstep : fst (assign_elements (display_name s) (default [] els) m) !! eid = m !! eid).
  { apply assign_elements_other. destruct els as [els|]; simpl.
    - intros Hin. apply (Hn rel); [by left |]. by exists s, els.
    - apply not_elem_of_nil. }
  destruct (snd (assign_elements _ _ m)); [done |].
  by rewrite IH.
Qed.

Lemma storey_loop_grows rels m eid :
  is_Some (m !! eid) → is_Some (fst (storey_loop rels m) !! eid).
Proof.
  revert m. induction rels as [|rel rels IH]; intros m Hm; [done |].
  rewrite storey_loop_cons.
  destruct (RelContained.RelatingStructure rel) as [[s|]|]; [| by apply IH | done].
  destruct (RelContained.RelatedElements rel) as [els|]; [| done]. cbn zeta.
  pose proof (assign_elements_grows (display_name s) (default [] els) m eid Hm).
  destruct (snd (assign_elements _ _ m)); [done | by apply IH].
Qed.

Lemma assign_elements_fold nm (els : list (res Z)) m :
  fst (assign_elements nm els m) =
  fold_left (fun m eid => <[eid := nm]> m) (ids_before_failure els) m.
Proof.
  revert m. induction els as [|[x | msg] els IH]; intros m; simpl; [done | | done].
  apply IH.
Qed.

Lemma assign_elements_read nm (els : list (res Z)) m eid :
  eid ∈ ids_before_failure els → fst (assign_elements nm els m) !! eid = Some nm.
Proof.
  revert m. induction els as [|[x | msg] els IH]; intros m Hin; simpl in *.
  - by apply not_elem_of_nil in Hin.
  - apply elem_of_cons in Hin as [<- | Hin].
    + apply assign_elements_stays, lookup_insert_eq.
    + by apply IH.
  - by apply not_elem_of_nil in Hin.
Qed.

Lemma listing_assigning rel eid : assigning rel eid → listing rel eid.
Proof. intros (s & els & _ & He & Hin). by exists els. Qed.

End StoreyFacts.

(** C2, as the code has it.  The one [try] of [build_storey_map] surrounds
    the whole loop: a relation that fails ends the scan, and the relations
    after it are not processed.  The map returned is the one reached at the
    failure: the map of the earlier relations, with the display name of the
    failing relation assigned to each related element it had read before
    the failure (none when the failure is in reading its structure or its
    list of related elements).  So what the earlier relations assigned is
    still there, and it is theirs unless the failing relation assigned to
    the same id before failing. *)
Theorem storey_scan_ends_at_failing_relation pre rel post :
  raised pre = false →
  raised [rel] = true →
  build_storey_map (pre ++ rel :: post) = build_storey_map (pre ++ [rel]) ∧
  build_storey_map (pre ++ [rel]) =
    match RelContained.RelatingStructure rel, RelContained.RelatedElements rel with
    | Ok (Some structure), Ok (Some elements) =>
        fold_left (fun m eid => <[eid := display_name structure]> m)
          (ids_before_failure elements) (build_storey_map pre)
    | _, _ => build_storey_map pre
    end ∧
  (∀ structure elements eid,
     RelContained.RelatingStructure rel = Ok (Some structure) →
     RelContained.RelatedElements rel = Ok (Some elements) →
     eid ∈ ids_before_failure elements →
     build_storey_map (pre ++ rel :: post) !! eid = Some (display_name structure)) ∧
  (∀ eid, ¬ assigning rel eid →
          build_storey_map (pre ++ [rel]) !! eid = build_storey_map pre !! eid) ∧
  (∀ eid, is_Some (build_storey_map pre !! eid) →
          is_Some (build_storey_map (pre ++ [rel]) !! eid)).
Proof.
  unfold raised, build_storey_map. intros Hpre Hrel.
  assert (Hr : ∀ m, snd (storey_loop [rel] m) = true).
  { intros m. by rewrite (storey_loop_raised [rel] m ∅). }
  assert (Hcut : storey_loop (pre ++ rel :: post) ∅ = storey_loop (pre ++ [rel]) ∅).
  { rewrite !storey_loop_app, Hpre.
    change (rel :: post) with ([rel] ++ post).
    by rewrite storey_loop_app, Hr. }
  split; [by rewrite Hcut |]. split; [| split; [| split]].
  - rewrite storey_loop_app, Hpre, storey_loop_cons.
    destruct (RelContained.RelatingStructure rel) as [[s|]|]; [| done..].
    destruct (RelContained.RelatedElements rel) as [[els|]|]; [| done..].
    cbn zeta. simpl default.
    rewrite <- assign_elements_fold.
    by destruct (snd (assign_elements (display_name s) els _)).
  - intros s els eid Hs He Hin. rewrite Hcut.
    rewrite storey_loop_app, Hpre, storey_loop_cons, Hs, He. cbn zeta. simpl default.
    assert (Hhit : fst (assign_elements (display_name s) els (fst (storey_loop pre ∅)))
                   !! eid = Some (display_name s)).
    { by apply assign_elements_read. }
    destruct (snd (assign_elements (display_name s) els _)) eqn:Er; [exact Hhit |].
    exfalso. specialize (Hr ∅). rewrite storey_loop_cons, Hs, He in Hr. cbn zeta in Hr.
    simpl default in Hr.
    rewrite (assign_elements_raised _ _ ∅ (fst (storey_loop pre ∅))), Er in Hr.
    simpl in Hr. discriminate Hr.
  - intros eid Hn. rewrite storey_loop_app, Hpre.
    apply storey_loop_other. intros r Hin.
    apply list_elem_of_singleton in Hin as ->. done.
  - intros eid Hs. rewrite storey_loop_app, Hpre. by apply storey_loop_grows.
Qed.

(** The theorem at a scan of three relations, the second of which fails
    after reading element 9: element 9 has the floor of the failing
    relation, and the third relation is not processed. *)
Lemma storey_scan_ends_at_failing_relation_witness :
  build_storey_map
    [Sample.contains "Level 1" [7]; Demo.half_read; Sample.contains "Level 3" [8]]
    !! 9 = Some "Level 2" ∧
  build_storey_map
    [Sample.contains "Level 1" [7]; Demo.half_read; Sample.contains "Level 3" [8]]
  = build_storey_map [Sample.contains "Level 1" [7]; Demo.half_read].
Proof.
  pose proof (storey_scan_ends_at_failing_relation
                [Sample.contains "Level 1" [7]] Demo.half_read
                [Sample.contains "Level 3" [8]] eq_refl eq_refl) as (H1 & _ & H3 & _).
  split; [| exact H1].
  apply (H3 (Sample.level "Level 2") [Ok 9; Raise "id() failed"; Ok 10] 9 eq_refl eq_refl).
  by left.
Defined.

(** C2 as the specification words it fails: after the failing relation, the
    assignment of element 8 to ["Level 2"] is not in the map. *)
Lemma later_relations_still_applied_fails :
  ¬ later_relations_still_applied [Sample.broken; Sample.contains "Level 2" [8]].
Proof.
  intros H.
  specialize (H [] Sample.broken [Sample.contains "Level 2" [8]] 8 "Level 2"
                eq_refl eq_refl eq_refl).
  vm_compute in H. discriminate H.
Qed.

(** C7.  The floor name of the assembled record is the display name of the
    last relation that assigns the element (the relations before it having
    been scanned without a failure), and the empty string for an element
    that no containment relation lists. *)
Theorem floor_name_last_relation_wins (f : Q → string) element rels :
  let eid := Element.id element in
  let r := extract_element_data f element (build_storey_map rels) in
  (∀ pre rel post structure before after,
     rels = pre ++ rel :: post →
     raised pre = false →
     RelContained.RelatingStructure rel = Ok (Some structure) →
     RelContained.RelatedElements rel = Ok (Some (map Ok before ++ Ok eid :: after)) →
     (∀ rel', rel' ∈ post → ¬ assigning rel' eid) →
     build_storey_map rels !! eid = Some (display_name structure) ∧
     Row.floor_name r = display_name structure) ∧
  ((∀ rel, rel ∈ rels → ¬ listing rel eid) →
   build_storey_map rels !! eid = None ∧ Row.floor_name r = EmptyString).
Proof.
  intros eid r.
  assert (Hfloor : Row.floor_name r = default EmptyString (build_storey_map rels !! eid))
    by reflexivity.
  split.
  - intros pre rel post s before after -> Hpre Hs He Hpost.
    assert (Hmap : build_storey_map (pre ++ rel :: post) !! eid = Some (display_name s)).
    { unfold build_storey_map, raised in *.
      rewrite storey_loop_app, Hpre, storey_loop_cons, Hs, He. cbn zeta. simpl default.
      pose proof (assign_elements_hit (display_name s) before after
                    (fst (storey_loop pre ∅)) eid) as Hhit.
      destruct (snd (assign_elements _ _ _)); [exact Hhit |].
      by rewrite storey_loop_other. }
    split; [exact Hmap |]. by rewrite Hfloor, Hmap.
  - intros Hn.
    assert (Hmap : build_storey_map rels !! eid = None).
    { unfold build_storey_map. rewrite storey_loop_other; [apply lookup_empty |].
      intros rel Hin Ha. apply (Hn rel Hin). by apply listing_assigning. }
    split; [exact Hmap |]. by rewrite Hfloor, Hmap.
Qed.

(** The theorem at two relations that both list element 7, ["Level 1"] and
    then ["Level 2"]: the floor name is ["Level 2"]. *)
Lemma floor_name_last_relation_wins_witness :
  Row.floor_name
    (extract_element_data Sample.str_of_float (Sample.element 7 (Ok []) (Ok []))
       (build_storey_map [Sample.contains "Level 1" [7]; Sample.contains "Level 2" [7]]))
  = "Level 2".
Proof.
  refine (proj2 (proj1 (floor_name_last_relation_wins Sample.str_of_float
                   (Sample.element 7 (Ok []) (Ok []))
                   [Sample.contains "Level 1" [7]; Sample.contains "Level 2" [7]])
                 [Sample.contains "Level 1" [7]] (Sample.contains "Level 2" [7]) []
                 (Sample.level "Level 2") [] [] eq_refl eq_refl eq_refl eq_refl _)).
  intros rel' Hin. by apply not_elem_of_nil in Hin.
Defined.

(** ** SpatialTreeBuilder *)

Section TraversalFacts.

Variable float_of_str : string → option Q.
Variable store : gmap Z Entity.t.

Abbreviation visit_fn := (Z → list Node.t → option (list Node.t)).
Abbreviation process := (process_spatial float_of_str store).

(** *** The two loops *)

Lemma children_loop_inv (P : list Node.t → Prop) (visit : visit_fn) cs nodes out :
  (∀ c ns ns', c ∈ cs → P ns → visit c ns = Some ns' → P ns') →
  P nodes → children_loop visit cs nodes = Some out → P out.
Proof.
  revert nodes. induction cs as [|c cs IH]; intros nodes Hv HP Hrun; simpl in Hrun.
  - by injection Hrun as <-.
  - destruct (visit c nodes) as [ns'|] eqn:E; [| done].
    apply (IH ns'); [| | done].
    + intros c' ns ns'' Hin. apply Hv. by right.
    + apply (Hv c nodes ns'); [by left | done..].
Qed.

Lemma rels_loop_inv (P : list Node.t → Prop) (visit : visit_fn) rels nodes out :
  (∀ rel objs c ns ns',
     rel ∈ rels → RelAggregates.RelatedObjects rel = Ok (Some objs) → c ∈ objs →
     P ns → visit c ns = Some ns' → P ns') →
  P nodes → rels_loop visit rels nodes = Some out → P out.
Proof.
  revert nodes. induction rels as [|rel rels IH]; intros nodes Hv HP Hrun; simpl in Hrun.
  - by injection Hrun as <-.
  - destruct (RelAggregates.RelatedObjects rel) as [objs|] eqn:Eo.
    + destruct (children_loop visit (default [] objs) nodes) as [ns'|] eqn:E; [| done].
      apply (IH ns'); [| | done].
      * intros rel' objs' c ns ns'' Hin. apply Hv. by right.
      * apply (children_loop_inv P visit (default [] objs) nodes ns'); [| done..].
        intros c ns ns'' Hin. destruct objs as [objs|]; simpl in Hin.
        -- apply (Hv rel objs c); [by left | done..].
        -- by apply not_elem_of_nil in Hin.
    + by injection Hrun as <-.
Qed.

Lemma children_loop_total (visit : visit_fn) cs nodes :
  (∀ c ns, c ∈ cs → is_Some (visit c ns)) →
  is_Some (children_loop visit cs nodes).
Proof.
  revert nodes. induction cs as [|c cs IH]; intros nodes Hv; simpl; [by eexists |].
  destruct (Hv c nodes) as [ns' ->]; [by left |].
  apply IH. intros c' ns Hin. apply Hv. by right.
Qed.

Lemma rels_loop_total (visit : visit_fn) rels nodes :
  (∀ rel objs c ns,
     rel ∈ rels → RelAggregates.RelatedObjects rel = Ok (Some objs) → c ∈ objs →
     is_Some (visit c ns)) →
  is_Some (rels_loop visit rels nodes).
Proof.
  revert nodes. induction rels as [|rel rels IH]; intros nodes Hv; simpl; [by eexists |].
  destruct (RelAggregates.RelatedObjects rel) as [objs|] eqn:Eo; [| by eexists].
  destruct (children_loop_total visit (default [] objs) nodes) as [ns' ->].
  - intros c ns Hin. destruct objs as [objs|]; simpl in Hin.
    + apply (Hv rel objs c); [by left | done..].
    + by apply not_elem_of_nil in Hin.
  - apply IH. intros rel' objs' c ns Hin. apply Hv. by right.
Qed.

Lemma children_loop_mono (visit visit' : visit_fn) cs nodes out :
  (∀ c ns ns', visit c ns = Some ns' → visit' c ns = Some ns') →
  children_loop visit cs nodes = Some out → children_loop visit' cs nodes = Some out.
Proof.
  intros Hv. revert nodes. induction cs as [|c cs IH]; intros nodes Hrun; simpl in *; [done |].
  destruct (visit c nodes) as [ns'|] eqn:E; [| done].
  rewrite (Hv _ _ _ E). by apply IH.
Qed.

Lemma rels_loop_mono (visit visit' : visit_fn) rels nodes out :
  (∀ c ns ns', visit c ns = Some ns' → visit' c ns = Some ns') →
  rels_loop visit rels nodes = Some out → rels_loop visit' rels nodes = Some out.
Proof.
  intros Hv. revert nodes.
  induction rels as [|rel rels IH]; intros nodes Hrun; simpl in *; [done |].
  destruct (RelAggregates.RelatedObjects rel) as [objs|]; [| done].
  destruct (children_loop visit (default [] objs) nodes) as [ns'|] eqn:E; [| done].
  rewrite (children_loop_mono visit visit' _ _ _ Hv E). by apply IH.
Qed.

(** *** Fuel *)

Lemma process_spatial_step fuel ref parent nodes :
  process (S fuel) ref parent nodes =
  match store !! ref with
  | None => Some nodes
  | Some entity =>
      if negb (is_spatial_type (Entity.is_a entity)) then Some nodes
      else rels_loop (fun child ns => process fuel child (Some ref) ns)
             (default [] (Entity.IsDecomposedBy entity))
             (nodes ++ [make_node float_of_str ref entity parent])
  end.
Proof. reflexivity. Qed.

(** More fuel does not change a result. *)
Lemma process_spatial_mono fuel fuel' ref parent nodes out :
  (fuel ≤ fuel')%nat →
  process fuel ref parent nodes = Some out → process fuel' ref parent nodes = Some out.
Proof.
  revert fuel' ref parent nodes out.
  induction fuel as [|fuel IH]; intros fuel' ref parent nodes out Hle Hrun; [done |].
  destruct fuel' as [|fuel']; [lia |].
  rewrite process_spatial_step in *.
  destruct (store !! ref) as [entity|]; [| done].
  destruct (negb _); [done |].
  eapply rels_loop_mono; [| exact Hrun].
  intros c ns ns'. apply IH. lia.
Qed.

Lemma process_projects_mono fuel fuel' ps nodes out :
  (fuel ≤ fuel')%nat →
  process_projects float_of_str store fuel ps nodes = Some out →
  process_projects float_of_str store fuel' ps nodes = Some out.
Proof.
  intros Hle. revert nodes.
  induction ps as [|p ps IH]; intros nodes Hrun; simpl in *; [done |].
  destruct (process fuel p None nodes) as [ns'|] eqn:E; [| done].
  rewrite (process_spatial_mono _ _ _ _ _ _ Hle E). by apply IH.
Qed.

End TraversalFacts.

Section ForestFacts.

Variable float_of_str : string → option Q.
Variable store : gmap Z Entity.t.

Abbreviation process := (process_spatial float_of_str store).

(** *** What is emitted *)

Lemma emitted_prefix nodes nodes' p :
  nodes `prefix_of` nodes' → emitted nodes p → emitted nodes' p.
Proof.
  intros Hpre (j & m & Hj & Hm). exists j, m. split; [| done].
  by eapply prefix_lookup_Some.
Qed.

Lemma linked_snoc nodes n :
  linked store nodes →
  (∀ p, Node.parent_express_id n = Some p →
        emitted nodes p ∧ child_of store (Node.express_id n) p) →
  linked store (nodes ++ [n]).
Proof.
  intros Hl Hn i x p Hi Hp.
  destruct (decide (i < length nodes)%nat) as [Hlt | Hge].
  - rewrite lookup_app_l in Hi by done.
    destruct (Hl i x p Hi Hp) as [(j & m & Hj & Hm & Hid) Hc]. split; [| done].
    exists j, m. split; [done |]. split; [| done].
    rewrite lookup_app_l; [done | lia].
  - rewrite lookup_app_r in Hi by lia.
    destruct (i - length nodes)%nat as [|k] eqn:Ek; simpl in Hi; [| by destruct k].
    injection Hi as <-.
    destruct (Hn p Hp) as [(j & m & Hj & Hid) Hc]. split; [| done].
    exists j, m. pose proof (lookup_lt_Some _ _ _ Hj).
    split; [lia |]. split; [| done]. by rewrite lookup_app_l.
Qed.

Lemma process_spatial_linked fuel ref parent nodes out :
  linked store nodes →
  (∀ p, parent = Some p → emitted nodes p ∧ child_of store ref p) →
  process fuel ref parent nodes = Some out →
  linked store out ∧ nodes `prefix_of` out.
Proof.
  revert ref parent nodes out.
  induction fuel as [|fuel IH]; intros ref parent nodes out Hl Hp Hrun; [done |].
  rewrite process_spatial_step in Hrun.
  destruct (store !! ref) as [entity|] eqn:Es; [| by injection Hrun as <-].
  destruct (negb _); [by injection Hrun as <- |].
  set (node := make_node float_of_str ref entity parent) in *.
  assert (Hl1 : linked store (nodes ++ [node])) by (by apply linked_snoc).
  cut (linked store out ∧ nodes `prefix_of` out ∧ emitted out ref);
    [intros (H1 & H2 & _); by split |].
  apply (rels_loop_inv
           (fun ns => linked store ns ∧ nodes `prefix_of` ns ∧ emitted ns ref)
           _ _ _ _) in Hrun; [exact Hrun | |].
  - intros rel objs c ns ns' Hrel Hobjs Hc (Hns & Hpre & Hem) Hvisit.
    destruct (IH c (Some ref) ns ns' Hns) as [Hl' Hpre']; [| done |].
    + intros p [= <-]. split; [done |].
      destruct (Entity.IsDecomposedBy entity) as [rels|] eqn:Ed;
        [| by apply not_elem_of_nil in Hrel].
      by exists entity, rels, rel, objs.
    + split; [done |]. split; [by etrans |]. by eapply emitted_prefix.
  - split; [done |]. split; [by apply prefix_app_r |].
    exists (length nodes), node. split; [| done].
    rewrite lookup_app_r by lia. by rewrite Nat.sub_diag.
Qed.

Lemma process_projects_linked fuel ps nodes out :
  linked store nodes →
  process_projects float_of_str store fuel ps nodes = Some out → linked store out.
Proof.
  revert nodes. induction ps as [|p ps IH]; intros nodes Hl Hrun; simpl in Hrun.
  - by injection Hrun as <-.
  - destruct (process fuel p None nodes) as [ns'|] eqn:E; [| done].
    apply (IH ns'); [| done].
    by destruct (process_spatial_linked fuel p None nodes ns' Hl) as [H _].
Qed.

Lemma linked_parent_link nodes c p :
  linked store nodes → parent_link nodes c p → child_of store c p.
Proof.
  intros Hl (n & Hin & <- & Hp).
  apply list_elem_of_lookup in Hin as [i Hi].
  by destruct (Hl i n p Hi Hp).
Qed.

Lemma linked_ancestor nodes x y :
  linked store nodes → tc (parent_link nodes) x y → tc (child_of store) x y.
Proof.
  intros Hl. induction 1 as [x y H | x y z H _ IH].
  - apply tc_once. by eapply linked_parent_link.
  - eapply tc_l; [by eapply linked_parent_link | done].
Qed.

(** *** Termination *)

Hypothesis Hacyclic : acyclic store.

Lemma process_spatial_total fuel (visited : gset Z) ref parent nodes :
  (∀ v, v ∈ visited → tc (child_of store) ref v) →
  visited ⊆ dom store →
  (size (dom store ∖ visited) < fuel)%nat →
  is_Some (process fuel ref parent nodes).
Proof.
  revert visited ref parent nodes.
  induction fuel as [|fuel IH]; intros visited ref parent nodes Hanc Hsub Hsize; [lia |].
  rewrite process_spatial_step.
  destruct (store !! ref) as [entity|] eqn:Es; [| by eexists].
  destruct (negb _); [by eexists |].
  assert (Hfresh : ref ∉ visited).
  { intros Hin. apply (Hacyclic ref). by apply Hanc. }
  assert (Hdom : ref ∈ dom store) by (apply elem_of_dom; by eexists).
  apply rels_loop_total. intros rel objs c ns Hrel Hobjs Hc.
  assert (Hedge : child_of store c ref).
  { destruct (Entity.IsDecomposedBy entity) as [rels|] eqn:Ed;
      [| by apply not_elem_of_nil in Hrel].
    by exists entity, rels, rel, objs. }
  apply (IH (visited ∪ {[ref]})).
  - intros v Hv. apply elem_of_union in Hv as [Hv | Hv].
    + eapply tc_l; [exact Hedge | by apply Hanc].
    + apply elem_of_singleton in Hv as ->. by apply tc_once.
  - apply union_subseteq. split; [done |]. by apply singleton_subseteq_l.
  - assert (dom store ∖ (visited ∪ {[ref]}) ⊂ dom store ∖ visited) as Hlt.
    { split.
      - intros x Hx. apply elem_of_difference in Hx as [Hx1 Hx2].
        apply elem_of_difference. split; [done |].
        intros Hv. apply Hx2, elem_of_union. by left.
      - intros Hs.
        assert (Hin : ref ∈ dom store ∖ (visited ∪ {[ref]})).
        { apply Hs, elem_of_difference. by split. }
        apply elem_of_difference in Hin as [_ Hin].
        apply Hin, elem_of_union. right. by apply elem_of_singleton. }
    apply subset_size in Hlt. lia.
Qed.

Lemma process_projects_total fuel ps nodes :
  (size store < fuel)%nat →
  is_Some (process_projects float_of_str store fuel ps nodes).
Proof.
  intros Hfuel. revert nodes. induction ps as [|p ps IH]; intros nodes; simpl; [by eexists |].
  destruct (process_spatial_total fuel ∅ p None nodes) as [ns' ->]; [set_solver.. | | done].
  rewrite difference_empty_L, size_dom. exact Hfuel.
Qed.

End ForestFacts.

Lemma ranked_acyclic (rank : Z → nat) (store : gmap Z Entity.t) :
  ranked rank store = true → acyclic store.
Proof.
  unfold ranked. intros Hr.
  assert (Hedge : ∀ c p, child_of store c p → (rank c < rank p)%nat).
  { intros c p (entity & rels & rel & objs & Hs & Hd & Hrel & Hobjs & Hc).
    rewrite forallb_forall in Hr.
    specialize (Hr (p, entity)). cbn [fst snd] in Hr.
    rewrite Hd in Hr. cbn [default] in Hr.
    assert (Hin : In (p, entity) (map_to_list store)).
    { apply list_elem_of_In. by apply elem_of_map_to_list. }
    specialize (Hr Hin). rewrite forallb_forall in Hr.
    specialize (Hr rel). rewrite Hobjs in Hr.
    assert (Hin' : In rel rels) by (by apply list_elem_of_In).
    specialize (Hr Hin'). rewrite forallb_forall in Hr.
    apply Nat.ltb_lt, Hr. by apply list_elem_of_In. }
  assert (Hpath : ∀ x y, tc (child_of store) x y → (rank x < rank y)%nat).
  { induction 1 as [x y H | x y z H _ IH].
    - by apply Hedge.
    - apply Hedge in H. lia. }
  intros x Hx. apply Hpath in Hx. lia.
Qed.

(** C5.  When the decomposition relations are acyclic, [build_spatial_tree]
    returns (with any fuel above the number of entities) a list in which
    every parent id is the id of a node at or before it, and in which no
    node is its own ancestor along the parent ids. *)
Theorem spatial_nodes_form_forest (float_of_str : string → option Q) (model : Model) :
  acyclic (entities model) →
  ∃ nodes,
    (∀ fuel, (size (entities model) < fuel)%nat →
             build_spatial_tree float_of_str fuel model = Some nodes) ∧
    parents_precede nodes ∧
    no_self_ancestor nodes.
Proof.
  intros Hacyclic. unfold build_spatial_tree.
  destruct (process_projects_total float_of_str (entities model) Hacyclic
              (S (size (entities model))) (projects model) []) as [nodes Hrun]; [lia |].
  exists nodes.
  assert (Hl : linked (entities model) nodes).
  { eapply process_projects_linked; [| exact Hrun].
    intros i n p Hi. by rewrite lookup_nil in Hi. }
  split; [| split].
  - intros fuel Hfuel.
    apply (process_projects_mono float_of_str (entities model)
             (S (size (entities model))) fuel); [lia | done].
  - intros i n p Hi Hp.
    destruct (Hl i n p Hi Hp) as [(j & m & Hj & Hm & Hid) _].
    exists j, m. split; [lia | done].
  - intros n _ Hcycle. apply (Hacyclic (Node.express_id n)).
    by apply (linked_ancestor (entities model) nodes).
Qed.

(** The theorem at the sample building: ten units of fuel give a list with
    the forest properties. *)
Lemma spatial_nodes_form_forest_witness :
  ∃ nodes,
    build_spatial_tree Sample.float_of_str 10 Sample.building = Some nodes ∧
    parents_precede nodes ∧ no_self_ancestor nodes.
Proof.
  destruct (spatial_nodes_form_forest Sample.float_of_str Sample.building
              (ranked_acyclic Sample.rank (entities Sample.building) eq_refl))
    as (nodes & Hrun & Hp & Ha).
  exists nodes. split; [| by split].
  apply Hrun. vm_compute. lia.
Defined.

Section ElevationFacts.

Variable float_of_str : string → option Q.
Variable store : gmap Z Entity.t.

Lemma make_node_well_typed ref entity parent :
  is_spatial_type (Entity.is_a entity) = true →
  well_typed (make_node float_of_str ref entity parent).
Proof.
  intros Ht. split; [exact Ht |]. simpl.
  destruct (String.eqb_spec (Entity.is_a entity) "IfcBuildingStorey") as [-> | Hne];
    [done |].
  intros [x Hx]. discriminate Hx.
Qed.

Lemma process_spatial_well_typed fuel ref parent nodes out :
  Forall well_typed nodes →
  process_spatial float_of_str store fuel ref parent nodes = Some out →
  Forall well_typed out.
Proof.
  revert ref parent nodes out.
  induction fuel as [|fuel IH]; intros ref parent nodes out Hn Hrun; [done |].
  rewrite process_spatial_step in Hrun.
  destruct (store !! ref) as [entity|]; [| by injection Hrun as <-].
  destruct (is_spatial_type (Entity.is_a entity)) eqn:Ht; simpl in Hrun;
    [| by injection Hrun as <-].
  apply (rels_loop_inv (Forall well_typed) _ _ _ _) in Hrun; [exact Hrun | |].
  - intros rel objs c ns ns' _ _ _ Hns Hvisit. by apply (IH c (Some ref) ns).
  - apply Forall_app. split; [done |].
    apply Forall_singleton. by apply make_node_well_typed.
Qed.

Lemma process_projects_well_typed fuel ps nodes out :
  Forall well_typed nodes →
  process_projects float_of_str store fuel ps nodes = Some out →
  Forall well_typed out.
Proof.
  revert nodes. induction ps as [|p ps IH]; intros nodes Hn Hrun; simpl in Hrun.
  - by injection Hrun as <-.
  - destruct (process_spatial float_of_str store fuel p None nodes) as [ns'|] eqn:E;
      [| done].
    apply (IH ns'); [| done]. by eapply process_spatial_well_typed.
Qed.

End ElevationFacts.

(** C6.  An entity whose type is not one of the five spatial types adds no
    node and its decomposition is not entered (one unit of fuel is enough,
    whatever hangs below it); every node emitted has a spatial type and
    carries an elevation only if it is a storey; and a storey whose
    elevation does not parse is emitted with an absent elevation, after
    which its decomposition is traversed as for any other node. *)
Theorem non_spatial_skipped_and_elevation_on_storeys_only
    (float_of_str : string → option Q) (model : Model) :
  let store := entities model in
  (∀ fuel ref entity parent nodes,
     store !! ref = Some entity →
     is_spatial_type (Entity.is_a entity) = false →
     process_spatial float_of_str store (S fuel) ref parent nodes = Some nodes) ∧
  (∀ fuel nodes n,
     build_spatial_tree float_of_str fuel model = Some nodes →
     n ∈ nodes →
     is_spatial_type (Node.ifc_type n) = true ∧
     (is_Some (Node.elevation n) → Node.ifc_type n = "IfcBuildingStorey")) ∧
  (∀ fuel ref entity parent nodes,
     store !! ref = Some entity →
     Entity.is_a entity = "IfcBuildingStorey" →
     parse_elevation float_of_str (Entity.Elevation entity) = None →
     Node.elevation (make_node float_of_str ref entity parent) = None ∧
     process_spatial float_of_str store (S fuel) ref parent nodes =
       rels_loop
         (fun child ns => process_spatial float_of_str store fuel child (Some ref) ns)
         (default [] (Entity.IsDecomposedBy entity))
         (nodes ++ [make_node float_of_str ref entity parent])) ∧
  (∀ s, float_of_str s = None → parse_elevation float_of_str (IStr s) = None) ∧
  (∀ repr, parse_elevation float_of_str (IEntity repr) = None ∧
           parse_elevation float_of_str (IOther repr) = None).
Proof.
  intros store. split; [| split; [| split; [| split]]].
  - intros fuel ref entity parent nodes Hs Ht.
    rewrite process_spatial_step, Hs, Ht. reflexivity.
  - intros fuel nodes n Hrun Hin. unfold build_spatial_tree in Hrun.
    apply (process_projects_well_typed float_of_str store) in Hrun; [| by apply Forall_nil].
    rewrite Forall_forall in Hrun. by apply Hrun.
  - intros fuel ref entity parent nodes Hs Ht He. split.
    + simpl. rewrite Ht. simpl. exact He.
    + rewrite process_spatial_step, Hs, Ht. reflexivity.
  - intros s Hs. exact Hs.
  - intros repr. split; reflexivity.
Qed.

(** The theorem at the sample building: the annotation 7 is skipped with
    the space 8 below it. *)
Lemma non_spatial_skipped_and_elevation_on_storeys_only_witness :
  process_spatial Sample.float_of_str (entities Sample.building) 1 7 (Some 3) [] = Some [].
Proof.
  exact (proj1 (non_spatial_skipped_and_elevation_on_storeys_only
                  Sample.float_of_str Sample.building)
           0%nat 7 (Sample.spatial "IfcAnnotation" INone [8]) (Some 3) []
           eq_refl eq_refl).
Defined.

(** The traversal of the sample building: six nodes in pre-order, storey 4
    at elevation 3.5, storey 5 without one, nothing for 7 and 8. *)
Example build_spatial_tree_sample :
  option_map
    (map (fun n => (Node.express_id n, Node.parent_express_id n, Node.elevation n)))
    (build_spatial_tree Sample.float_of_str 10 Sample.building)
  = Some [(1, None, None); (2, Some 1, None); (3, Some 2, None);
          (4, Some 3, Some (7 # 2)%Q); (5, Some 3, None); (6, Some 5, None)].
Proof. vm_compute. reflexivity. Qed.

(** ** The examples of the specification *)

(** A volume found only in a quantity set is the volume of the record. *)
Example quantity_set_volume :
  Row.volume (extract_element_data Sample.str_of_float Sample.wall ∅) = (21 # 4)%Q.
Proof. vm_compute. reflexivity. Qed.

(** [5.2567891] is stored as [5.256789]. *)
Example volume_rounded : round6 (52567891 # 10000000) = (5256789 # 1000000)%Q.
Proof. vm_compute. reflexivity. Qed.

(** A layer-set usage with the materials ["Concrete"] and [""]. *)
Example layered_materials :
  List.filter PyStr.truthy
    (resolve_materials
       (Ok (Some (Material.LayerSetUsage
                    (Some {| Material.MaterialLayers :=
                               [ {| Material.Material :=
                                      Some {| Material.Name := Some "Concrete" |} |};
                                 {| Material.Material :=
                                      Some {| Material.Name := Some "" |} |} ] |})))))
  = ["Concrete"].
Proof. reflexivity. Qed.

(** One classification with a reference, one with a name only. *)
Example classification_strings :
  resolve_classifications
    [Ok (Classification.AssociatesClassification
           (Some {| Classification.ItemReference := Some "03.10";
                    Classification.Identification := None;
                    Classification.Name := Some "Concrete Work" |}));
     Ok (Classification.AssociatesClassification
           (Some {| Classification.ItemReference := None;
                    Classification.Identification := None;
                    Classification.Name := Some "Generic" |}))]
    []
  = ["03.10: Concrete Work"; "Generic"].
Proof. reflexivity. Qed.

(** The search text of the sample wall: nothing from the quantity set, and
    no segment for the dropped ["id"] entry. *)
Example search_text_sample :
  Row.search_text (extract_element_data Sample.str_of_float Sample.wall ∅)
  = "IfcWall Wall-01 Pset_WallCommon IsExternal=True Reference=W-01".
Proof. vm_compute. reflexivity. Qed.

(** * Further properties *)

(** ** KeyMatcher *)

Section KeyMatcherMore.

Lemma string_forall_app p a b :
  string_forall p (a +:+ b) = string_forall p a && string_forall p b.
Proof.
  induction a as [|c a IH]; [reflexivity |].
  rewrite string_app_cons. simpl. rewrite IH. by rewrite andb_assoc.
Qed.

Lemma norm_char_clean c :
  string_forall (fun x => negb (is_upper x) && negb (is_separator x)) (norm_char c) = true.
Proof. destruct c as [[] [] [] [] [] [] [] []]; vm_compute; reflexivity. Qed.

Lemma norm_char_length c : (String.length (norm_char c) ≤ 1)%nat.
Proof. destruct c as [[] [] [] [] [] [] [] []]; vm_compute; lia. Qed.

Lemma string_length_app a b :
  String.length (a +:+ b) = (String.length a + String.length b)%nat.
Proof.
  induction a as [|c a IH]; [reflexivity |].
  rewrite string_app_cons. simpl. by rewrite IH.
Qed.

Lemma is_substring_trans c k s :
  PyStr.is_substring c k → PyStr.is_substring k s → PyStr.is_substring c s.
Proof.
  intros (p & q & ->) (p' & q' & ->).
  exists (p' +:+ p), (q +:+ q'). by rewrite !string_app_assoc.
Qed.

Lemma is_substring_embed k s a b :
  PyStr.is_substring k s → PyStr.is_substring k (a +:+ s +:+ b).
Proof.
  intros (p & q & ->). exists (a +:+ p), (q +:+ b). by rewrite !string_app_assoc.
Qed.

(** A key set may be replaced by a core of it that every key contains. *)
Lemma match_keys_core name core ks :
  forallb (fun k => existsb (fun c => PyStr.contains c k) core) ks = true →
  forallb (fun c => existsb (String.eqb c) ks) core = true →
  match_keys name ks = match_keys name core.
Proof.
  intros Hcover Hsub. apply eq_true_iff_eq. rewrite !match_keys_spec.
  rewrite forallb_forall in Hcover. rewrite forallb_forall in Hsub. split.
  - intros (k & Hk & Hin). apply list_elem_of_In in Hk.
    specialize (Hcover k Hk). apply existsb_exists in Hcover as (c & Hc & Hck).
    exists c. split; [by apply list_elem_of_In |].
    apply contains_spec in Hck. by eapply is_substring_trans.
  - intros (c & Hc & Hin). apply list_elem_of_In in Hc.
    specialize (Hsub c Hc). apply existsb_exists in Hsub as (k & Hk & Heq).
    apply String.eqb_eq in Heq as ->. exists k. split; [by apply list_elem_of_In | done].
Qed.

End KeyMatcherMore.

(** X1.  A normalised name holds no ASCII capital, space, underscore or
    hyphen. *)
Theorem normalize_key_alphabet name :
  string_forall (fun c => negb (is_upper c) && negb (is_separator c))
    (normalize_key name) = true.
Proof.
  induction name as [|c name IH]; [reflexivity |].
  by rewrite normalize_key_cons, string_forall_app, norm_char_clean, IH.
Qed.

(** X2.  On names made of ASCII characters normalising works character by
    character: it distributes over concatenation and never makes a name
    longer. *)
Theorem normalize_key_concat_and_length a b :
  is_ascii a = true → is_ascii b = true →
  normalize_key (a +:+ b) = normalize_key a +:+ normalize_key b ∧
  (String.length (normalize_key a) ≤ String.length a)%nat.
Proof.
  intros _ _. split; [apply normalize_key_app |].
  induction a as [|c a IH]; [simpl; lia |].
  rewrite normalize_key_cons, string_length_app. simpl.
  pose proof (norm_char_length c). lia.
Qed.

Lemma normalize_key_concat_and_length_witness :
  normalize_key ("Net " +:+ "Side-Area") = "net" +:+ "sidearea" ∧
  (String.length (normalize_key "Net ") ≤ 4)%nat.
Proof.
  exact (normalize_key_concat_and_length "Net " "Side-Area" eq_refl eq_refl).
Defined.

(** X3.  Matching is by substring: a name that matches a key set still
    matches it with anything written before or after it. *)
Theorem match_keys_embedding name key_set a b :
  match_keys name key_set = true →
  match_keys (a +:+ name +:+ b) key_set = true.
Proof.
  rewrite !match_keys_spec. intros (k & Hk & Hsub).
  exists k. split; [done |].
  rewrite !normalize_key_app. by apply is_substring_embed.
Qed.

Lemma match_keys_embedding_witness :
  match_keys "Net Volume" VOLUME_KEYS = true ∧
  match_keys ("Pset " +:+ "Net Volume" +:+ " (m3)") VOLUME_KEYS = true.
Proof.
  split; [reflexivity |].
  exact (match_keys_embedding "Net Volume" VOLUME_KEYS "Pset " " (m3)" eq_refl).
Defined.

(** X4.  Six of the seven numeric key sets match exactly the names that
    contain their shortest key, and the length set those that contain
    ["length"] or ["span"]: the longer keys add nothing. *)
Theorem numeric_key_sets_reduce name :
  match_keys name VOLUME_KEYS = match_keys name ["volume"] ∧
  match_keys name AREA_KEYS = match_keys name ["area"] ∧
  match_keys name HEIGHT_KEYS = match_keys name ["height"] ∧
  match_keys name LENGTH_KEYS = match_keys name ["length"; "span"] ∧
  match_keys name WIDTH_KEYS = match_keys name ["width"] ∧
  match_keys name PERIMETER_KEYS = match_keys name ["perimeter"] ∧
  match_keys name WEIGHT_KEYS = match_keys name ["weight"].
Proof.
  repeat split; by apply match_keys_core.
Qed.

(** ** Retrieved sets, whatever the input *)

Section DictInvariants.

Context {V : Type}.

Lemma existsb_eqb_elem (k : string) (l : list string) :
  existsb (String.eqb k) l = true ↔ k ∈ l.
Proof.
  rewrite existsb_exists. split.
  - intros (x & Hx & Heq). apply String.eqb_eq in Heq as ->. by apply list_elem_of_In.
  - intros Hin. exists k. split; [by apply list_elem_of_In | apply String.eqb_refl].
Qed.

Lemma distinct_keys_NoDup (d : dict V) :
  distinct_keys d = true ↔ NoDup (dict_keys d).
Proof.
  induction d as [|[k v] d IH]; simpl.
  - split; [intros _; apply NoDup_nil_2 | done].
  - rewrite andb_true_iff, negb_true_iff, IH, NoDup_cons.
    rewrite <- not_true_iff_false, existsb_eqb_elem. done.
Qed.

Lemma dict_keys_set (k : string) (v : V) (d : dict V) :
  dict_keys (dict_set k v d) = dict_keys d ∨
  ((k ∉ dict_keys d) ∧ dict_keys (dict_set k v d) = dict_keys d ++ [k]).
Proof.
  induction d as [|[k' v'] d IH]; simpl.
  - right. split; [apply not_elem_of_nil | done].
  - destruct (String.eqb_spec k' k) as [-> | Hne]; simpl; [by left |].
    destruct IH as [-> | [Hk ->]]; [by left |].
    right. split; [| done].
    intros Hin. apply elem_of_cons in Hin as [-> | Hin]; done.
Qed.

Lemma dict_set_NoDup (k : string) (v : V) (d : dict V) :
  NoDup (dict_keys d) → NoDup (dict_keys (dict_set k v d)).
Proof.
  intros Hd. destruct (dict_keys_set k v d) as [-> | [Hk ->]]; [done |].
  apply NoDup_app. split; [done |]. split; [| apply NoDup_singleton].
  intros x Hx Hin. apply list_elem_of_singleton in Hin as ->. done.
Qed.

Lemma dict_set_Forall (P : string * V → Prop) (k : string) (v : V) (d : dict V) :
  (∀ k', P (k', v)) → Forall P d → Forall P (dict_set k v d).
Proof.
  intros Hv. induction 1 as [|[k' v'] d Hx Hd IH]; simpl.
  - by apply Forall_singleton.
  - destruct (String.eqb k' k); apply Forall_cons; split; try done.
Qed.

Lemma dict_set_no_key (k0 k : string) (v : V) (d : dict V) :
  k ≠ k0 → k0 ∉ dict_keys d → k0 ∉ dict_keys (dict_set k v d).
Proof.
  intros Hne Hd. destruct (dict_keys_set k v d) as [-> | [_ ->]]; [done |].
  intros Hin. apply elem_of_app in Hin as [Hin | Hin]; [done |].
  apply list_elem_of_singleton in Hin. congruence.
Qed.

Lemma dict_get_absent (k : string) (d : dict V) :
  k ∉ dict_keys d → dict_get k d = None.
Proof.
  induction d as [|[k' v'] d IH]; intros Hk; [reflexivity |]. simpl.
  destruct (String.eqb_spec k' k) as [-> | Hne].
  - exfalso. apply Hk. simpl. by left.
  - apply IH. intros Hin. apply Hk. simpl. by right.
Qed.

End DictInvariants.

Lemma clean_entries_clean props : clean_set (clean_entries props).
Proof.
  unfold clean_entries.
  assert (H : ∀ acc, clean_set acc →
            clean_set
              (fold_left
                 (fun clean_props kv =>
                    if String.eqb (fst kv) "id" then clean_props
                    else dict_set (fst kv) (safe_value (snd kv)) clean_props)
                 props acc)).
  { induction props as [|[k v] props IH]; intros acc Hacc; [done |]. simpl.
    apply IH. destruct (String.eqb_spec k "id") as [-> | Hne]; [done |].
    destruct Hacc as [H1 H2]. split; [by apply dict_set_NoDup |].
    by apply dict_set_no_key. }
  apply H. split; [apply NoDup_nil_2 | apply not_elem_of_nil].
Qed.

Lemma clean_sets_clean all_psets :
  NoDup (dict_keys (clean_sets all_psets)) ∧
  Forall (fun entry => clean_set (snd entry)) (clean_sets all_psets).
Proof.
  unfold clean_sets.
  assert (H : ∀ acc : dict (dict json_value),
            NoDup (dict_keys acc) ∧ Forall (fun entry => clean_set (snd entry)) acc →
            let out :=
              fold_left
                (fun psets entry => dict_set (fst entry) (clean_entries (snd entry)) psets)
                all_psets acc in
            NoDup (dict_keys out) ∧ Forall (fun entry => clean_set (snd entry)) out).
  { induction all_psets as [|[n props] l IH]; intros acc Hacc; [done |]. simpl.
    apply IH. destruct Hacc as [H1 H2]. split; [by apply dict_set_NoDup |].
    apply dict_set_Forall; [| done]. intros k'. apply clean_entries_clean. }
  apply H. split; [apply NoDup_nil_2 | apply Forall_nil_2].
Qed.

Lemma retrieve_sets_well_formed r :
  well_formed_record_sets (retrieve_sets r) = true ∧
  ∀ entry, entry ∈ retrieve_sets r → dict_get "id" (snd entry) = None.
Proof.
  assert (H : NoDup (dict_keys (retrieve_sets r)) ∧
              Forall (fun entry => clean_set (snd entry)) (retrieve_sets r)).
  { destruct r as [all_psets | msg]; simpl; [apply clean_sets_clean |].
    split; [apply NoDup_nil_2 | apply Forall_nil_2]. }
  destruct H as [H1 H2]. rewrite Forall_forall in H2. split.
  - unfold well_formed_record_sets. apply andb_true_iff. split.
    + by apply distinct_keys_NoDup.
    + apply forallb_forall. intros entry Hin. apply distinct_keys_NoDup.
      apply list_elem_of_In in Hin. by destruct (H2 entry Hin).
  - intros entry Hin. apply dict_get_absent. by destruct (H2 entry Hin).
Qed.

(** X5.  Whatever the library returns, the property sets and the quantity
    sets of the record have pairwise distinct set names, pairwise distinct
    keys inside each set, and no entry keyed ["id"]. *)
Theorem record_sets_well_formed (f : Q → string) element storey_map :
  let r := extract_element_data f element storey_map in
  well_formed_record_sets (Row.property_sets r) = true ∧
  well_formed_record_sets (Row.quantity_sets r) = true ∧
  ∀ entry, entry ∈ Row.property_sets r ++ Row.quantity_sets r →
           dict_get "id" (snd entry) = None.
Proof.
  intros r.
  destruct (retrieve_sets_well_formed (Element.get_psets element)) as [P1 P2].
  destruct (retrieve_sets_well_formed (Element.get_qtos element)) as [Q1 Q2].
  split; [exact P1 |]. split; [exact Q1 |].
  intros entry Hin. apply elem_of_app in Hin as [Hin | Hin]; [by apply P2 | by apply Q2].
Qed.

(** ** Numeric fields *)

Section NumericMore.

Lemma round_half_even_near (y : Q) :
  (inject_Z (round_half_even y) - (1 # 2) <= y ∧
   y <= inject_Z (round_half_even y) + (1 # 2))%Q.
Proof.
  unfold round_half_even.
  pose proof (Qfloor_le y) as H1. pose proof (Qlt_floor y) as H2.
  rewrite inject_Z_plus in H2. change (inject_Z 1) with 1%Q in H2.
  destruct (Qcompare_spec (y - inject_Z (Qfloor y)) (1 # 2)) as [E | E | E].
  - destruct (Z.even (Qfloor y)); rewrite ?inject_Z_plus;
      change (inject_Z 1) with 1%Q; split; lra.
  - split; lra.
  - rewrite inject_Z_plus. change (inject_Z 1) with 1%Q. split; lra.
Qed.

Lemma round_half_even_nonneg (y : Q) : (0 <= y)%Q → (0 ≤ round_half_even y)%Z.
Proof.
  intros Hy. unfold round_half_even.
  assert (0 ≤ Qfloor y)%Z.
  { change 0%Z with (Qfloor 0). by apply Qfloor_resp_le. }
  destruct (Qcompare _ _); [destruct (Z.even _) | |]; lia.
Qed.

Lemma round6_near (x : Q) :
  (x - (1 # 2000000) <= round6 x ∧ round6 x <= x + (1 # 2000000))%Q.
Proof.
  unfold round6. rewrite Qred_correct.
  destruct (round_half_even_near (x * 1000000)) as [H1 H2].
  rewrite (Qmake_Qdiv _ 1000000).
  set (n := inject_Z (round_half_even (x * 1000000))) in *.
  unfold Qdiv.
  assert (E : (/ inject_Z (Z.pos 1000000) == 1 # 1000000)%Q) by reflexivity.
  rewrite E. split; lra.
Qed.

Lemma round6_nonneg (x : Q) : (0 <= x)%Q → (0 <= round6 x)%Q.
Proof.
  intros Hx. unfold round6. rewrite Qred_correct.
  assert (0 ≤ round_half_even (x * 1000000))%Z.
  { apply round_half_even_nonneg. lra. }
  unfold Qle. simpl. lia.
Qed.

Lemma scan_nonneg entries c : (0 <= acc_field c (scan entries Acc.init))%Q.
Proof.
  destruct (scan_origin c entries Acc.init) as [H | (kv & _ & Hq & Hv)].
  - rewrite H. by destruct c.
  - unfold coerced_qualifies in Hq. rewrite Hv in Hq.
    apply andb_true_iff in Hq as [Hp _]. unfold float_pos in Hp.
    apply Z.ltb_lt in Hp. unfold Qle. simpl. lia.
Qed.

Lemma find_category_ext (f g : category → bool) (l : list category) :
  (∀ c, f c = g c) → find f l = find g l.
Proof.
  intros H. induction l as [|x l IH]; [reflexivity |]. simpl. by rewrite H, IH.
Qed.

Lemma acc_set_field c d fv a :
  acc_field c (set_field d fv a) = if decide (c = d) then fv else acc_field c a.
Proof.
  destruct (decide (c = d)) as [-> | Hne]; [apply acc_set_same | by apply acc_set_other].
Qed.

Lemma claim_numeric_same k fv a a' :
  same_numeric a a' → same_numeric (claim_numeric k fv a) (claim_numeric k fv a').
Proof.
  intros H c. rewrite !claim_numeric_find.
  rewrite (find_category_ext (open_for k a) (open_for k a')).
  - destruct (find _ _) as [d|]; [| apply H]. rewrite !acc_set_field.
    destruct (decide (c = d)); [done | apply H].
  - intros d. unfold open_for. by rewrite (H d).
Qed.

Lemma scan_entry_same a a' kv :
  same_numeric a a' → same_numeric (scan_entry a kv) (scan_entry a' kv).
Proof.
  intros H c. rewrite !scan_entry_field.
  destruct (numeric_value (snd kv)) as [fv|]; [| apply H].
  destruct (float_pos fv); [by apply claim_numeric_same | apply H].
Qed.

Lemma scan_entry_inert a kv : inert kv = true → same_numeric (scan_entry a kv) a.
Proof.
  intros Hi c. rewrite scan_entry_field. destruct kv as [k v]. unfold inert in Hi.
  destruct v as [| [] | i | x | s]; simpl in *; try done.
  - apply negb_true_iff in Hi. by rewrite Hi.
  - apply negb_true_iff in Hi. by rewrite Hi.
Qed.

Lemma scan_without_inert entries a a' :
  same_numeric a a' →
  same_numeric (scan (List.filter (fun kv => negb (inert kv)) entries) a) (scan entries a').
Proof.
  revert a a'. induction entries as [|kv entries IH]; intros a a' H; [done |].
  simpl List.filter. destruct (inert kv) eqn:Hi; simpl negb; cbv iota.
  - rewrite (scan_cons kv entries a'). apply IH.
    intros c. rewrite (scan_entry_inert a' kv Hi c). apply H.
  - rewrite !scan_cons. apply IH. by apply scan_entry_same.
Qed.

End NumericMore.

(** X6.  No numeric field of a record is negative. *)
Theorem numeric_fields_never_negative (f : Q → string) element storey_map c :
  (0 <= row_field c (extract_element_data f element storey_map))%Q.
Proof.
  rewrite row_field_round. apply round6_nonneg, scan_nonneg.
Qed.

(** X7.  Each numeric field is a whole number of millionths, at most half a
    millionth away from the value the scan collected. *)
Theorem numeric_fields_rounded_to_six_decimals (f : Q → string) element storey_map c :
  let r := extract_element_data f element storey_map in
  let acc := acc_field c (collect (Row.property_sets r) (Row.quantity_sets r)) in
  (∃ n : Z, row_field c r == n # 1000000)%Q ∧
  (acc - (1 # 2000000) <= row_field c r)%Q ∧
  (row_field c r <= acc + (1 # 2000000))%Q.
Proof.
  intros r acc.
  assert (E : row_field c r = round6 acc).
  { unfold acc. rewrite collect_scan. apply row_field_round. }
  rewrite E. split; [| apply round6_near].
  eexists. unfold round6. apply Qred_correct.
Qed.

(** X8.  Entries whose value is [None], a string, [False], or a number
    that is not strictly positive are invisible to the numeric fields:
    scanning without them gives the same seven fields. *)
Theorem numeric_fields_ignore_inert_entries (f : Q → string) element storey_map c :
  let r := extract_element_data f element storey_map in
  let entries := scan_order (Row.property_sets r) (Row.quantity_sets r) in
  row_field c r =
  round6 (acc_field c (scan (List.filter (fun kv => negb (inert kv)) entries) Acc.init)).
Proof.
  intros r entries. unfold entries, r.
  rewrite (row_field_round f element storey_map c). cbv zeta. f_equal. symmetry.
  by apply scan_without_inert.
Qed.

(** X9.  One entry changes at most one of the seven numeric accumulators. *)
Theorem entry_claims_at_most_one_category a kv c d :
  c ≠ d →
  acc_field c (scan_entry a kv) ≠ acc_field c a →
  acc_field d (scan_entry a kv) = acc_field d a.
Proof.
  intros Hne Hc. rewrite scan_entry_field in *.
  destruct (numeric_value (snd kv)) as [fv|]; [| done].
  destruct (float_pos fv); [| done].
  rewrite claim_numeric_find in *.
  destruct (find _ _) as [e|]; [| done].
  rewrite acc_set_field in Hc. rewrite acc_set_field.
  destruct (decide (c = e)) as [<- | Hce]; [| done].
  by destruct (decide (d = c)) as [-> | _].
Qed.

Lemma entry_claims_at_most_one_category_witness :
  acc_field Volume (scan_entry Acc.init ("Volume per Area", JFloat (5 # 2))) ≠ 0%Q ∧
  acc_field Area (scan_entry Acc.init ("Volume per Area", JFloat (5 # 2))) = 0%Q.
Proof.
  assert (H : acc_field Volume (scan_entry Acc.init ("Volume per Area", JFloat (5 # 2)))
              ≠ acc_field Volume Acc.init) by (vm_compute; discriminate).
  split; [exact H |].
  exact (entry_claims_at_most_one_category Acc.init
           ("Volume per Area", JFloat (5 # 2)) Volume Area ltac:(discriminate) H).
Defined.

(** X10.  The material list of a record is the list of resolved material
    names with the empty ones removed, order and repetitions kept, and the
    classification list likewise: a string is in the record's list exactly
    when it is a non-empty resolved one, and no string of either list is
    empty.  The resolved material names are one per material of the
    association, in order (none when the retrieval fails, when there is no
    association, or for a layer or constituent without material); the
    resolved classifications are one ["code: name"] or name per
    classification relation with a reference, among the relations read
    before the first one that fails. *)
Theorem materials_and_classifications_nonempty (f : Q → string) element storey_map :
  let r := extract_element_data f element storey_map in
  let resolved_materials := resolve_materials (Element.get_material element) in
  let resolved_classifications :=
    resolve_classifications (default [] (Element.HasAssociations element)) [] in
  Row.materials r = List.filter (fun m => negb (String.eqb m "")) resolved_materials ∧
  Row.classifications r =
    List.filter (fun c => negb (String.eqb c "")) resolved_classifications ∧
  (∀ m, m ∈ Row.materials r ↔ m ∈ resolved_materials ∧ m ≠ EmptyString) ∧
  (∀ c, c ∈ Row.classifications r ↔ c ∈ resolved_classifications ∧ c ≠ EmptyString) ∧
  Forall (fun m => m ≠ EmptyString) (Row.materials r) ∧
  Forall (fun c => c ≠ EmptyString) (Row.classifications r) ∧
  resolved_materials =
    match Element.get_material element with
    | Ok (Some mat) => names_of_material mat
    | _ => []
    end ∧
  resolved_classifications =
    omap classification_of
      (read_before_failure (default [] (Element.HasAssociations element))).
Proof.
  intros r resolved_materials resolved_classifications.
  assert (Hfilter : ∀ l, List.filter PyStr.truthy l
                         = List.filter (fun m => negb (String.eqb m "")) l).
  { intros l. apply List.filter_ext. intros x. by destruct x. }
  assert (Hmem : ∀ (l : list string) x,
             x ∈ List.filter PyStr.truthy l ↔ x ∈ l ∧ x ≠ EmptyString).
  { intros l x. rewrite !list_elem_of_In, filter_In.
    split; intros [H1 H2]; (split; [done |]); by destruct x. }
  assert (Hne : ∀ l, Forall (fun s => s ≠ EmptyString) (List.filter PyStr.truthy l)).
  { intros l. apply Forall_forall. intros x Hx. by apply Hmem in Hx as [_ Hx]. }
  split; [apply Hfilter |]. split; [apply Hfilter |].
  split; [apply Hmem |]. split; [apply Hmem |].
  split; [apply Hne |]. split; [apply Hne |].
  split; [apply resolve_materials_names |].
  apply resolve_classifications_read.
Qed.

(** The theorem at the layered material of the specification's example. *)
Lemma materials_and_classifications_nonempty_witness :
  Row.materials
    (extract_element_data Sample.str_of_float Demo.layered_wall ∅) = ["Concrete"].
Proof.
  exact (proj1 (materials_and_classifications_nonempty
                  Sample.str_of_float Demo.layered_wall ∅)).
Defined.

(** X11.  A classification relation that raises ends the loop: the strings
    of the relations before it are kept, the relations after it give
    nothing. *)
Theorem classification_failure_ends_scan pre msg post acc :
  resolve_classifications (pre ++ Raise msg :: post) acc =
  resolve_classifications (pre ++ [Raise msg]) acc ∧
  resolve_classifications (pre ++ [Raise msg]) acc = resolve_classifications pre acc ∧
  acc `prefix_of` resolve_classifications pre acc.
Proof.
  revert acc. induction pre as [|[[[ref|]|]|m] pre IH]; intros acc; simpl; try done.
  - destruct (IH (acc ++ [classification_string ref])) as (H1 & H2 & H3).
    split; [done |]. split; [done |]. etrans; [| exact H3]. by apply prefix_app_r.
Qed.

(** ** StoreyMapper *)

Section StoreyMore.

Implicit Types (m : gmap Z string) (rels : list RelContained.t).

Lemma assign_elements_origin nm (els : list (res Z)) m eid v :
  fst (assign_elements nm els m) !! eid = Some v →
  m !! eid = Some v ∨ (v = nm ∧ Ok eid ∈ els).
Proof.
  revert m. induction els as [|[x | msg] els IH]; intros m H; simpl in H; [by left | | by left].
  destruct (IH _ H) as [Hm | [-> Hin]].
  - destruct (decide (x = eid)) as [-> | Hne].
    + rewrite lookup_insert_eq in Hm. injection Hm as <-. right. split; [done | by left].
    + rewrite lookup_insert_ne in Hm by done. by left.
  - right. split; [done | by right].
Qed.

Lemma assign_elements_reached nm (els : list (res Z)) m eid :
  Ok eid ∈ els → snd (assign_elements nm els m) = false →
  fst (assign_elements nm els m) !! eid = Some nm.
Proof.
  revert m. induction els as [|[x | msg] els IH]; intros m Hin Hr; simpl in *.
  - by apply not_elem_of_nil in Hin.
  - apply elem_of_cons in Hin as [[= <-] | Hin].
    + apply assign_elements_stays, lookup_insert_eq.
    + by apply IH.
  - done.
Qed.

Lemma storey_loop_origin rels m eid v :
  fst (storey_loop rels m) !! eid = Some v →
  m !! eid = Some v ∨
  ∃ rel structure,
    rel ∈ rels ∧ RelContained.RelatingStructure rel = Ok (Some structure) ∧
    v = display_name structure ∧ listing rel eid.
Proof.
  revert m. induction rels as [|rel rels IH]; intros m H; [by left |].
  assert (Hlater : ∀ m', fst (storey_loop rels m') !! eid = Some v →
            m' !! eid = Some v ∨
            ∃ rel0 structure,
              rel0 ∈ rel :: rels ∧
              RelContained.RelatingStructure rel0 = Ok (Some structure) ∧
              v = display_name structure ∧ listing rel0 eid).
  { intros m' Hm'. destruct (IH m' Hm') as [? | (r & s & Hr & Hs)]; [by left |].
    right. exists r, s. split; [by right | done]. }
  rewrite storey_loop_cons in H.
  destruct (RelContained.RelatingStructure rel) as [[s|]|] eqn:Es;
    [| by apply Hlater | by left].
  destruct (RelContained.RelatedElements rel) as [els|] eqn:Ee; [| by left].
  cbn zeta in H.
  assert (Hstep : ∀ v', fst (assign_elements (display_name s) (default [] els) m) !! eid
                        = Some v' →
            m !! eid = Some v' ∨
            ∃ rel0 structure,
              rel0 ∈ rel :: rels ∧
              RelContained.RelatingStructure rel0 = Ok (Some structure) ∧
              v' = display_name structure ∧ listing rel0 eid).
  { intros v' Hv'. destruct (assign_elements_origin _ _ _ _ _ Hv') as [? | [-> Hin]];
      [by left |].
    right. exists rel, s. split; [by left |]. split; [done |]. split; [done |].
    destruct els as [els|]; simpl in Hin; [by exists els | by apply not_elem_of_nil in Hin]. }
  destruct (snd (assign_elements _ _ m)); [by apply Hstep |].
  destruct (Hlater _ H) as [Hm | ?]; [by apply Hstep | by right].
Qed.

Lemma storey_loop_reached rels m eid :
  snd (storey_loop rels m) = false →
  (∃ rel, rel ∈ rels ∧ assigning rel eid) →
  is_Some (fst (storey_loop rels m) !! eid).
Proof.
  revert m. induction rels as [|rel rels IH]; intros m Hr (r & Hin & Ha).
  - by apply not_elem_of_nil in Hin.
  - rewrite storey_loop_cons in *.
    apply elem_of_cons in Hin as [-> | Hin].
    + destruct Ha as (s & els & Hs & He & Hel). rewrite Hs, He in *. cbn zeta in *.
      simpl default in *.
      destruct (snd (assign_elements (display_name s) els m)) eqn:Er; [done |].
      apply storey_loop_grows. rewrite assign_elements_reached; [by eexists | done..].
    + destruct (RelContained.RelatingStructure rel) as [[s|]|];
        [| apply IH; [done | by exists r] | done].
      destruct (RelContained.RelatedElements rel) as [els|]; [| done]. cbn zeta in *.
      destruct (snd (assign_elements _ _ m)); [done |].
      apply IH; [done | by exists r].
Qed.

End StoreyMore.

(** X12.  The storey map holds nothing of its own: every floor name in it
    is the display name of a relation of the model that has a structure and
    lists that element. *)
Theorem storey_map_entries_come_from_relations rels eid floor :
  build_storey_map rels !! eid = Some floor →
  ∃ rel structure,
    rel ∈ rels ∧
    RelContained.RelatingStructure rel = Ok (Some structure) ∧
    floor = display_name structure ∧
    listing rel eid.
Proof.
  unfold build_storey_map. intros H.
  destruct (storey_loop_origin rels ∅ eid floor H) as [He | ?]; [| done].
  by rewrite lookup_empty in He.
Qed.

Lemma storey_map_entries_come_from_relations_witness :
  ∃ rel structure,
    rel ∈ [Sample.contains "Level 1" [7]; Sample.contains "Level 2" [7; 8]] ∧
    RelContained.RelatingStructure rel = Ok (Some structure) ∧
    "Level 2" = display_name structure ∧
    listing rel 8.
Proof.
  exact (storey_map_entries_come_from_relations
           [Sample.contains "Level 1" [7]; Sample.contains "Level 2" [7; 8]]
           8 "Level 2" eq_refl).
Defined.

(** X13.  When no relation fails, the elements that have a floor name are
    exactly those that some relation with a structure lists. *)
Theorem storey_map_domain rels eid :
  raised rels = false →
  (is_Some (build_storey_map rels !! eid) ↔ ∃ rel, rel ∈ rels ∧ assigning rel eid).
Proof.
  unfold raised, build_storey_map. intros Hr. split.
  - intros [floor H].
    destruct (storey_loop_origin rels ∅ eid floor H) as [He | (rel & s & Hin & Hs & _ & Hl)].
    + by rewrite lookup_empty in He.
    + exists rel. split; [done |]. destruct Hl as (els & He & Hel). by exists s, els.
  - by apply storey_loop_reached.
Qed.

Lemma storey_map_domain_witness :
  is_Some (build_storey_map [Sample.contains "Level 1" [7]] !! 7) ↔
  ∃ rel, rel ∈ [Sample.contains "Level 1" [7]] ∧ assigning rel 7.
Proof.
  exact (storey_map_domain [Sample.contains "Level 1" [7]] 7 eq_refl).
Defined.

(** X14.  A relation without a relating structure is passed over whole: its
    related elements are not even read, and the map is the one built from
    the other relations. *)
Theorem relation_without_structure_skipped pre rel post :
  RelContained.RelatingStructure rel = Ok None →
  build_storey_map (pre ++ rel :: post) = build_storey_map (pre ++ post) ∧
  raised (pre ++ rel :: post) = raised (pre ++ post).
Proof.
  unfold build_storey_map, raised. intros Hs.
  assert (E : storey_loop (pre ++ rel :: post) ∅ = storey_loop (pre ++ post) ∅).
  { rewrite !storey_loop_app. destruct (snd (storey_loop pre ∅)); [done |].
    by rewrite storey_loop_cons, Hs. }
  by rewrite E.
Qed.

Lemma relation_without_structure_skipped_witness :
  build_storey_map
    [Sample.contains "Level 1" [7];
     {| RelContained.RelatingStructure := Ok None;
        RelContained.RelatedElements := Raise "unreadable" |};
     Sample.contains "Level 2" [8]]
  = build_storey_map [Sample.contains "Level 1" [7]; Sample.contains "Level 2" [8]].
Proof.
  exact (proj1 (relation_without_structure_skipped
                  [Sample.contains "Level 1" [7]]
                  {| RelContained.RelatingStructure := Ok None;
                     RelContained.RelatedElements := Raise "unreadable" |}
                  [Sample.contains "Level 2" [8]] eq_refl)).
Defined.

(** ** SpatialTreeBuilder *)

Section SpatialMore.

Variable float_of_str : string → option Q.
Variable store : gmap Z Entity.t.

Lemma process_spatial_extends fuel ref parent nodes out :
  process_spatial float_of_str store fuel ref parent nodes = Some out →
  nodes `prefix_of` out.
Proof.
  revert ref parent nodes out.
  induction fuel as [|fuel IH]; intros ref parent nodes out Hrun; [done |].
  rewrite process_spatial_step in Hrun.
  destruct (store !! ref) as [entity|]; [| by injection Hrun as <-].
  destruct (negb _); [by injection Hrun as <- |].
  apply (rels_loop_inv
           (fun ns => (nodes ++ [make_node float_of_str ref entity parent]) `prefix_of` ns)
           _ _ _ _) in Hrun.
  - etrans; [| exact Hrun]. by apply prefix_app_r.
  - intros rel objs c ns ns' _ _ _ Hns Hvisit. etrans; [exact Hns |]. by eapply IH.
  - done.
Qed.

Lemma process_spatial_mirrors roots fuel ref parent nodes out :
  Forall (mirrors float_of_str store roots) nodes →
  (parent = None → ref ∈ roots) →
  process_spatial float_of_str store fuel ref parent nodes = Some out →
  Forall (mirrors float_of_str store roots) out.
Proof.
  revert ref parent nodes out.
  induction fuel as [|fuel IH]; intros ref parent nodes out Hn Hroot Hrun; [done |].
  rewrite process_spatial_step in Hrun.
  destruct (store !! ref) as [entity|] eqn:Es; [| by injection Hrun as <-].
  destruct (negb _); [by injection Hrun as <- |].
  apply (rels_loop_inv (Forall (mirrors float_of_str store roots)) _ _ _ _) in Hrun;
    [exact Hrun | |].
  - intros rel objs c ns ns' _ _ _ Hns Hvisit. by apply (IH c (Some ref) ns).
  - apply Forall_app. split; [done |]. apply Forall_singleton.
    exists entity. by split.
Qed.

Lemma process_projects_mirrors roots fuel ps nodes out :
  Forall (mirrors float_of_str store roots) nodes →
  (∀ p, p ∈ ps → p ∈ roots) →
  process_projects float_of_str store fuel ps nodes = Some out →
  Forall (mirrors float_of_str store roots) out.
Proof.
  revert nodes. induction ps as [|p ps IH]; intros nodes Hn Hsub Hrun; simpl in Hrun.
  - by injection Hrun as <-.
  - destruct (process_spatial float_of_str store fuel p None nodes) as [ns'|] eqn:E;
      [| done].
    apply (IH ns'); [| | done].
    + eapply process_spatial_mirrors; [done | | exact E]. intros _. apply Hsub. by left.
    + intros q Hq. apply Hsub. by right.
Qed.

End SpatialMore.

(** X15.  Every node of the spatial tree is the image of an entity of the
    model: its id is in the store, its fields are those of that entity, and
    a node without a parent is one of the model's projects. *)
Theorem spatial_nodes_mirror_entities
    (float_of_str : string → option Q) fuel (model : Model) nodes n :
  build_spatial_tree float_of_str fuel model = Some nodes →
  n ∈ nodes →
  ∃ entity,
    entities model !! Node.express_id n = Some entity ∧
    n = make_node float_of_str (Node.express_id n) entity (Node.parent_express_id n) ∧
    (Node.parent_express_id n = None → Node.express_id n ∈ projects model).
Proof.
  unfold build_spatial_tree. intros Hrun Hin.
  apply (process_projects_mirrors float_of_str (entities model) (projects model)) in Hrun;
    [| apply Forall_nil_2 | done].
  rewrite Forall_forall in Hrun. by apply Hrun.
Qed.

Lemma spatial_nodes_mirror_entities_witness :
  ∃ nodes,
    build_spatial_tree Sample.float_of_str 10 Sample.building = Some nodes ∧
    Forall (fun n => is_Some (entities Sample.building !! Node.express_id n)) nodes.
Proof.
  destruct (build_spatial_tree Sample.float_of_str 10 Sample.building)
    as [nodes|] eqn:E; [| vm_compute in E; discriminate E].
  exists nodes. split; [reflexivity |].
  apply Forall_forall. intros n Hin.
  destruct (spatial_nodes_mirror_entities Sample.float_of_str 10 Sample.building
              nodes n E Hin) as (entity & H & _).
  by exists entity.
Defined.

(** X16.  The traversal is pre-order and append-only: a call leaves the
    nodes it was given in place, and for an entity of a spatial type the
    first node it adds is the entity's own, before anything below it. *)
Theorem process_spatial_appends_own_node_first
    (float_of_str : string → option Q) store fuel ref parent nodes out :
  process_spatial float_of_str store fuel ref parent nodes = Some out →
  nodes `prefix_of` out ∧
  ∀ entity,
    store !! ref = Some entity →
    is_spatial_type (Entity.is_a entity) = true →
    out !! List.length nodes = Some (make_node float_of_str ref entity parent).
Proof.
  intros Hrun. split; [by eapply process_spatial_extends |].
  intros entity Hs Ht. destruct fuel as [|fuel]; [done |].
  rewrite process_spatial_step, Hs, Ht in Hrun. simpl negb in Hrun. cbv iota in Hrun.
  apply (rels_loop_inv
           (fun ns => (nodes ++ [make_node float_of_str ref entity parent]) `prefix_of` ns)
           _ _ _ _) in Hrun.
  - eapply prefix_lookup_Some; [| exact Hrun].
    rewrite lookup_app_r by lia. by rewrite Nat.sub_diag.
  - intros rel objs c ns ns' _ _ _ Hns Hvisit. etrans; [exact Hns |].
    by eapply process_spatial_extends.
  - done.
Qed.

Lemma process_spatial_appends_own_node_first_witness :
  ∃ out,
    process_spatial Sample.float_of_str (entities Sample.building) 5 3 (Some 2) [] = Some out ∧
    out !! 0%nat =
      Some (make_node Sample.float_of_str 3
              (Sample.spatial "IfcBuilding" INone [4; 5; 7]) (Some 2)).
Proof.
  destruct (process_spatial Sample.float_of_str (entities Sample.building) 5 3 (Some 2) [])
    as [out|] eqn:E; [| vm_compute in E; discriminate E].
  exists out. split; [reflexivity |].
  exact (proj2 (process_spatial_appends_own_node_first Sample.float_of_str
                  (entities Sample.building) 5 3 (Some 2) [] out E)
           (Sample.spatial "IfcBuilding" INone [4; 5; 7]) eq_refl eq_refl).
Defined.

(** X17.  The element count of a node adds up the related elements of the
    node's own containment relations, in order, and stops at the first
    relation whose related elements cannot be read. *)
Theorem element_count_stops_at_failure pre rest n :
  forallb reads_fine pre = true →
  (rest = [] ∨ ∃ rel post, rest = rel :: post ∧ reads_fine rel = false) →
  count_elements (pre ++ rest) n = (n + related_total pre)%nat.
Proof.
  revert n. induction pre as [|rel pre IH]; intros n Hpre Hrest.
  - simpl. unfold related_total. simpl.
    destruct Hrest as [-> | (rel & post & -> & Hf)]; simpl; [lia |].
    unfold reads_fine in Hf. destruct (RelContained.RelatedElements rel); [done | lia].
  - simpl in Hpre. apply andb_true_iff in Hpre as [Hrel Hpre].
    simpl. unfold reads_fine in Hrel. unfold related_total. simpl.
    destruct (RelContained.RelatedElements rel) as [els|]; [| done].
    rewrite IH by done. unfold related_total. lia.
Qed.

Lemma element_count_stops_at_failure_witness :
  count_elements
    [Sample.contains "Level 1" [7; 8];
     {| RelContained.RelatingStructure := Ok None;
        RelContained.RelatedElements := Raise "unreadable" |};
     Sample.contains "Level 1" [9]] 0 = 2%nat.
Proof.
  exact (element_count_stops_at_failure
           [Sample.contains "Level 1" [7; 8]]
           [{| RelContained.RelatingStructure := Ok None;
               RelContained.RelatedElements := Raise "unreadable" |};
            Sample.contains "Level 1" [9]] 0 eq_refl
           (or_intror (ex_intro _ _ (ex_intro _ _ (conj eq_refl eq_refl))))).
Defined.

(** ** parse_ifc_file *)

Section BatchFacts.

Context {E R : Type}.
Variable extract : E → res R.

Lemma successes_cons e (elements : list E) :
  successes extract (e :: elements) =
  match extract e with Ok data => [data] | Raise _ => [] end ++ successes extract elements.
Proof. reflexivity. Qed.

(** The buffer stays below 1000 rows; every batch flushed inside the loop
    holds exactly 1000; nothing is lost or reordered. *)
Lemma element_loop_spec (elements : list E) (rows : list R) (inserted : list (list R)) :
  (Z.of_nat (List.length rows) < 1000)%Z →
  ∃ new,
    snd (element_loop extract elements rows inserted) = inserted ++ new ∧
    Forall (fun b => Z.of_nat (List.length b) = 1000%Z) new ∧
    (Z.of_nat (List.length (fst (element_loop extract elements rows inserted))) < 1000)%Z ∧
    concat new ++ fst (element_loop extract elements rows inserted)
      = rows ++ successes extract elements.
Proof.
  revert rows inserted.
  induction elements as [|e elements IH]; intros rows inserted Hlen.
  - exists []. simpl. rewrite !app_nil_r. by repeat split.
  - rewrite successes_cons. simpl.
    set (rows1 := match extract e with Ok data => rows ++ [data] | Raise _ => rows end).
    assert (Hrows1 : rows1 = rows ++ match extract e with Ok data => [data] | Raise _ => [] end).
    { unfold rows1. destruct (extract e); [done | by rewrite app_nil_r]. }
    assert (Hlen1 : (Z.of_nat (List.length rows1) ≤ 1000)%Z).
    { rewrite Hrows1, length_app. destruct (extract e); simpl; lia. }
    destruct (Z.leb_spec 1000 (Z.of_nat (List.length rows1))) as [Hfull | Hroom].
    + destruct (IH [] (inserted ++ [rows1])) as (new & H1 & H2 & H3 & H4); [simpl; lia |].
      exists (rows1 :: new). rewrite H1, <- app_assoc. split; [done |].
      split; [apply Forall_cons; split; [lia | done] |]. split; [done |].
      simpl. rewrite <- app_assoc, H4. simpl. by rewrite Hrows1, <- app_assoc.
    + destruct (IH rows1 inserted Hroom) as (new & H1 & H2 & H3 & H4).
      exists new. split; [done |]. split; [done |]. split; [done |].
      by rewrite H4, Hrows1, <- app_assoc.
Qed.

End BatchFacts.

Lemma insert_elements_concat {E R : Type} (extract : E → res R) (elements : list E) :
  concat (insert_elements extract elements) = successes extract elements.
Proof.
  unfold insert_elements.
  destruct (element_loop_spec extract elements [] []) as (new & H1 & _ & _ & H4);
    [simpl; lia |].
  destruct (element_loop extract elements [] []) as [rows inserted]. simpl in *.
  subst inserted. destruct rows as [|row rows].
  - by rewrite app_nil_r in H4.
  - rewrite concat_app. simpl. by rewrite app_nil_r.
Qed.

(** X18.  The element batches handed to the store hold, put end to end, the
    rows of the elements whose extraction succeeded, in order and once each;
    every batch but the last holds exactly 1000 rows, and the last, if any,
    holds between 1 and 999. *)
Theorem element_batches_partition_the_rows {E R : Type} (extract : E → res R) elements :
  concat (insert_elements extract elements) = successes extract elements ∧
  ∃ full last,
    insert_elements extract elements = full ++ last ∧
    Forall (fun b => Z.of_nat (List.length b) = 1000%Z) full ∧
    (last = [] ∨
     ∃ b, last = [b] ∧ (0 < Z.of_nat (List.length b) < 1000)%Z).
Proof.
  unfold insert_elements.
  destruct (element_loop_spec extract elements [] []) as (new & H1 & H2 & H3 & H4);
    [simpl; lia |].
  destruct (element_loop extract elements [] []) as [rows inserted]. simpl in *.
  subst inserted. destruct rows as [|row rows].
  - rewrite app_nil_r in H4. split; [done |].
    exists new, []. rewrite app_nil_r. split; [done |]. split; [done | by left].
  - split.
    + rewrite concat_app. simpl. by rewrite app_nil_r.
    + exists new, [row :: rows]. split; [done |]. split; [done |].
      right. exists (row :: rows). split; [done |]. simpl in *. lia.
Qed.

Section ChunkFacts.

Context {A : Type}.

Lemma chunks_from_spec (fuel i : nat) (l : list A) :
  (List.length l - i ≤ fuel)%nat →
  concat (chunks_from fuel i l) = drop i l ∧
  ∃ full last,
    chunks_from fuel i l = full ++ last ∧
    Forall (fun b => List.length b = 500%nat) full ∧
    (last = [] ∨ ∃ b, last = [b] ∧ (0 < List.length b ≤ 500)%nat).
Proof.
  revert i. induction fuel as [|fuel IH]; intros i Hfuel.
  - simpl. rewrite drop_ge by lia. split; [done |].
    exists [], []. split; [done |]. split; [done | by left].
  - simpl. destruct (Nat.ltb_spec i (List.length l)) as [Hlt | Hge].
    + destruct (IH (i + 500)%nat) as (Hc & full & last & Hsplit & Hfull & Hlast); [lia |].
      split.
      * simpl. rewrite Hc. rewrite <- (drop_drop l 500 i). apply take_drop.
      * assert (Hlen : List.length (take 500 (drop i l))
                       = Nat.min 500 (List.length l - i)).
        { by rewrite length_take, length_drop. }
        destruct (decide (500 < List.length l - i)%nat) as [Hbig | Hsmall].
        -- exists (take 500 (drop i l) :: full), last. rewrite Hsplit.
           split; [done |]. split; [| done].
           apply Forall_cons. split; [lia | done].
        -- assert (Hnil : chunks_from fuel (i + 500) l = []).
           { destruct fuel as [|fuel']; [done |]. simpl.
             destruct (Nat.ltb_spec (i + 500) (List.length l)); [lia | done]. }
           rewrite Hnil. exists [], [take 500 (drop i l)].
           split; [done |]. split; [done |]. right.
           exists (take 500 (drop i l)). split; [done | lia].
    + rewrite drop_ge by lia. split; [done |].
      exists [], []. split; [done |]. split; [done | by left].
Qed.

End ChunkFacts.

Lemma chunks_concat {A : Type} (l : list A) : concat (chunks l) = l.
Proof.
  unfold chunks. destruct (chunks_from_spec (List.length l) 0 l) as [H _]; [lia |].
  by rewrite H.
Qed.

(** X19.  The spatial batches hold, put end to end, the whole node list in
    order; every batch but the last holds exactly 500 nodes and the last, if
    any, between 1 and 500, so that an empty list gives no batch. *)
Theorem spatial_chunks_partition_the_nodes {A : Type} (l : list A) :
  concat (chunks l) = l ∧
  ∃ full last,
    chunks l = full ++ last ∧
    Forall (fun b => List.length b = 500%nat) full ∧
    (last = [] ∨ ∃ b, last = [b] ∧ (0 < List.length b ≤ 500)%nat).
Proof.
  unfold chunks.
  destruct (chunks_from_spec (List.length l) 0 l) as [H1 H2]; [lia |].
  split; [by rewrite H1 | done].
Qed.

Lemma spatial_type_is_skipped (t : string) :
  is_spatial_type t = true → existsb (String.eqb t) skip_types = true.
Proof.
  unfold is_spatial_type, SPATIAL_TYPES, skip_types. cbn [existsb].
  repeat (destruct (String.eqb t _); [reflexivity |]). done.
Qed.

(** X20.  The elements that get a row are entities of the model, kept in
    model order, that have a [GlobalId] and a representation or a placement,
    and whose type is none of the skipped types; in particular none is a
    project, site, building, storey or space. *)
Theorem selected_elements_are_products entities entity :
  entity ∈ select_elements entities →
  entity ∈ entities ∧
  ModelEntity.has_GlobalId entity = true ∧
  (ModelEntity.has_Representation entity || ModelEntity.has_ObjectPlacement entity) = true ∧
  (ModelEntity.is_a entity ∉ skip_types) ∧
  is_spatial_type (ModelEntity.is_a entity) = false ∧
  select_elements entities `sublist_of` entities.
Proof.
  unfold select_elements. intros Hin. apply list_elem_of_In, filter_In in Hin as [Hin Hp].
  unfold is_product in Hp. apply andb_true_iff in Hp as [Hp Hgeo].
  apply andb_true_iff in Hp as [Hid Hskip]. apply negb_true_iff in Hskip.
  split; [by apply list_elem_of_In |]. split; [done |]. split; [done |].
  split; [| split].
  - intros Hs. apply existsb_eqb_elem in Hs. congruence.
  - destruct (is_spatial_type (ModelEntity.is_a entity)) eqn:E; [| done].
    apply spatial_type_is_skipped in E. congruence.
  - clear. induction entities as [|e l IH]; [done |]. simpl.
    destruct (is_product e); [by apply sublist_skip | by apply sublist_cons].
Qed.

Lemma selected_elements_are_products_witness :
  is_spatial_type "IfcWall" = false.
Proof.
  exact (proj1 (proj2 (proj2 (proj2 (proj2
    (selected_elements_are_products
       [ {| ModelEntity.is_a := "IfcWall";
            ModelEntity.has_GlobalId := true;
            ModelEntity.has_Representation := true;
            ModelEntity.has_ObjectPlacement := false;
            ModelEntity.view := Ok Sample.wall |} ]
       {| ModelEntity.is_a := "IfcWall";
          ModelEntity.has_GlobalId := true;
          ModelEntity.has_Representation := true;
          ModelEntity.has_ObjectPlacement := false;
          ModelEntity.view := Ok Sample.wall |}
       ltac:(by left))))))).
Defined.

Section LogFacts.

Lemma element_rows_app l1 l2 : element_rows (l1 ++ l2) = element_rows l1 ++ element_rows l2.
Proof. apply List.flat_map_app. Qed.

Lemma spatial_rows_app l1 l2 : spatial_rows (l1 ++ l2) = spatial_rows l1 ++ spatial_rows l2.
Proof. apply List.flat_map_app. Qed.

Lemma element_rows_elements bs : element_rows (map InsertElements bs) = concat bs.
Proof. induction bs as [|b bs IH]; [done |]. simpl. by rewrite <- IH. Qed.

Lemma element_rows_spatial bs : element_rows (map InsertSpatial bs) = [].
Proof. induction bs as [|b bs IH]; [done |]. exact IH. Qed.

Lemma spatial_rows_spatial bs : spatial_rows (map InsertSpatial bs) = concat bs.
Proof. induction bs as [|b bs IH]; [done |]. simpl. by rewrite <- IH. Qed.

Lemma spatial_rows_elements bs : spatial_rows (map InsertElements bs) = [].
Proof. induction bs as [|b bs IH]; [done |]. exact IH. Qed.

Lemma successes_length {E R : Type} (extract : E → res R) (elements : list E) :
  (List.length (successes extract elements) ≤ List.length elements)%nat.
Proof.
  induction elements as [|e elements IH]; [done |].
  rewrite successes_cons, length_app. destruct (extract e); simpl; lia.
Qed.

End LogFacts.

(** X21.  A run that returns writes the model row first, with status
    ["parsing"], and the status update last, with status ["done"] and the
    number of selected elements, whether or not their extraction succeeded;
    between the two it writes only spatial and element batches.  The element
    rows written are those of the selected elements whose extraction
    succeeded, each tagged with the model id, so at most as many as the
    count reported; the spatial rows written are the nodes of the spatial
    tree, in order. *)
Theorem parse_ifc_file_log
    (f : Q → string) (g : string → option Q) fuel model_id file model_name log :
  parse_ifc_file f g fuel model_id file model_name = Some log →
  let selected := select_elements (IfcFile.all_entities file) in
  let storey_map := build_storey_map (IfcFile.containment file) in
  (∃ row mid,
     log = InsertModel row :: mid ++ [UpdateModel model_id "done" (List.length selected)] ∧
     ModelRow.parse_status row = "parsing" ∧
     ModelRow.id row = model_id ∧
     Forall (fun op => match op with
                       | InsertSpatial _ | InsertElements _ => True
                       | _ => False
                       end) mid) ∧
  element_rows log = successes (extract_row f storey_map model_id) selected ∧
  (List.length (element_rows log) ≤ List.length selected)%nat ∧
  Forall (fun r => snd r = model_id) (element_rows log) ∧
  ∃ nodes,
    build_spatial_tree g fuel (IfcFile.spatial file) = Some nodes ∧
    spatial_rows log = map (fun node => (node, model_id)) nodes.
Proof.
  intros Hrun selected storey_map. unfold parse_ifc_file in Hrun. cbv zeta in Hrun.
  destruct (build_spatial_tree g fuel (IfcFile.spatial file)) as [nodes|]; [| done].
  injection Hrun as <-. fold selected storey_map.
  set (batches := insert_elements (extract_row f storey_map model_id) selected).
  set (tagged := map (fun node => (node, model_id)) nodes).
  assert (Hrows : concat batches = successes (extract_row f storey_map model_id) selected).
  { apply insert_elements_concat. }
  assert (Erows : ∀ row, element_rows
                    (InsertModel row :: map InsertSpatial (chunks tagged)
                     ++ map InsertElements batches
                     ++ [UpdateModel model_id "done" (List.length selected)])
                  = concat batches).
  { intros row. change (InsertModel row :: ?l) with ([InsertModel row] ++ l).
    rewrite !element_rows_app, element_rows_spatial, element_rows_elements.
    simpl. by rewrite app_nil_r. }
  split; [| split; [| split; [| split]]].
  - eexists _, (map InsertSpatial (chunks tagged) ++ map InsertElements batches).
    split; [by rewrite <- app_assoc |]. split; [done |]. split; [done |].
    apply Forall_app. split; apply Forall_forall; intros op Hop;
      apply list_elem_of_In, in_map_iff in Hop as (b & <- & _); done.
  - by rewrite Erows, Hrows.
  - rewrite Erows, Hrows. apply successes_length.
  - rewrite Erows, Hrows. apply Forall_forall. intros r Hr.
    apply list_elem_of_In, in_flat_map in Hr as (e & _ & Hr).
    unfold extract_row in Hr. destruct (ModelEntity.view e); [| done].
    simpl in Hr. destruct Hr as [<- | []]. done.
  - exists nodes. split; [done |].
    match goal with
    | |- spatial_rows (?op :: ?l) = _ => change (op :: l) with ([op] ++ l)
    end.
    rewrite !spatial_rows_app, spatial_rows_spatial, spatial_rows_elements.
    simpl. rewrite app_nil_r.
    apply chunks_concat.
Qed.

Lemma parse_ifc_file_log_witness :
  ∃ log,
    parse_ifc_file Sample.str_of_float Sample.float_of_str 10 "m-1" Demo.file None
      = Some log ∧
    (List.length (element_rows log)
     ≤ List.length (select_elements (IfcFile.all_entities Demo.file)))%nat.
Proof.
  destruct (parse_ifc_file Sample.str_of_float Sample.float_of_str 10 "m-1" Demo.file None)
    as [log|] eqn:E; [| vm_compute in E; discriminate E].
  exists log. split; [reflexivity |].
  exact (proj1 (proj2 (proj2
           (parse_ifc_file_log Sample.str_of_float Sample.float_of_str 10 "m-1"
              Demo.file None log E)))).
Defined.

(** The run on the sample file: two elements are selected and counted, one
    row is written, and the model takes the name of the file. *)
Example parse_ifc_file_sample :
  option_map
    (fun log =>
       (List.length log, List.length (spatial_rows log),
        map (fun r => (Row.express_id (fst r), Row.floor_name (fst r))) (element_rows log),
        last log))
    (parse_ifc_file Sample.str_of_float Sample.float_of_str 10 "m-1" Demo.file None)
  = Some (4%nat, 6%nat, [(101, "Level 1")], Some (UpdateModel "m-1" "done" 2)).
Proof. vm_compute. reflexivity. Qed.

(** ** Command line *)

Lemma index_of_first (x : string) (pre rest : list string) :
  x ∉ pre → index_of x (pre ++ x :: rest) = Some (List.length pre).
Proof.
  induction pre as [|y pre IH]; intros Hn; simpl.
  - by rewrite String.eqb_refl.
  - destruct (String.eqb_spec y x) as [-> | Hne].
    + exfalso. apply Hn. by left.
    + rewrite IH; [done |]. intros Hin. apply Hn. by right.
Qed.

Lemma index_of_absent (x : string) (l : list string) : x ∉ l → index_of x l = None.
Proof.
  induction l as [|y l IH]; intros Hn; simpl; [done |].
  destruct (String.eqb_spec y x) as [-> | Hne].
  - exfalso. apply Hn. by left.
  - rewrite IH; [done |]. intros Hin. apply Hn. by right.
Qed.

(** X22.  With fewer than two arguments the program stops with the usage
    message.  Otherwise the path is always the second argument, and the
    model name is the argument that follows the first ["--model-name"],
    wherever that flag stands; it is absent when the flag is the last
    argument or is not given. *)
Theorem parse_args_path_and_model_name argv :
  ((List.length argv < 2)%nat → ∃ msg, parse_args argv = Raise msg) ∧
  (∀ pre rest,
     (2 ≤ List.length argv)%nat →
     argv = pre ++ "--model-name" :: rest →
     "--model-name" ∉ pre →
     parse_args argv = Ok (default EmptyString (argv !! 1%nat), head rest)) ∧
  ((2 ≤ List.length argv)%nat →
   "--model-name" ∉ argv →
   parse_args argv = Ok (default EmptyString (argv !! 1%nat), None)).
Proof.
  split; [| split].
  - intros Hlen. destruct argv as [|a [|b argv]]; simpl in *; [by eexists.. | lia].
  - intros pre rest Hlen Hsplit Hpre.
    destruct argv as [|a [|b argv]]; simpl in Hlen; [lia.. |].
    unfold parse_args. rewrite Hsplit at 1. rewrite index_of_first by done.
    simpl default. do 2 f_equal. rewrite Hsplit.
    rewrite lookup_app_r by lia.
    replace (List.length pre + 1 - List.length pre)%nat with 1%nat by lia.
    by destruct rest.
  - intros Hlen Habs.
    destruct argv as [|a [|b argv]]; simpl in Hlen; [lia.. |].
    unfold parse_args. by rewrite index_of_absent.
Qed.

(** The flag put before the path is taken as the path. *)
Lemma parse_args_path_and_model_name_witness :
  parse_args ["parse_ifc.py"; "--model-name"; "Tower"; "tower.ifc"]
  = Ok ("--model-name", Some "Tower").
Proof.
  exact (proj1 (proj2 (parse_args_path_and_model_name
                         ["parse_ifc.py"; "--model-name"; "Tower"; "tower.ifc"]))
           ["parse_ifc.py"] ["Tower"; "tower.ifc"] ltac:(simpl; lia) eq_refl
           ltac:(intros H; apply list_elem_of_singleton in H; discriminate H)).
Defined.

(** ** Search text, continued *)

Section SearchTextMore.

Lemma take_all n s : (String.length s ≤ n)%nat → PyStr.take n s = s.
Proof.
  revert s. induction n as [|n IH]; intros s Hlen.
  - destruct s; [done | simpl in Hlen; lia].
  - destruct s as [|c s]; [done |]. simpl in *. rewrite IH; [done | lia].
Qed.

Lemma take_exact n s : (n ≤ String.length s)%nat → String.length (PyStr.take n s) = n.
Proof.
  revert s. induction n as [|n IH]; intros s Hlen; [done |].
  destruct s as [|c s]; simpl in *; [lia |]. rewrite IH; [done | lia].
Qed.

Lemma take_is_prefix n s : ∃ rest, s = PyStr.take n s +:+ rest.
Proof.
  revert s. induction n as [|n IH]; intros s; [by exists s |].
  destruct s as [|c s]; [by exists EmptyString |].
  destruct (IH s) as [rest Hrest]. exists rest. simpl.
  rewrite string_app_cons. by rewrite <- Hrest.
Qed.

Lemma join_cons sep p q rest :
  PyStr.join sep (p :: q :: rest) = p +:+ sep +:+ PyStr.join sep (q :: rest).
Proof. reflexivity. Qed.

Lemma join_contains sep (parts : list string) seg :
  seg ∈ parts → PyStr.is_substring seg (PyStr.join sep parts).
Proof.
  induction parts as [|p parts IH]; intros Hin; [by apply not_elem_of_nil in Hin |].
  destruct parts as [|q parts].
  - apply list_elem_of_singleton in Hin as ->.
    exists EmptyString, EmptyString. simpl. by rewrite string_app_nil_r.
  - rewrite join_cons. apply elem_of_cons in Hin as [-> | Hin].
    + by exists EmptyString, (sep +:+ PyStr.join sep (q :: parts)).
    + destruct (IH Hin) as (a & b & ->).
      exists (p +:+ sep +:+ a), b. by rewrite !string_app_assoc.
Qed.

End SearchTextMore.

Lemma search_text_is_prefix_helper (f : Q → string) element storey_map :
  let r := extract_element_data f element storey_map in
  Row.search_text r =
    PyStr.take (Z.to_nat 10000)
      (PyStr.join " " (List.filter PyStr.truthy (search_segments f r))).
Proof.
  intros r. unfold r, search_segments.
  cbn [extract_element_data Row.search_text Row.ifc_type
    Row.name Row.description Row.floor_name Row.concrete_class Row.materials
    Row.classifications Row.property_sets].
  rewrite extend_with_psets_flat. do 2 f_equal.
  rewrite <- !app_assoc.
  rewrite !List.filter_app, !filter_truthy_idem. reflexivity.
Qed.

(** X23.  The search text is a prefix of the joined segments: it is the whole
    of them when they take at most 10000 characters, and exactly their first
    10000 characters otherwise. *)
Theorem search_text_is_prefix_of_joined_segments (f : Q → string) element storey_map :
  let r := extract_element_data f element storey_map in
  let joined := PyStr.join " " (List.filter PyStr.truthy (search_segments f r)) in
  (∃ rest, joined = Row.search_text r +:+ rest) ∧
  ((Z.of_nat (String.length joined) ≤ 10000)%Z → Row.search_text r = joined) ∧
  ((10000 < Z.of_nat (String.length joined))%Z →
   Z.of_nat (String.length (Row.search_text r)) = 10000%Z).
Proof.
  intros r joined.
  assert (E : Row.search_text r = PyStr.take (Z.to_nat 10000) joined).
  { apply ((search_text_is_prefix_helper f element storey_map)). }
  rewrite E. split; [apply take_is_prefix |]. split.
  - intros Hlen. apply take_all. lia.
  - intros Hlen. rewrite take_exact; lia.
Qed.

(** X24.  When the joined segments take at most 10000 characters, every
    non-empty segment (the type, the name, the floor name, each material,
    each classification, each set name, each ["key=value"]) can be found in
    the search text. *)
Theorem search_text_contains_every_segment (f : Q → string) element storey_map seg :
  let r := extract_element_data f element storey_map in
  let joined := PyStr.join " " (List.filter PyStr.truthy (search_segments f r)) in
  (Z.of_nat (String.length joined) ≤ 10000)%Z →
  seg ∈ search_segments f r →
  seg ≠ EmptyString →
  PyStr.is_substring seg (Row.search_text r).
Proof.
  intros r joined Hlen Hin Hne.
  assert (E : Row.search_text r = joined).
  { unfold joined, r. rewrite (search_text_is_prefix_helper f element storey_map).
    apply take_all. unfold joined, r in Hlen. lia. }
  rewrite E. apply join_contains.
  apply list_elem_of_In, filter_In. split; [by apply list_elem_of_In |].
  by destruct seg.
Qed.

Lemma search_text_contains_every_segment_witness :
  PyStr.is_substring "Reference=W-01"
    (Row.search_text (extract_element_data Sample.str_of_float Sample.wall ∅)).
Proof.
  refine (search_text_contains_every_segment Sample.str_of_float Sample.wall ∅
            "Reference=W-01" _ _ _).
  - vm_compute. discriminate.
  - vm_compute. do 7 right. left.
  - discriminate.
Defined.
